(** * The local resilience layer: semantic index and offline queue

    A shallow embedding of [VectorDatabase] (utils/vectordb.ts) and of
    [OfflineQueueService] (utils/offlineQueue.ts).

    Modelling conventions
    - a JavaScript [number] is an IEEE double.  What [cosineSimilarity]
      returns and the order in which [search] ranks its results are stated
      on doubles, in [Binary64].  The other operations of the vector
      database are stated with real numbers and exact arithmetic; rounding,
      NaN and overflow are outside of those statements;
    - a [Map] is an insertion-ordered association list with unique keys;
    - a [Promise] that can reject is a [Result];
    - the external collaborators (embedding provider, AsyncStorage writes,
      delivery outcomes) are oracles or events;
    - the offline queue is first followed from the empty queue of a fresh
      class; the load of a stored queue at start-up is added in
      [QueueStart]. *)

From Stdlib Require Import String DecimalString ZArith Bool Arith Lia.
From Stdlib Require Import Reals Lra Psatz List Permutation Sorted.
From Stdlib Require Floats.
Import ListNotations.

Set Implicit Arguments.

(** ** Promises *)

Inductive Result (A : Type) : Type :=
| Resolved (a : A)
| Rejected.

Arguments Resolved {A} a.
Arguments Rejected {A}.

(** ** Strings *)

(** The decimal text of an integer, as a template literal prints it. *)
Definition string_of_Z (z : Z) : string :=
  DecimalString.NilZero.string_of_int (Z.to_int z).

(** ** Arrays *)

(** [Array.prototype.slice(start, end)] for integral arguments; [None] is an
    omitted [end]. *)
Definition relative_index (len k : Z) : Z :=
  if (k <? 0)%Z then Z.max (len + k) 0 else Z.min k len.

Definition slice {A : Type} (l : list A) (start : Z) (stop : option Z) : list A :=
  let len := Z.of_nat (length l) in
  let k := relative_index len start in
  let final := match stop with
               | None => len
               | Some e => relative_index len e
               end in
  firstn (Z.to_nat (final - k)) (skipn (Z.to_nat k) l).

(** [Array.prototype.sort(cmp)]: a stable sort.  [cmp a b > 0] puts [a] after
    [b]; every other outcome keeps [a] before [b]. *)
Section Sort.
Variable A : Type.
Variable cmp : A -> A -> R.

Fixpoint sort_insert (x : A) (l : list A) : list A :=
  match l with
  | [] => [x]
  | y :: l' =>
      if Rlt_dec 0 (cmp x y) then y :: sort_insert x l' else x :: y :: l'
  end.

Fixpoint sort (l : list A) : list A :=
  match l with
  | [] => []
  | x :: l' => sort_insert x (sort l')
  end.
End Sort.

(** ** Insertion-ordered maps with string keys *)

Module JsMap.
Section Ops.
Variable V : Type.

Definition t := list (string * V).

Fixpoint get (m : t) (k : string) : option V :=
  match m with
  | [] => None
  | (k', v) :: m' => if String.eqb k' k then Some v else get m' k
  end.

(** [set] keeps the position of a key that is already present. *)
Fixpoint set (m : t) (k : string) (v : V) : t :=
  match m with
  | [] => [(k, v)]
  | (k', v') :: m' =>
      if String.eqb k' k then (k, v) :: m' else (k', v') :: set m' k v
  end.

Fixpoint delete (m : t) (k : string) : t :=
  match m with
  | [] => []
  | (k', v') :: m' =>
      if String.eqb k' k then m' else (k', v') :: delete m' k
  end.

Definition size (m : t) : nat := length m.
Definition keys (m : t) : list string := map fst m.
Definition values (m : t) : list V := map snd m.
Definition entries (m : t) : list (string * V) := m.

(** [new Map(iterable)] *)
Definition of_entries (l : list (string * V)) : t :=
  fold_left (fun m kv => set m (fst kv) (snd kv)) l [].

Definition wf (m : t) : Prop := NoDup (keys m).
End Ops.
End JsMap.

(** ** Cosine similarity in exact arithmetic *)

Definition number := R.

(** One iteration of the loop body of [cosineSimilarity]. *)
Definition cosine_step (vec1 vec2 : list number) (acc : R * R * R) (i : nat)
  : R * R * R :=
  let '(dotProduct, norm1, norm2) := acc in
  ((dotProduct + nth i vec1 0 * nth i vec2 0)%R,
   (norm1 + nth i vec1 0 * nth i vec1 0)%R,
   (norm2 + nth i vec2 0 * nth i vec2 0)%R).

Definition cosine_loop (vec1 vec2 : list number) : R * R * R :=
  fold_left (cosine_step vec1 vec2) (seq 0 (length vec1)) (0%R, 0%R, 0%R).

Definition cosineSimilarity (vec1 vec2 : list number) : number :=
  if negb (Nat.eqb (length vec1) (length vec2)) then 0%R
  else
    let '(dotProduct, norm1, norm2) := cosine_loop vec1 vec2 in
    let denominator := (sqrt norm1 * sqrt norm2)%R in
    if Req_dec_T denominator 0 then 0%R else (dotProduct / denominator)%R.

(** The formula of the specification: [dot(a,b) / (|a| * |b|)]. *)
Fixpoint dot (a b : list R) : R :=
  match a, b with
  | x :: a', y :: b' => (x * y + dot a' b')%R
  | _, _ => 0%R
  end.

Definition norm (a : list R) : R := sqrt (dot a a).

(** ** Messages and sessions (utils/storage.ts) *)

Inductive Role : Type := user | assistant.

Definition Date := Z.
Bind Scope Z_scope with Date.

Record Message : Type := {
  msg_id : string;
  msg_role : Role;
  msg_content : string;
  msg_timestamp : Date
}.

Record Session : Type := {
  session_id : string;
  session_title : string;
  session_messages : list Message
}.

(** What [AsyncStorage.getItem] followed by [JSON.parse] can produce for one
    key: [null], a value, or an exception (a rejected read or a string that
    does not parse). *)
Inductive StoredItem (A : Type) : Type :=
| NoItem
| Item (a : A)
| BadItem.

Arguments NoItem {A}.
Arguments Item {A} a.
Arguments BadItem {A}.

(** ** The vector database (utils/vectordb.ts)

    Each operation is one transition of the state: what it does between its
    call and the settling of its promise, with no other call interleaved. *)

Module VectorDatabase.

Record VectorDocument : Type := {
  doc_id : string;
  doc_sessionId : string;
  doc_messageId : string;
  doc_content : string;
  doc_embedding : list number;
  doc_timestamp : Date;
  doc_role : Role;
  doc_sessionTitle : string
}.

Record SearchResult : Type := {
  sessionId : string;
  messageId : string;
  content : string;
  score : number;
  sessionTitle : string;
  timestamp : Date
}.

(** The static fields of the class, the two AsyncStorage keys it owns
    ([@vector_db], [@embedding_cache]), the [openAIInstance] singleton
    (present or not) and two counters that name the next call to each
    oracle. *)
Record State : Type := {
  documents : JsMap.t VectorDocument;
  embeddingCache : JsMap.t (list number);
  initialized : bool;
  stored_vector_db : StoredItem (JsMap.t VectorDocument);
  stored_embedding_cache : StoredItem (JsMap.t (list number));
  openAIInstance : bool;
  embedCalls : nat;
  writes : nat
}.

Definition with_documents (st : State) (d : JsMap.t VectorDocument) : State :=
  {| documents := d;
     embeddingCache := embeddingCache st;
     initialized := initialized st;
     stored_vector_db := stored_vector_db st;
     stored_embedding_cache := stored_embedding_cache st;
     openAIInstance := openAIInstance st;
     embedCalls := embedCalls st;
     writes := writes st |}.

Definition with_embeddingCache (st : State) (c : JsMap.t (list number)) : State :=
  {| documents := documents st;
     embeddingCache := c;
     initialized := initialized st;
     stored_vector_db := stored_vector_db st;
     stored_embedding_cache := stored_embedding_cache st;
     openAIInstance := openAIInstance st;
     embedCalls := embedCalls st;
     writes := writes st |}.

Definition with_initialized (st : State) : State :=
  {| documents := documents st;
     embeddingCache := embeddingCache st;
     initialized := true;
     stored_vector_db := stored_vector_db st;
     stored_embedding_cache := stored_embedding_cache st;
     openAIInstance := openAIInstance st;
     embedCalls := embedCalls st;
     writes := writes st |}.

Definition with_stored_vector_db (st : State) : State :=
  {| documents := documents st;
     embeddingCache := embeddingCache st;
     initialized := initialized st;
     stored_vector_db := Item (documents st);
     stored_embedding_cache := stored_embedding_cache st;
     openAIInstance := openAIInstance st;
     embedCalls := embedCalls st;
     writes := writes st |}.

Definition with_stored_embedding_cache (st : State) : State :=
  {| documents := documents st;
     embeddingCache := embeddingCache st;
     initialized := initialized st;
     stored_vector_db := stored_vector_db st;
     stored_embedding_cache := Item (embeddingCache st);
     openAIInstance := openAIInstance st;
     embedCalls := embedCalls st;
     writes := writes st |}.

Definition count_embedCall (st : State) : State :=
  {| documents := documents st;
     embeddingCache := embeddingCache st;
     initialized := initialized st;
     stored_vector_db := stored_vector_db st;
     stored_embedding_cache := stored_embedding_cache st;
     openAIInstance := openAIInstance st;
     embedCalls := S (embedCalls st);
     writes := writes st |}.

Definition count_write (st : State) : State :=
  {| documents := documents st;
     embeddingCache := embeddingCache st;
     initialized := initialized st;
     stored_vector_db := stored_vector_db st;
     stored_embedding_cache := stored_embedding_cache st;
     openAIInstance := openAIInstance st;
     embedCalls := embedCalls st;
     writes := S (writes st) |}.

(** [initialize]: loads both maps once; an exception anywhere in the [try]
    lands in the [catch], which only sets [initialized]. *)
Definition initialize (st : State) : State :=
  if initialized st then st
  else
    match stored_vector_db st with
    | BadItem => with_initialized st
    | storedDocs =>
        let st1 := match storedDocs with
                   | Item parsed => with_documents st parsed
                   | _ => st
                   end in
        match stored_embedding_cache st with
        | BadItem => with_initialized st1
        | Item parsed => with_initialized (with_embeddingCache st1 parsed)
        | NoItem => with_initialized st1
        end
    end.

Section Oracles.
(** [createEmbedding n text]: the outcome of the [n]-th call to the
    embedding provider; [None] is a thrown error. *)
Variable createEmbedding : nat -> string -> option (list number).
(** [setItem_ok n]: whether the [n]-th [AsyncStorage.setItem] of this
    class resolves. *)
Variable setItem_ok : nat -> bool.

(** [saveToStorage]: the whole body is one [try]; the cache is pruned
    between the two writes. *)
Definition saveToStorage (st : State) : State :=
  if setItem_ok (writes st) then
    let st1 := count_write (with_stored_vector_db st) in
    let st2 :=
      if 1000 <? JsMap.size (embeddingCache st1) then
        with_embeddingCache st1
          (JsMap.of_entries
             (slice (JsMap.entries (embeddingCache st1)) (-500) None))
      else st1 in
    if setItem_ok (writes st2) then
      count_write (with_stored_embedding_cache st2)
    else count_write st2
  else count_write st.

Definition docId_of (session : Session) (message : Message) : string :=
  (session_id session ++ "_" ++ msg_id message)%string.

Definition make_doc (session : Session) (message : Message)
    (embedding : list number) : VectorDocument :=
  {| doc_id := docId_of session message;
     doc_sessionId := session_id session;
     doc_messageId := msg_id message;
     doc_content := msg_content message;
     doc_embedding := embedding;
     doc_timestamp := msg_timestamp message;
     doc_role := msg_role message;
     doc_sessionTitle := session_title session |}.

Definition unchanged (existingDoc : option VectorDocument)
    (message : Message) : bool :=
  match existingDoc with
  | Some d => String.eqb (doc_content d) (msg_content message)
  | None => false
  end.

(** One iteration of the loop of [indexSession]. *)
Definition index_message (session : Session) (st : State)
    (message : Message) : State :=
  let docId := docId_of session message in
  if unchanged (JsMap.get (documents st) docId) message then st
  else
    match JsMap.get (embeddingCache st) (msg_content message) with
    | Some embedding =>
        with_documents st
          (JsMap.set (documents st) docId (make_doc session message embedding))
    | None =>
        match createEmbedding (embedCalls st) (msg_content message) with
        | Some embedding =>
            let st1 :=
              with_embeddingCache (count_embedCall st)
                (JsMap.set (embeddingCache st) (msg_content message) embedding) in
            with_documents st1
              (JsMap.set (documents st1) docId
                 (make_doc session message embedding))
        | None => count_embedCall st
        end
    end.

(** [getOpenAI()] throws when no instance was created. *)
Definition indexSession (st : State) (session : Session)
  : State * Result unit :=
  let st0 := initialize st in
  if negb (openAIInstance st0) then (st0, Rejected)
  else
    (saveToStorage
       (fold_left (index_message session) (session_messages session) st0),
     Resolved tt).

Definition to_result (r : VectorDocument * number) : SearchResult :=
  {| sessionId := doc_sessionId (fst r);
     messageId := doc_messageId (fst r);
     content := doc_content (fst r);
     score := snd r;
     sessionTitle := doc_sessionTitle (fst r);
     timestamp := doc_timestamp (fst r) |}.

(** The comparator [(a, b) => b.score - a.score]. *)
Definition by_score (a b : VectorDocument * number) : R :=
  (snd b - snd a)%R.

Definition score_all (queryEmbedding : list number)
    (docs : JsMap.t VectorDocument) : list (VectorDocument * number) :=
  map (fun doc => (doc, cosineSimilarity queryEmbedding (doc_embedding doc)))
      (JsMap.values docs).

Definition default_limit (limit : option Z) (d : Z) : Z :=
  match limit with
  | Some n => n
  | None => d
  end.

Definition search (st : State) (query : string) (limit : option Z)
  : State * Result (list SearchResult) :=
  let st0 := initialize st in
  if JsMap.size (documents st0) =? 0 then (st0, Resolved [])
  else if negb (openAIInstance st0) then (st0, Rejected)
  else
    match createEmbedding (embedCalls st0) query with
    | None => (count_embedCall st0, Resolved [])
    | Some queryEmbedding =>
        let results := score_all queryEmbedding (documents st0) in
        (count_embedCall st0,
         Resolved
           (map to_result
              (slice (sort by_score results) 0
                 (Some (default_limit limit 10)))))
    end.

(** [excludeSessionId && doc.sessionId === excludeSessionId]: the empty
    string is falsy. *)
Definition excluded (excludeSessionId : option string)
    (doc : VectorDocument) : bool :=
  match excludeSessionId with
  | Some s =>
      negb (String.eqb s "") && String.eqb (doc_sessionId doc) s
  | None => false
  end.

Definition similar_to (embedding : list number) (messageContent : string)
    (excludeSessionId : option string) (docs : JsMap.t VectorDocument)
  : list (VectorDocument * number) :=
  flat_map
    (fun doc =>
       if excluded excludeSessionId doc
          || String.eqb (doc_content doc) messageContent
       then []
       else
         let score := cosineSimilarity embedding (doc_embedding doc) in
         if Rlt_dec (7 / 10) score then [(doc, score)] else [])
    (JsMap.values docs).

Definition findSimilar (st : State) (messageContent : string)
    (excludeSessionId : option string) (limit : option Z)
  : State * Result (list SearchResult) :=
  let st0 := initialize st in
  if negb (openAIInstance st0) then (st0, Rejected)
  else
    let rank embedding :=
      Resolved
        (map to_result
           (slice
              (sort by_score
                 (similar_to embedding messageContent excludeSessionId
                    (documents st0)))
              0 (Some (default_limit limit 5)))) in
    match JsMap.get (embeddingCache st0) messageContent with
    | Some embedding => (st0, rank embedding)
    | None =>
        match createEmbedding (embedCalls st0) messageContent with
        | Some embedding => (count_embedCall st0, rank embedding)
        | None => (count_embedCall st0, Resolved [])
        end
    end.
End Oracles.

End VectorDatabase.

(** ** Scores as the code computes them: IEEE doubles

    What [cosineSimilarity] returns, and so the order in which [search]
    returns its results, depends on the rounding of every operation.  This
    module is the same code over binary64 numbers: [+], [*], [/],
    [Math.sqrt], [===], [>] and [-] are the operations of IEEE 754 in
    round-to-nearest-even, NaN and the infinities included. *)

Module Binary64.
Import PrimFloat.
Local Open Scope float_scope.

Definition number := float.

(** [vec[i]]: an index out of range reads [undefined], which arithmetic
    turns into NaN.  The loop below never reads out of range. *)
Definition at_index (vec : list number) (i : nat) : number := nth i vec nan.

(** One iteration of the loop body of [cosineSimilarity]. *)
Definition cosine_step (vec1 vec2 : list number)
    (acc : number * number * number) (i : nat) : number * number * number :=
  let '(dotProduct, norm1, norm2) := acc in
  (dotProduct + at_index vec1 i * at_index vec2 i,
   norm1 + at_index vec1 i * at_index vec1 i,
   norm2 + at_index vec2 i * at_index vec2 i).

Definition cosine_loop (vec1 vec2 : list number) : number * number * number :=
  fold_left (cosine_step vec1 vec2) (seq 0 (length vec1)) (0, 0, 0).

Definition cosineSimilarity (vec1 vec2 : list number) : number :=
  if negb (Nat.eqb (length vec1) (length vec2)) then 0
  else
    let '(dotProduct, norm1, norm2) := cosine_loop vec1 vec2 in
    let denominator := sqrt norm1 * sqrt norm2 in
    if denominator =? 0 then 0 else dotProduct / denominator.

(** The formula of the specification, [dot(a,b) / (|a| * |b|)], with every
    operation rounded and the sums taken from left to right. *)
Definition dot (a b : list number) : number :=
  fold_left (fun sum xy => sum + fst xy * snd xy) (combine a b) 0.

Definition norm (a : list number) : number := sqrt (dot a a).

(** The two statements of the specification about the value. *)
Definition zero_when_a_norm_is_zero : Prop :=
  forall a b : list number,
    length a = length b ->
    (norm a =? 0) = true \/ (norm b =? 0) = true ->
    cosineSimilarity a b = 0.

Definition within_unit_interval : Prop :=
  forall a b : list number,
    length a = length b -> a <> [] ->
    (-1 <=? cosineSimilarity a b) = true /\
    (cosineSimilarity a b <=? 1) = true.

(** [Array.prototype.sort(cmp)] with a comparator into doubles.  A result
    [v > 0] puts [a] after [b]; every other result, NaN included, keeps [a]
    before [b].  When the comparator is consistent the sort is stable and
    this is its result; a comparator that returns NaN is not consistent,
    and the order is then left to the implementation. *)
Section Sort.
Variable A : Type.
Variable cmp : A -> A -> number.

Fixpoint sort_insert (x : A) (l : list A) : list A :=
  match l with
  | [] => [x]
  | y :: l' => if 0 <? cmp x y then y :: sort_insert x l' else x :: y :: l'
  end.

Fixpoint sort (l : list A) : list A :=
  match l with
  | [] => []
  | x :: l' => sort_insert x (sort l')
  end.
End Sort.

Record VectorDocument : Type := {
  doc_id : string;
  doc_sessionId : string;
  doc_messageId : string;
  doc_content : string;
  doc_embedding : list number;
  doc_timestamp : Date;
  doc_role : Role;
  doc_sessionTitle : string
}.

Record SearchResult : Type := {
  sessionId : string;
  messageId : string;
  content : string;
  score : number;
  sessionTitle : string;
  timestamp : Date
}.

(** The static fields that [search] reads or writes, the two AsyncStorage
    keys of the class, the [openAIInstance] singleton and the number of
    calls made to the embedding provider. *)
Record State : Type := {
  documents : JsMap.t VectorDocument;
  embeddingCache : JsMap.t (list number);
  initialized : bool;
  stored_vector_db : StoredItem (JsMap.t VectorDocument);
  stored_embedding_cache : StoredItem (JsMap.t (list number));
  openAIInstance : bool;
  embedCalls : nat
}.

Definition with_documents (st : State) (d : JsMap.t VectorDocument) : State :=
  {| documents := d;
     embeddingCache := embeddingCache st;
     initialized := initialized st;
     stored_vector_db := stored_vector_db st;
     stored_embedding_cache := stored_embedding_cache st;
     openAIInstance := openAIInstance st;
     embedCalls := embedCalls st |}.

Definition with_embeddingCache (st : State) (c : JsMap.t (list number)) : State :=
  {| documents := documents st;
     embeddingCache := c;
     initialized := initialized st;
     stored_vector_db := stored_vector_db st;
     stored_embedding_cache := stored_embedding_cache st;
     openAIInstance := openAIInstance st;
     embedCalls := embedCalls st |}.

Definition with_initialized (st : State) : State :=
  {| documents := documents st;
     embeddingCache := embeddingCache st;
     initialized := true;
     stored_vector_db := stored_vector_db st;
     stored_embedding_cache := stored_embedding_cache st;
     openAIInstance := openAIInstance st;
     embedCalls := embedCalls st |}.

Definition count_embedCall (st : State) : State :=
  {| documents := documents st;
     embeddingCache := embeddingCache st;
     initialized := initialized st;
     stored_vector_db := stored_vector_db st;
     stored_embedding_cache := stored_embedding_cache st;
     openAIInstance := openAIInstance st;
     embedCalls := S (embedCalls st) |}.

(** [initialize]: loads both maps once; an exception anywhere in the [try]
    lands in the [catch], which only sets [initialized]. *)
Definition initialize (st : State) : State :=
  if initialized st then st
  else
    match stored_vector_db st with
    | BadItem => with_initialized st
    | storedDocs =>
        let st1 := match storedDocs with
                   | Item parsed => with_documents st parsed
                   | _ => st
                   end in
        match stored_embedding_cache st with
        | BadItem => with_initialized st1
        | Item parsed => with_initialized (with_embeddingCache st1 parsed)
        | NoItem => with_initialized st1
        end
    end.

Definition to_result (r : VectorDocument * number) : SearchResult :=
  {| sessionId := doc_sessionId (fst r);
     messageId := doc_messageId (fst r);
     content := doc_content (fst r);
     score := snd r;
     sessionTitle := doc_sessionTitle (fst r);
     timestamp := doc_timestamp (fst r) |}.

(** The comparator [(a, b) => b.score - a.score]. *)
Definition by_score (a b : VectorDocument * number) : number :=
  snd b - snd a.

Definition score_all (queryEmbedding : list number)
    (docs : JsMap.t VectorDocument) : list (VectorDocument * number) :=
  map (fun doc => (doc, cosineSimilarity queryEmbedding (doc_embedding doc)))
      (JsMap.values docs).

Section Oracles.
(** [createEmbedding n text]: the outcome of the [n]-th call to the
    embedding provider; [None] is a thrown error. *)
Variable createEmbedding : nat -> string -> option (list number).

(** [getOpenAI()] throws when no instance was created. *)
Definition search (st : State) (query : string) (limit : option Z)
  : State * Result (list SearchResult) :=
  let st0 := initialize st in
  if Nat.eqb (JsMap.size (documents st0)) 0 then (st0, Resolved [])
  else if negb (openAIInstance st0) then (st0, Rejected)
  else
    match createEmbedding (embedCalls st0) query with
    | None => (count_embedCall st0, Resolved [])
    | Some queryEmbedding =>
        let results := score_all queryEmbedding (documents st0) in
        (count_embedCall st0,
         Resolved
           (map to_result
              (slice (sort by_score results) 0
                 (Some (VectorDatabase.default_limit limit 10)))))
    end.
End Oracles.




(** *** Test inputs *)

Definition doc_old : VectorDocument :=
  {| doc_id := "s_1"; doc_sessionId := "s"; doc_messageId := "1";
     doc_content := "hello"; doc_embedding := [1];
     doc_timestamp := 100; doc_role := user; doc_sessionTitle := "Chat" |}.

Definition doc_new : VectorDocument :=
  {| doc_id := "s_2"; doc_sessionId := "s"; doc_messageId := "2";
     doc_content := "hello again"; doc_embedding := [1];
     doc_timestamp := 200; doc_role := assistant;
     doc_sessionTitle := "Chat" |}.

(** Two documents with the same embedding, the older one indexed first. *)
Definition two_docs : State :=
  {| documents := [("s_1", doc_old); ("s_2", doc_new)]%string;
     embeddingCache := []; initialized := true;
     stored_vector_db := NoItem; stored_embedding_cache := NoItem;
     openAIInstance := true; embedCalls := 0 |}.

Definition unit_provider : nat -> string -> option (list number) :=
  fun _ _ => Some [1].




End Binary64.

(** ** The order of doubles

    Rocq specifies the primitive doubles by the type [spec_float] of signs,
    mantissas and exponents.  The definitions below place the doubles that
    are not NaN on a line, so that facts about [<] and [<=] become facts
    about integers. *)

Module DoubleOrder.
Import Floats.
Local Open Scope Z_scope.


(** The place of a double on the line: negative infinity, the negative
    numbers (a larger exponent or mantissa is further down), the zeros, the
    positive numbers, positive infinity. *)
Definition key (x : spec_float) : Z * Z * Z :=
  match x with
  | S754_infinity true => (-2, 0, 0)
  | S754_finite true m e => (-1, - e, - Zpos m)
  | S754_zero _ => (0, 0, 0)
  | S754_nan => (0, 0, 0)
  | S754_finite false m e => (1, e, Zpos m)
  | S754_infinity false => (2, 0, 0)
  end.



(** Exchanging the two sums of squares of the loop of [cosineSimilarity]. *)
Definition swap (acc : float * float * float) : float * float * float :=
  let '(d, n1, n2) := acc in (d, n2, n1).
End DoubleOrder.

(** ** The offline queue (utils/offlineQueue.ts)

    The class is modelled over one process lifetime, from its static
    initial fields.  Every function is cut at its [await]s into turns of the
    event loop, so that calls can interleave the way they do at run time.
    [initialize] itself is not a turn here: its NetInfo listener and its
    timer appear as the events [NetworkListener] and [SyncQueue]; its load
    of a stored queue is a turn of [QueueStart], further down. *)

Module OfflineQueueService.

Inductive Status : Type := pending | syncing | failed.

Definition Status_eqb (a b : Status) : bool :=
  match a, b with
  | pending, pending | syncing, syncing | failed, failed => true
  | _, _ => false
  end.

Record QueuedMessage : Type := {
  id : string;
  sessionId : string;
  message : Message;
  timestamp : Date;
  retryCount : nat;
  status : Status;
  error : option string
}.

Record SyncStatus : Type := {
  lastSync : option Date;
  pendingCount : nat;
  failedCount : nat;
  status_isOnline : bool;
  isSyncing : bool
}.

(** The bound written as the literal [3] in [syncQueue]. *)
Definition MAX_RETRIES : nat := 3.

(** [QueuedMessage] objects are shared between [this.queue] and the
    [pendingMessages] array of every suspended [syncQueue]: they live in a
    store and are named by reference. *)
Definition ref := nat.

(** A call of [syncQueue] suspended at [await this.sendMessage(current)],
    with the rest of its [pendingMessages] still to visit. *)
Record Pass : Type := {
  current : ref;
  remaining : list ref
}.

Definition pass_refs (p : Pass) : list ref := current p :: remaining p.

Record State : Type := {
  heap : ref -> QueuedMessage;
  next : ref;
  queue : list ref;
  isOnline : bool;
  passes : list Pass;
  (** every call of [sendMessage], most recent first *)
  sends : list ref;
  (** the AsyncStorage key [@sync_status] *)
  stored_sync_status : StoredItem Date
}.

Definition blank : QueuedMessage :=
  {| id := ""; sessionId := "";
     message := {| msg_id := ""; msg_role := user; msg_content := "";
                   msg_timestamp := 0%Z |};
     timestamp := 0%Z; retryCount := 0; status := pending; error := None |}.

(** The static fields as the class declares them. *)
Definition init : State :=
  {| heap := fun _ => blank; next := 0; queue := []; isOnline := true;
     passes := []; sends := []; stored_sync_status := NoItem |}.

Definition with_heap (s : State) (h : ref -> QueuedMessage) : State :=
  {| heap := h; next := next s; queue := queue s; isOnline := isOnline s;
     passes := passes s; sends := sends s;
     stored_sync_status := stored_sync_status s |}.

Definition with_queue (s : State) (q : list ref) : State :=
  {| heap := heap s; next := next s; queue := q; isOnline := isOnline s;
     passes := passes s; sends := sends s;
     stored_sync_status := stored_sync_status s |}.

Definition with_isOnline (s : State) (b : bool) : State :=
  {| heap := heap s; next := next s; queue := queue s; isOnline := b;
     passes := passes s; sends := sends s;
     stored_sync_status := stored_sync_status s |}.

Definition with_passes (s : State) (ps : list Pass) : State :=
  {| heap := heap s; next := next s; queue := queue s; isOnline := isOnline s;
     passes := ps; sends := sends s;
     stored_sync_status := stored_sync_status s |}.

Definition with_send (s : State) (r : ref) : State :=
  {| heap := heap s; next := next s; queue := queue s; isOnline := isOnline s;
     passes := passes s; sends := r :: sends s;
     stored_sync_status := stored_sync_status s |}.

Definition with_stored_sync_status (s : State) (d : Date) : State :=
  {| heap := heap s; next := next s; queue := queue s; isOnline := isOnline s;
     passes := passes s; sends := sends s;
     stored_sync_status := Item d |}.

Definition set_status (q : QueuedMessage) (st : Status) : QueuedMessage :=
  {| id := id q; sessionId := sessionId q; message := message q;
     timestamp := timestamp q; retryCount := retryCount q; status := st;
     error := error q |}.

Definition mem (r : ref) (rs : list ref) : bool := existsb (Nat.eqb r) rs.

(** Assignment to the object behind one reference. *)
Definition update (h : ref -> QueuedMessage) (r : ref) (q : QueuedMessage)
  : ref -> QueuedMessage :=
  fun r' => if Nat.eqb r' r then q else h r'.

(** [rs.forEach(msg => f(msg))] *)
Definition forEach (rs : list ref) (f : QueuedMessage -> QueuedMessage)
    (h : ref -> QueuedMessage) : ref -> QueuedMessage :=
  fun r' => if mem r' rs then f (h r') else h r'.

Definition has_status (s : State) (st : Status) (r : ref) : bool :=
  Status_eqb (status (heap s r)) st.

(** [queueMessage] up to its first [await]: the new object is pushed.  The
    rest of the function ([if (this.isOnline) this.syncQueue()]) is a call
    of [syncQueue] at a later turn of the event loop. *)
Definition queueMessage (s : State) (sid : string) (m : Message) (now : Date)
  : State :=
  let queuedMessage :=
    {| id := (sid ++ "_" ++ msg_id m ++ "_" ++ string_of_Z now)%string;
       sessionId := sid; message := m; timestamp := now;
       retryCount := 0; status := pending; error := None |} in
  {| heap := update (heap s) (next s) queuedMessage;
     next := S (next s);
     queue := queue s ++ [next s];
     isOnline := isOnline s; passes := passes s; sends := sends s;
     stored_sync_status := stored_sync_status s |}.

(** [syncQueue] up to its first [await]: both early returns, the marking
    of the pending messages and the call of [sendMessage] on the first. *)
Definition syncQueue (s : State) : State :=
  if negb (isOnline s) then s
  else
    let pendingMessages := filter (has_status s pending) (queue s) in
    match pendingMessages with
    | [] => s
    | first :: rest =>
        let s1 :=
          with_heap s
            (forEach pendingMessages (fun msg => set_status msg syncing)
               (heap s)) in
        with_send
          (with_passes s1
             (passes s1 ++ [{| current := first; remaining := rest |}]))
          first
    end.

(** What [sendMessage] can reject with. *)
Inductive Thrown : Type :=
| ErrorObject (msg : string)
| OtherValue.

(** The [catch] branch of the loop body. *)
Definition on_failure (q : QueuedMessage) (e : Thrown) : QueuedMessage :=
  let n := S (retryCount q) in
  if MAX_RETRIES <=? n then
    {| id := id q; sessionId := sessionId q; message := message q;
       timestamp := timestamp q; retryCount := n; status := failed;
       error := Some match e with
                     | ErrorObject msg => msg
                     | OtherValue => "Unknown error"%string
                     end |}
  else
    {| id := id q; sessionId := sessionId q; message := message q;
       timestamp := timestamp q; retryCount := n; status := pending;
       error := error q |}.

Fixpoint replace_nth (A : Type) (n : nat) (x : A) (l : list A) : list A :=
  match l, n with
  | [], _ => []
  | _ :: l', 0 => x :: l'
  | y :: l', S n' => y :: replace_nth n' x l'
  end.

Fixpoint remove_nth (A : Type) (n : nat) (l : list A) : list A :=
  match l, n with
  | [], _ => []
  | _ :: l', 0 => l'
  | y :: l', S n' => y :: remove_nth n' l'
  end.

(** The [p]-th suspended [syncQueue] resumes: its [sendMessage] resolved
    ([outcome = None]) or rejected.  The loop body finishes, and either the
    next message is sent or the loop ends and [lastSync] is written
    ([wrote = None] when that write rejects). *)
Definition sendSettled (s : State) (p : nat) (outcome : option Thrown)
    (wrote : option Date) : State :=
  match nth_error (passes s) p with
  | None => s
  | Some pass =>
      let queuedMessage := current pass in
      let s1 :=
        match outcome with
        | None =>
            with_queue s
              (filter
                 (fun q => negb (String.eqb (id (heap s q))
                                            (id (heap s queuedMessage))))
                 (queue s))
        | Some e =>
            with_heap s
              (update (heap s) queuedMessage
                 (on_failure (heap s queuedMessage) e))
        end in
      match remaining pass with
      | nxt :: rest =>
          with_send
            (with_passes s1
               (replace_nth p {| current := nxt; remaining := rest |}
                  (passes s1)))
            nxt
      | [] =>
          let s2 := with_passes s1 (remove_nth p (passes s1)) in
          match wrote with
          | Some d => with_stored_sync_status s2 d
          | None => s2
          end
      end
  end.

(** [retryFailed] up to its [await]; the call of [syncQueue] that ends it
    comes at a later turn. *)
Definition retryFailed (s : State) : State :=
  let failedMessages := filter (has_status s failed) (queue s) in
  with_heap s
    (forEach failedMessages
       (fun msg =>
          {| id := id msg; sessionId := sessionId msg; message := message msg;
             timestamp := timestamp msg; retryCount := 0; status := pending;
             error := None |})
       (heap s)).

Definition clearQueue (s : State) : State := with_queue s [].

Definition removeFromQueue (s : State) (messageId : string) : State :=
  with_queue s
    (filter (fun q => negb (String.eqb (id (heap s q)) messageId)) (queue s)).

(** The NetInfo listener of [initialize]. *)
Definition networkListener (s : State) (isConnected : option bool) : State :=
  let wasOffline := negb (isOnline s) in
  let s1 := with_isOnline s match isConnected with
                            | Some b => b
                            | None => false
                            end in
  if wasOffline && isOnline s1 then syncQueue s1 else s1.

Definition setOfflineMode (s : State) (offline : bool) : State :=
  let s1 := with_isOnline s (negb offline) in
  if isOnline s1 then syncQueue s1 else s1.

(** [getSyncStatus]: the two counts are taken before the [await] (state
    [s]), the stored record is read, and the two flags are taken after it
    (state [s']). *)
Definition getSyncStatus (s s' : State) : Result SyncStatus :=
  let pendingCount := length (filter (has_status s pending) (queue s)) in
  let failedCount := length (filter (has_status s failed) (queue s)) in
  match stored_sync_status s' with
  | BadItem => Rejected
  | storedStatus =>
      Resolved
        {| lastSync := match storedStatus with
                       | Item d => Some d
                       | _ => None
                       end;
           pendingCount := pendingCount;
           failedCount := failedCount;
           status_isOnline := isOnline s';
           isSyncing := existsb (has_status s' syncing) (queue s') |}
  end.

(** The turns of the event loop that touch the queue. *)
Inductive Event : Type :=
| QueueMessage (sid : string) (m : Message) (now : Date)
| SyncQueue
| SendSettled (p : nat) (outcome : option Thrown) (wrote : option Date)
| RetryFailed
| ClearQueue
| RemoveFromQueue (messageId : string)
| NetworkListener (isConnected : option bool)
| SetOfflineMode (offline : bool).

Definition step (s : State) (e : Event) : State :=
  match e with
  | QueueMessage sid m now => queueMessage s sid m now
  | SyncQueue => syncQueue s
  | SendSettled p outcome wrote => sendSettled s p outcome wrote
  | RetryFailed => retryFailed s
  | ClearQueue => clearQueue s
  | RemoveFromQueue messageId => removeFromQueue s messageId
  | NetworkListener c => networkListener s c
  | SetOfflineMode offline => setOfflineMode s offline
  end.

Definition run (s : State) (es : list Event) : State := fold_left step es s.

Definition reachable (s : State) : Prop := exists es, s = run init es.

(** The number of rejected deliveries of [r] along a run. *)
Definition fails_on (r : ref) (s : State) (e : Event) : bool :=
  match e with
  | SendSettled p (Some _) _ =>
      match nth_error (passes s) p with
      | Some pass => Nat.eqb (current pass) r
      | None => false
      end
  | _ => false
  end.

Fixpoint failures (r : ref) (s : State) (es : list Event) : nat :=
  match es with
  | [] => 0
  | e :: es' =>
      (if fails_on r s e then 1 else 0) + failures r (step s e) es'
  end.

Definition is_retry (e : Event) : bool :=
  match e with
  | RetryFailed => true
  | _ => false
  end.

End OfflineQueueService.

(** ** Invariants of the offline queue *)

Module QueueInv.
Import OfflineQueueService.

(** The messages held by the suspended calls of [syncQueue]. *)
Definition all_pass_refs (s : State) : list ref :=
  flat_map pass_refs (passes s).

Record Inv (s : State) : Prop := {
  inv_syncing :
    forall r, In r (all_pass_refs s) -> status (heap s r) = syncing;
  inv_nodup_passes : NoDup (all_pass_refs s);
  inv_alloc_passes : forall r, In r (all_pass_refs s) -> r < next s;
  inv_nodup_queue : NoDup (queue s);
  inv_alloc_queue : forall r, In r (queue s) -> r < next s;
  inv_fresh : forall r, next s <= r -> heap s r = blank;
  inv_retry_le : forall r, retryCount (heap s r) <= MAX_RETRIES;
  inv_failed :
    forall r, status (heap s r) = failed <->
              retryCount (heap s r) = MAX_RETRIES
}.

(** The number of queued messages in a given status. *)
Fixpoint count_status (s : State) (st : Status) (q : list ref) : nat :=
  match q with
  | [] => 0
  | r :: q' =>
      (if Status_eqb (status (heap s r)) st then 1 else 0)
      + count_status s st q'
  end.

(** The reentrancy guard of the specification: a call of [syncQueue] made
    while another one is suspended changes nothing. *)
Definition sync_is_guarded (s : State) : Prop :=
  passes s <> [] -> syncQueue s = s.

(** The specification of [status()]: the result is determined by the queue
    contents and the cached network flag. *)
Definition status_from_queue_only : Prop :=
  forall s1 s2 : State,
    queue s1 = queue s2 ->
    (forall r, heap s1 r = heap s2 r) ->
    isOnline s1 = isOnline s2 ->
    getSyncStatus s1 s1 = getSyncStatus s2 s2.
End QueueInv.

(** Runs of the queue used as test inputs. *)
Module QueueExamples.
Import OfflineQueueService.

Definition msgA : Message :=
  {| msg_id := "a"; msg_role := user; msg_content := "first";
     msg_timestamp := 10%Z |}.

Definition msgB : Message :=
  {| msg_id := "b"; msg_role := user; msg_content := "second";
     msg_timestamp := 11%Z |}.

Definition network_error : Thrown := ErrorObject "Network request failed".

(** Two messages are queued while offline; the network comes back and a
    pass starts on both; the delivery of the first is rejected and the pass
    goes on with the second. *)
Definition overlapping : list Event :=
  [ SetOfflineMode true;
    QueueMessage "s" msgA 10;
    QueueMessage "s" msgB 11;
    NetworkListener (Some true);
    SendSettled 0 (Some network_error) None ].

(** One message is queued online and its pass starts. *)
Definition one_queued : list Event :=
  [ QueueMessage "s" msgA 10; SyncQueue ].

(** Its delivery is rejected three times, each time by a new pass. *)
Definition three_rejections : list Event :=
  [ SendSettled 0 (Some network_error) (Some 20%Z); SyncQueue;
    SendSettled 0 (Some network_error) (Some 21%Z); SyncQueue;
    SendSettled 0 (Some network_error) (Some 22%Z) ].

(** Its delivery is rejected twice and the third pass is suspended. *)
Definition two_rejections : list Event :=
  [ SendSettled 0 (Some network_error) (Some 20%Z); SyncQueue;
    SendSettled 0 (Some network_error) (Some 21%Z); SyncQueue ].

(** The same, and then the third delivery succeeds. *)
Definition delivered_at_third : list Event :=
  one_queued ++ two_rejections ++ [ SendSettled 0 None (Some 22%Z) ].

Definition synced_at (d : Date) : State := with_stored_sync_status init d.
End QueueExamples.

(** ** More of the offline queue *)

Module QueueMore.
Import OfflineQueueService QueueInv.

(** [getQueuedMessages]: the queued messages of one session that are not
    failed, as the objects are at the call. *)
Definition getQueuedMessages (s : State) (sid : string) : list QueuedMessage :=
  map (heap s)
    (filter
       (fun q => String.eqb (sessionId (heap s q)) sid
                 && negb (Status_eqb (status (heap s q)) failed))
       (queue s)).

(** The object that [queueMessage] creates. *)
Definition new_message (sid : string) (m : Message) (now : Date)
  : QueuedMessage :=
  {| id := (sid ++ "_" ++ msg_id m ++ "_" ++ string_of_Z now)%string;
     sessionId := sid; message := m; timestamp := now;
     retryCount := 0; status := pending; error := None |}.

(** References are handed out in increasing order, so a list of references
    is in enqueue order when it is strictly increasing. *)
Definition enqueue_order (l : list ref) : Prop := StronglySorted lt l.

(** The message that a suspended pass is delivering. *)
Definition in_flight (s : State) (r : ref) : Prop :=
  In r (map current (passes s)).

(** The messages that suspended passes have still to send. *)
Definition waiting (s : State) (r : ref) : Prop :=
  In r (flat_map remaining (passes s)).

(** The number of calls of [sendMessage] on one message. *)
Definition attempts (s : State) (r : ref) : nat :=
  count_occ Nat.eq_dec (sends s) r.

Record OrderInv (s : State) : Prop := {
  ord_queue : enqueue_order (queue s);
  ord_passes : forall p, In p (passes s) -> enqueue_order (pass_refs p);
  ord_syncing :
    forall r, In r (queue s) -> status (heap s r) = syncing ->
              In r (all_pass_refs s);
  ord_sends : forall r, In r (sends s) -> r < next s
}.

(** The bookkeeping behind the bound on the number of attempts: a message
    has been sent at most once more than it has been rejected, and no more
    often than rejected while it waits for its next attempt. *)
Record AttemptInv (s : State) : Prop := {
  att_le : forall r, attempts s r <= S (retryCount (heap s r));
  att_waiting :
    forall r, status (heap s r) <> syncing \/ waiting s r ->
              attempts s r <= retryCount (heap s r)
}.
End QueueMore.

(** ** The offline queue after a restart

    [initialize] loads the queue that an earlier process stored.  Its two
    turns are added here to those of [OfflineQueueService.step]: the turn
    that follows [AsyncStorage.getItem(QUEUE_KEY)], which replaces
    [this.queue] by the objects parsed from the stored text, and the turn
    that follows [NetInfo.fetch()], which sets [isOnline].  The flag
    [initialized] is set at the very end only, so nothing keeps two calls
    of [initialize] from both loading; a lifetime may hold any number of
    loads. *)

Module QueueStart.
Import OfflineQueueService QueueInv.

(** The objects that [JSON.parse(storedQueue).map(...)] creates: one new
    object per stored item, at the references from [n] on. *)
Definition loaded_heap (h : ref -> QueuedMessage) (n : ref)
    (items : list QueuedMessage) : ref -> QueuedMessage :=
  fun r =>
    if (n <=? r) && (r <? n + length items) then nth (r - n) items blank
    else h r.

(** [initialize] after the stored queue is read.  A missing key leaves the
    queue as it is ([if (storedQueue)]); so does a failed read or a text
    that does not parse, which end [initialize] in its [catch]. *)
Definition loadQueue (s : State)
    (storedQueue : StoredItem (list QueuedMessage)) : State :=
  match storedQueue with
  | Item items =>
      {| heap := loaded_heap (heap s) (next s) items;
         next := next s + length items;
         queue := seq (next s) (length items);
         isOnline := isOnline s; passes := passes s; sends := sends s;
         stored_sync_status := stored_sync_status s |}
  | _ => s
  end.

(** [this.isOnline = netState.isConnected ?? false] *)
Definition netStateFetched (s : State) (isConnected : option bool) : State :=
  with_isOnline s match isConnected with
                  | Some b => b
                  | None => false
                  end.

Inductive Turn : Type :=
| Run (e : Event)
| QueueLoaded (storedQueue : StoredItem (list QueuedMessage))
| NetStateFetched (isConnected : option bool).

Definition turn (s : State) (t : Turn) : State :=
  match t with
  | Run e => step s e
  | QueueLoaded storedQueue => loadQueue s storedQueue
  | NetStateFetched isConnected => netStateFetched s isConnected
  end.

Definition lifetime (s : State) (ts : list Turn) : State :=
  fold_left turn ts s.

(** The messages that a turn loads with the status [syncing]: the process
    that stored them was in the middle of a pass. *)
Definition loaded_as_syncing (s : State) (t : Turn) : list ref :=
  match t with
  | QueueLoaded (Item _) =>
      filter (has_status (turn s t) syncing) (queue (turn s t))
  | _ => []
  end.

Fixpoint orphans (s : State) (ts : list Turn) : list ref :=
  match ts with
  | [] => []
  | t :: ts' => loaded_as_syncing s t ++ orphans (turn s t) ts'
  end.

Definition is_load (t : Turn) : bool :=
  match t with
  | QueueLoaded _ => true
  | _ => false
  end.

Record StartInv (s : State) (orph : list ref) : Prop := {
  si_alloc_passes : forall r, In r (all_pass_refs s) -> r < next s;
  si_alloc_queue : forall r, In r (queue s) -> r < next s;
  si_alloc_sends : forall r, In r (sends s) -> r < next s;
  si_syncing :
    forall r, In r (queue s) -> status (heap s r) = syncing ->
              In r (all_pass_refs s) \/ In r orph;
  si_orphans :
    forall r, In r orph ->
              status (heap s r) = syncing /\ ~ In r (all_pass_refs s) /\
              ~ In r (sends s) /\ r < next s
}.

(** A message that the stored queue holds as [syncing], and a lifetime that
    starts by loading it: the network is up, a sync and a user retry are
    asked for, a second message is queued, synced and delivered. *)
Definition stale : QueuedMessage :=
  {| id := "s_a_10"; sessionId := "s"; message := QueueExamples.msgA;
     timestamp := 10%Z; retryCount := 0; status := syncing; error := None |}.

Definition restart : list Turn :=
  [ QueueLoaded (Item [stale]);
    NetStateFetched (Some true);
    Run SyncQueue;
    Run RetryFailed;
    Run (QueueMessage "s" QueueExamples.msgB 11);
    Run SyncQueue;
    Run (SendSettled 0 None (Some 20%Z)) ].
End QueueStart.

(** ** Properties and test inputs of the vector database *)

Module VectorSpec.
Import VectorDatabase.


Definition search_never_raises : Prop :=
  forall createEmbedding st query limit,
    snd (search createEmbedding st query limit) <> Rejected.

Definition queries_leave_maps_unchanged : Prop :=
  forall createEmbedding st text exclude limit,
    documents (fst (search createEmbedding st text limit)) = documents st /\
    embeddingCache (fst (search createEmbedding st text limit))
      = embeddingCache st /\
    documents (fst (findSimilar createEmbedding st text exclude limit))
      = documents st /\
    embeddingCache (fst (findSimilar createEmbedding st text exclude limit))
      = embeddingCache st.

Definition cache_bounded_after_save : Prop :=
  forall setItem_ok st,
    JsMap.wf (embeddingCache st) ->
    JsMap.size (embeddingCache (saveToStorage setItem_ok st)) <= 1000.

(** A decision procedure for [NoDup] on keys. *)
Fixpoint distinct (l : list string) : bool :=
  match l with
  | [] => true
  | k :: l' => negb (existsb (String.eqb k) l') && distinct l'
  end.
End VectorSpec.

Module VectorExamples.
Import VectorDatabase.

Definition fresh : State :=
  {| documents := []; embeddingCache := []; initialized := false;
     stored_vector_db := NoItem; stored_embedding_cache := NoItem;
     openAIInstance := true; embedCalls := 0; writes := 0 |}.

Definition doc_old : VectorDocument :=
  {| doc_id := "s_1"; doc_sessionId := "s"; doc_messageId := "1";
     doc_content := "hello"; doc_embedding := [1%R];
     doc_timestamp := 100; doc_role := user; doc_sessionTitle := "Chat" |}.

Definition doc_new : VectorDocument :=
  {| doc_id := "s_2"; doc_sessionId := "s"; doc_messageId := "2";
     doc_content := "hello again"; doc_embedding := [1%R];
     doc_timestamp := 200; doc_role := assistant;
     doc_sessionTitle := "Chat" |}.

(** Two documents with the same embedding, the older one indexed first. *)
Definition two_docs : State :=
  {| documents := [("s_1", doc_old); ("s_2", doc_new)]%string;
     embeddingCache := []; initialized := true;
     stored_vector_db := NoItem; stored_embedding_cache := NoItem;
     openAIInstance := true; embedCalls := 0; writes := 0 |}.

(** One document loaded, no API key set: [openAIInstance] is [null]. *)
Definition keyless : State :=
  {| documents := [("s_1", doc_old)]%string;
     embeddingCache := []; initialized := true;
     stored_vector_db := NoItem; stored_embedding_cache := NoItem;
     openAIInstance := false; embedCalls := 0; writes := 0 |}.

(** A process that has just started: nothing in memory, one document in
    the stored snapshot. *)
Definition cold : State :=
  {| documents := []; embeddingCache := []; initialized := false;
     stored_vector_db := Item [("s_1", doc_old)]%string;
     stored_embedding_cache := NoItem;
     openAIInstance := true; embedCalls := 0; writes := 0 |}.

(** A cache of 1001 texts, in insertion order. *)
Definition many_texts : JsMap.t (list number) :=
  map (fun n => (string_of_Z (Z.of_nat n), [])) (seq 0 1001).

Definition crowded : State :=
  {| documents := []; embeddingCache := many_texts; initialized := true;
     stored_vector_db := NoItem; stored_embedding_cache := NoItem;
     openAIInstance := true; embedCalls := 0; writes := 0 |}.

Definition unit_provider : nat -> string -> option (list number) :=
  fun _ _ => Some [1%R].

Definition chat : Session :=
  {| session_id := "s"; session_title := "Chat";
     session_messages :=
       [ {| msg_id := "1"; msg_role := user; msg_content := "hello";
            msg_timestamp := 100 |};
         {| msg_id := "2"; msg_role := assistant;
            msg_content := "hello again"; msg_timestamp := 200 |} ] |}.
End VectorExamples.

(** ** More of the vector database *)

Module VectorMore.
Import VectorDatabase.

(** [clear]: both maps are emptied first; then the two keys are removed, one
    [await] after the other, outside any [try].  [removed1] and [removed2]
    tell whether each [AsyncStorage.removeItem] resolves. *)
Definition clear (st : State) (removed1 removed2 : bool)
  : State * Result unit :=
  let st1 :=
    {| documents := []; embeddingCache := [];
       initialized := initialized st;
       stored_vector_db := stored_vector_db st;
       stored_embedding_cache := stored_embedding_cache st;
       openAIInstance := openAIInstance st;
       embedCalls := embedCalls st; writes := writes st |} in
  if removed1 then
    let st2 :=
      {| documents := []; embeddingCache := [];
         initialized := initialized st;
         stored_vector_db := NoItem;
         stored_embedding_cache := stored_embedding_cache st;
         openAIInstance := openAIInstance st;
         embedCalls := embedCalls st; writes := writes st |} in
    if removed2 then
      ({| documents := []; embeddingCache := [];
          initialized := initialized st;
          stored_vector_db := NoItem;
          stored_embedding_cache := NoItem;
          openAIInstance := openAIInstance st;
          embedCalls := embedCalls st; writes := writes st |},
       Resolved tt)
    else (st2, Rejected)
  else (st1, Rejected).

Section Oracles.
Variable setItem_ok : nat -> bool.

(** [removeSession]: the keys of the documents of the session are collected
    in a first loop and deleted in a second. *)
Definition removeSession (st : State) (sessionId : string) : State :=
  let st0 := initialize st in
  let keysToRemove :=
    map fst
      (filter (fun kv => String.eqb (doc_sessionId (snd kv)) sessionId)
         (JsMap.entries (documents st0))) in
  saveToStorage setItem_ok
    (with_documents st0
       (fold_left (fun m key => JsMap.delete m key) keysToRemove
          (documents st0))).
End Oracles.

Section Suggestions.
(** The string methods that [getSuggestions] relies on: [s.toLowerCase()],
    [s.split(/\s+/)], and the UTF-16 code units of [s], which are what
    [s.length] counts and what [startsWith] compares. *)
Variable toLowerCase : string -> string.
Variable split_whitespace : string -> list string.
Variable code_units : string -> list nat.

(** [s.length] *)
Definition js_length (s : string) : nat := length (code_units s).

Fixpoint is_prefix (p l : list nat) : bool :=
  match p, l with
  | [], _ => true
  | x :: p', y :: l' => Nat.eqb x y && is_prefix p' l'
  | _ :: _, [] => false
  end.

(** [word.startsWith(query)] *)
Definition startsWith (word query : string) : bool :=
  is_prefix (code_units query) (code_units word).

(** [Set.prototype.add] on an insertion-ordered set. *)
Definition set_add (x : string) (set : list string) : list string :=
  if existsb (String.eqb x) set then set else set ++ [x].

(** The inner loop: the [break] is taken right after an [add] that brings
    the size up to [limit]. *)
Fixpoint scan_words (lowerQuery : string) (limit : Z) (words : list string)
    (suggestions : list string) : list string :=
  match words with
  | [] => suggestions
  | word :: words' =>
      if startsWith word lowerQuery && (3 <? js_length word) then
        let suggestions' := set_add word suggestions in
        if (limit <=? Z.of_nat (length suggestions'))%Z then suggestions'
        else scan_words lowerQuery limit words' suggestions'
      else scan_words lowerQuery limit words' suggestions
  end.

(** The outer loop: its [break] is tested after every document. *)
Fixpoint scan_docs (lowerQuery : string) (limit : Z)
    (docs : list VectorDocument) (suggestions : list string) : list string :=
  match docs with
  | [] => suggestions
  | doc :: docs' =>
      let suggestions' :=
        scan_words lowerQuery limit
          (split_whitespace (toLowerCase (doc_content doc))) suggestions in
      if (limit <=? Z.of_nat (length suggestions'))%Z then suggestions'
      else scan_docs lowerQuery limit docs' suggestions'
  end.

(** [!partialQuery] holds of the empty string. *)
Definition getSuggestions (st : State) (partialQuery : string)
    (limit : option Z) : State * list string :=
  let st0 := initialize st in
  if String.eqb partialQuery "" || (js_length partialQuery <? 2)
  then (st0, [])
  else
    (st0,
     scan_docs (toLowerCase partialQuery) (default_limit limit 5)
       (JsMap.values (documents st0)) []).
End Suggestions.

(** A provider that never throws. *)
Definition never_fails (createEmbedding : nat -> string -> option (list number))
  : Prop :=
  forall n text, createEmbedding n text <> None.

Definition texts_of (session : Session) : list string :=
  map msg_content (session_messages session).

(** The Cyrillic letter sha: the two bytes [D1 88] in UTF-8, the single
    UTF-16 code unit [0x0448]. *)
Definition sha : string :=
  String (Ascii.ascii_of_nat 209) (String (Ascii.ascii_of_nat 136) "").

(** The code units of the texts used as test inputs: one unit per byte for
    ASCII text. *)
Definition example_units (s : string) : list nat :=
  if String.eqb s sha then [1096]
  else map Ascii.nat_of_ascii (list_ascii_of_string s).
End VectorMore.

(** ** The embedding provider (utils/openai.ts, [OpenAIService]) *)

Module OpenAIService.
Section Embedding.
(** [text.toLowerCase().split(/\s+/)], every word given by its UTF-16 code
    units (what [charCodeAt] reads). *)
Variable words_of : string -> list (list nat).

(** The inner loop over [j], for the component [i]. *)
Fixpoint sum_words (i j : nat) (words : list (list nat)) (value : R) : R :=
  match words with
  | [] => value
  | word :: words' =>
      let value' :=
        if 0 <? length word then
          let charCode := nth (j mod length word) word 0 in
          (value + sin (INR charCode * INR (i + 1)) * (1 / 10))%R
        else value in
      sum_words i (S j) words' value'
  end.

(** [createEmbedding]: the deterministic 256-dimensional mock. *)
Definition createEmbedding (text : string) : list number :=
  map (fun i => tanh (sum_words i 0 (words_of text) 0)) (seq 0 256).


(** A text without a character that is not white space: every word of the
    split is empty. *)
Definition blank (text : string) : Prop :=
  forall word, In word (words_of text) -> word = [].
End Embedding.
End OpenAIService.

(** ** The session store (utils/storage.ts, [StorageService]) *)

Module StorageService.

(** The AsyncStorage key [ai_chat_sessions]. *)
Definition Store := StoredItem (list Session).

(** [getSessions]: the parsed array, or [[]] when there is none or when the
    read or the parse throws. *)
Definition getSessions (store : Store) : list Session :=
  match store with
  | Item sessions => sessions
  | _ => []
  end.

(** [sessions.findIndex(s => s.id === id)] *)
Fixpoint findIndex (id : string) (sessions : list Session) : option nat :=
  match sessions with
  | [] => None
  | s :: sessions' =>
      if String.eqb (session_id s) id then Some 0
      else option_map S (findIndex id sessions')
  end.

(** [sessions[i] = session], for an index inside the array. *)
Fixpoint assign (i : nat) (session : Session) (sessions : list Session)
  : list Session :=
  match sessions, i with
  | [], _ => []
  | _ :: sessions', 0 => session :: sessions'
  | s :: sessions', S i' => s :: assign i' session sessions'
  end.

(** [saveSession]: the session replaces the stored one with its id, or goes
    to the front; a failed write is logged and swallowed. *)
Definition saveSession (store : Store) (session : Session) (written : bool)
  : Store :=
  let sessions := getSessions store in
  let sessions' :=
    match findIndex (session_id session) sessions with
    | Some existingIndex => assign existingIndex session sessions
    | None => session :: sessions
    end in
  if written then Item sessions' else store.

Definition deleteSession (store : Store) (sessionId : string) (written : bool)
  : Store :=
  let filtered :=
    filter (fun s => negb (String.eqb (session_id s) sessionId))
      (getSessions store) in
  if written then Item filtered else store.

(** [sessions.find(s => s.id === id)] *)
Definition lookup (id : string) (sessions : list Session) : option Session :=
  find (fun s => String.eqb (session_id s) id) sessions.
End StorageService.

(** ** Loading at start-up (the drawer's [loadSessions]) *)

Module Loading.
Import VectorDatabase.

Section Oracles.
Variable createEmbedding : nat -> string -> option (list number).
Variable setItem_ok : nat -> bool.

(** [for (const session of loadedSessions) await indexSession(session)]: a
    rejection ends the loop. *)
Fixpoint index_each (sessions : list Session) (st : State)
  : State * Result unit :=
  match sessions with
  | [] => (st, Resolved tt)
  | session :: sessions' =>
      match indexSession createEmbedding setItem_ok st session with
      | (st', Resolved _) => index_each sessions' st'
      | (st', Rejected) => (st', Rejected)
      end
  end.

(** The part of [loadSessions] that follows [setSessions]: the database is
    initialised and every loaded session is indexed. *)
Definition loadSessions (store : StorageService.Store) (st : State)
  : State * Result unit :=
  let loadedSessions := StorageService.getSessions store in
  index_each loadedSessions (initialize st).

Definition all_docIds (sessions : list Session) : list string :=
  flat_map (fun s => map (docId_of s) (session_messages s)) sessions.
End Oracles.
End Loading.

(* ================================================================== *)
(** * Theorems *)

(** ** Cosine similarity over the reals

    The formula of the specification in exact arithmetic.  It is symmetric,
    it stays within [[-1, 1]] and it is [1] on two equal vectors of non-zero
    norm; the rounded evaluation of the code, further down, keeps only the
    first of these. *)

Lemma cosine_step_shift x a y b n : forall k acc,
  fold_left (cosine_step (x :: a) (y :: b)) (seq (S k) n) acc =
  fold_left (cosine_step a b) (seq k n) acc.
Proof.
  induction n as [|n IH]; intros k acc; [reflexivity|].
  cbn [seq fold_left]. rewrite IH. reflexivity.
Qed.

Lemma cosine_fold_spec : forall a b d n1 n2,
  length a = length b ->
  fold_left (cosine_step a b) (seq 0 (length a)) (d, n1, n2) =
  ((d + dot a b)%R, (n1 + dot a a)%R, (n2 + dot b b)%R).
Proof.
  induction a as [|x a IH]; intros [|y b] d n1 n2 Hlen; try discriminate.
  - cbn. f_equal; [f_equal|]; lra.
  - cbn [length seq fold_left]. rewrite cosine_step_shift.
    cbn [cosine_step nth]. rewrite IH by (cbn in Hlen; lia).
    cbn [dot]. f_equal; [f_equal|]; lra.
Qed.

Lemma cosine_loop_spec a b :
  length a = length b -> cosine_loop a b = (dot a b, dot a a, dot b b).
Proof.
  intros H. unfold cosine_loop. rewrite cosine_fold_spec by assumption.
  f_equal; [f_equal|]; lra.
Qed.

Lemma dot_self_nonneg a : (0 <= dot a a)%R.
Proof. induction a as [|x a IH]; cbn; [lra|nra]. Qed.

Lemma dot_comm : forall a b, dot a b = dot b a.
Proof.
  induction a as [|x a IH]; intros [|y b]; cbn; try reflexivity.
  rewrite IH. lra.
Qed.

(** Cauchy-Schwarz, by induction on the vectors (Lagrange's identity). *)
Lemma cauchy_schwarz : forall a b,
  (dot a b * dot a b <= dot a a * dot b b)%R.
Proof.
  induction a as [|x a IH]; intros [|y b]; cbn; try lra.
  - pose proof (dot_self_nonneg a) as Ha.
    pose proof (dot_self_nonneg b) as Hb.
    specialize (IH b).
    set (A := dot a a) in *. set (B := dot b b) in *. set (D := dot a b) in *.
    clearbody A B D.
    assert (Hmix : (2 * (D * (x * y)) <= A * (y * y) + B * (x * x))%R).
    { destruct (Req_dec_T A 0) as [HA|HA].
      - assert (HD : (D = 0)%R) by nra. rewrite HD, HA. nra.
      - assert (0 < A)%R by lra.
        assert (0 <= A * (A * (y * y) + B * (x * x) - 2 * (D * (x * y))))%R.
        { replace (A * (A * (y * y) + B * (x * x) - 2 * (D * (x * y))))%R
            with ((A * y - D * x) * (A * y - D * x)
                  + (A * B - D * D) * (x * x))%R by ring.
          assert (0 <= (A * y - D * x) * (A * y - D * x))%R
            by apply (Rle_0_sqr (A * y - D * x)).
          assert (0 <= (A * B - D * D) * (x * x))%R
            by (apply Rmult_le_pos; nra).
          lra. }
        nra. }
    nra.
Qed.

Lemma cosine_eq a b :
  length a = length b ->
  cosineSimilarity a b =
  if Req_dec_T (norm a * norm b) 0 then 0%R
  else (dot a b / (norm a * norm b))%R.
Proof.
  intros H. unfold cosineSimilarity.
  rewrite H, Nat.eqb_refl. cbn [negb].
  rewrite cosine_loop_spec by assumption. reflexivity.
Qed.

Lemma cosine_mismatch a b :
  length a <> length b -> cosineSimilarity a b = 0%R.
Proof.
  intros H. unfold cosineSimilarity.
  apply Nat.eqb_neq in H. rewrite H. reflexivity.
Qed.

Lemma cosine_symmetric (a b : list number) :
  cosineSimilarity a b = cosineSimilarity b a.
Proof.
  destruct (Nat.eq_dec (length a) (length b)) as [Hlen|Hlen].
  - rewrite (@cosine_eq _ _ Hlen), (@cosine_eq _ _ (eq_sym Hlen)).
    rewrite (dot_comm b a), (Rmult_comm (norm b) (norm a)). reflexivity.
  - rewrite (@cosine_mismatch _ _ Hlen).
    rewrite (@cosine_mismatch _ _ (not_eq_sym Hlen)). reflexivity.
Qed.

Lemma cosine_range (a b : list number) :
  (-1 <= cosineSimilarity a b <= 1)%R.
Proof.
  destruct (Nat.eq_dec (length a) (length b)) as [Hlen|Hlen].
  2:{ rewrite (@cosine_mismatch _ _ Hlen). lra. }
  rewrite (@cosine_eq _ _ Hlen).
  destruct (Req_dec_T (norm a * norm b) 0) as [_|Hne]; [lra|].
  pose proof (sqrt_pos (dot a a)) as Hpa.
  pose proof (sqrt_pos (dot b b)) as Hpb.
  fold (norm a) in Hpa. fold (norm b) in Hpb.
  assert (Hpos : (0 < norm a * norm b)%R) by nra.
  assert (Habs : (Rabs (dot a b) <= norm a * norm b)%R).
  { unfold norm. rewrite <- sqrt_mult by apply dot_self_nonneg.
    rewrite <- sqrt_Rsqr_abs. apply sqrt_le_1.
    - apply Rle_0_sqr.
    - apply Rmult_le_pos; apply dot_self_nonneg.
    - unfold Rsqr. apply cauchy_schwarz. }
  unfold Rabs in Habs. destruct (Rcase_abs (dot a b)) as [Hneg|Hnn].
  all: set (den := (norm a * norm b)%R) in *; clearbody den.
  all: set (d := dot a b) in *; clearbody d.
  all: split; apply Rmult_le_reg_r with den; try assumption.
  all: unfold Rdiv; rewrite Rmult_assoc, Rinv_l by assumption; lra.
Qed.


(** ** Doubles *)

Section DoubleFacts.
Import Floats DoubleOrder.
Local Open Scope Z_scope.

(** *** Multiplication commutes *)

Lemma SFmul_comm x y : SFmul prec emax x y = SFmul prec emax y x.
Proof.
  destruct x as [sx|sx| |sx mx ex], y as [sy|sy| |sy my ey]; cbn;
    try reflexivity; try (now rewrite xorb_comm).
  now rewrite xorb_comm, Pos.mul_comm, Z.add_comm.
Qed.

Lemma double_mul_comm x y : (x * y)%float = (y * x)%float.
Proof. apply Prim2SF_inj. rewrite !mul_spec. apply SFmul_comm. Qed.

(** *** The order of doubles *)








(** *** The sign of a difference *)











Lemma shl_align_snd m e e' : e' <= e -> snd (shl_align m e e') = e'.
Proof.
  intros H. unfold shl_align.
  destruct (e' - e) as [|d|d] eqn:E; cbn [snd]; lia.
Qed.







(** *** From the specification of doubles to the primitive operations *)












Lemma double_eqb_refl x : is_nan x = false -> (x =? x)%float = true.
Proof. unfold is_nan. now destruct (x =? x)%float. Qed.

Lemma Prim2SF_zero : Prim2SF 0%float = S754_zero false.
Proof. reflexivity. Qed.

Lemma Prim2SF_infinity : Prim2SF infinity = S754_infinity false.
Proof. reflexivity. Qed.

(** A zero times a finite double is a zero. *)
Lemma double_mul_zero x y :
  (x =? 0)%float = true -> is_finite y = true -> (x * y =? 0)%float = true.
Proof.
  unfold is_finite, is_infinity, is_nan.
  rewrite !eqb_spec, mul_spec, abs_spec, Prim2SF_zero, Prim2SF_infinity.
  destruct (Prim2SF x) as [sx|sx| |sx mx ex]; try discriminate;
    try (destruct sx; discriminate).
  intros _.
  destruct (Prim2SF y) as [sy|[|]| |sy my ey]; cbn; intros H;
    try discriminate H; reflexivity.
Qed.
End DoubleFacts.

(** ** Cosine similarity on doubles *)

Section CosineDouble.
Import Floats Binary64 DoubleOrder.
Local Open Scope float_scope.

Lemma cosine64_step_shift x a y b n : forall k acc,
  fold_left (cosine_step (x :: a) (y :: b)) (seq (S k) n) acc =
  fold_left (cosine_step a b) (seq k n) acc.
Proof.
  induction n as [|n IH]; intros k acc; [reflexivity|].
  cbn [seq fold_left]. rewrite IH. reflexivity.
Qed.

(** The index loop computes the three running sums of the formula. *)
Lemma cosine64_fold : forall a b d n1 n2,
  length a = length b ->
  fold_left (cosine_step a b) (seq 0 (length a)) (d, n1, n2) =
  (fold_left (fun sum xy => sum + fst xy * snd xy) (combine a b) d,
   fold_left (fun sum xy => sum + fst xy * snd xy) (combine a a) n1,
   fold_left (fun sum xy => sum + fst xy * snd xy) (combine b b) n2).
Proof.
  induction a as [|x a IH]; intros [|y b] d n1 n2 Hlen; try discriminate.
  - reflexivity.
  - cbn [length seq fold_left combine]. rewrite cosine64_step_shift.
    cbn [cosine_step at_index nth fst snd].
    apply IH. cbn in Hlen. lia.
Qed.

Lemma cosine64_loop a b :
  length a = length b -> cosine_loop a b = (dot a b, dot a a, dot b b).
Proof. intros H. unfold cosine_loop. now rewrite cosine64_fold. Qed.

Lemma cosine64_eq a b :
  length a = length b ->
  cosineSimilarity a b =
  if norm a * norm b =? 0 then 0 else dot a b / (norm a * norm b).
Proof.
  intros H. unfold cosineSimilarity.
  rewrite H, Nat.eqb_refl. cbn [negb].
  rewrite cosine64_loop by assumption. reflexivity.
Qed.

Lemma cosine64_mismatch a b :
  length a <> length b -> cosineSimilarity a b = 0.
Proof.
  intros H. unfold cosineSimilarity.
  apply Nat.eqb_neq in H. rewrite H. reflexivity.
Qed.

(** C4, amended.  On doubles [cosineSimilarity] returns [0] when the
    lengths differ; when they agree it returns [0] if the denominator
    [|a| * |b|] is zero and the quotient [dot(a,b) / (|a| * |b|)] otherwise,
    where the dot product, the norms, the product and the quotient are the
    rounded ones.  The denominator is zero when one norm is zero and the
    other one is finite. *)
Theorem cosineSimilarity_spec (a b : list number) :
  (length a <> length b -> cosineSimilarity a b = 0) /\
  (length a = length b ->
   cosineSimilarity a b =
   if norm a * norm b =? 0 then 0 else dot a b / (norm a * norm b)) /\
  (length a = length b ->
   (norm a =? 0) = true /\ is_finite (norm b) = true \/
   is_finite (norm a) = true /\ (norm b =? 0) = true ->
   cosineSimilarity a b = 0).
Proof.
  split; [apply cosine64_mismatch|]. split; [apply cosine64_eq|].
  intros Hlen Hz. rewrite cosine64_eq by assumption.
  assert (E : (norm a * norm b =? 0) = true).
  { destruct Hz as [[Ha Hb]|[Ha Hb]].
    - now apply double_mul_zero.
    - rewrite double_mul_comm. now apply double_mul_zero. }
  now rewrite E.
Qed.

(** The three cases of C4 at concrete vectors. *)
Lemma cosineSimilarity_spec_witness :
  cosineSimilarity [1; 0] [1; 0; 0] = 0 /\
  cosineSimilarity [0; 0; 0] [1; 0; 0] = 0 /\
  cosineSimilarity [1; 1; 0] [1; 0; 0] = 1 / (sqrt 2 * 1).
Proof.
  split; [|split].
  - apply (proj1 (cosineSimilarity_spec [1; 0] [1; 0; 0])).
    cbn. discriminate.
  - apply (proj2 (proj2 (cosineSimilarity_spec [0; 0; 0] [1; 0; 0]))).
    + reflexivity.
    + left. split; reflexivity.
  - rewrite (proj1 (proj2 (cosineSimilarity_spec [1; 1; 0] [1; 0; 0])))
      by reflexivity.
    reflexivity.
Defined.

(** C4 as the specification states it fails.  The norm of the zero vector
    [[0]] is [0], and the sum of squares of [[2 ** 600]] overflows to
    infinity: the denominator is [0 * Infinity], which is NaN and not
    [=== 0], and the function returns [0 / NaN], which is NaN and not [0].
    (In the other direction, the squares of [[2 ** -600]] underflow to
    [0]: this vector has similarity [0] with itself.) *)
Lemma cosineSimilarity_nan_for_zero_vector :
  (norm [0] =? 0) = true /\
  cosineSimilarity [0] [0x1p+600] = nan /\
  cosineSimilarity [0x1p-600] [0x1p-600] = 0 /\
  ~ zero_when_a_norm_is_zero.
Proof.
  split; [reflexivity|]. split; [reflexivity|]. split; [reflexivity|].
  intros H. specialize (H [0] [0x1p+600] eq_refl (or_introl eq_refl)).
  apply (f_equal is_nan) in H. vm_compute in H. discriminate H.
Qed.

Lemma cosine64_fold_swap a b l : forall acc,
  fold_left (cosine_step b a) l (swap acc) =
  swap (fold_left (cosine_step a b) l acc).
Proof.
  induction l as [|i l IH]; intros [[d n1] n2]; [reflexivity|].
  cbn [fold_left]. rewrite <- IH. f_equal.
  cbn [cosine_step swap]. now rewrite (double_mul_comm (at_index b i)).
Qed.

Lemma cosine64_symmetric (a b : list number) :
  cosineSimilarity a b = cosineSimilarity b a.
Proof.
  unfold cosineSimilarity. rewrite (Nat.eqb_sym (length b)).
  destruct (Nat.eqb_spec (length a) (length b)) as [Hlen|Hlen];
    [|reflexivity].
  cbn [negb].
  assert (E : cosine_loop b a = swap (cosine_loop a b)).
  { unfold cosine_loop. rewrite <- Hlen.
    apply (cosine64_fold_swap a b _ (0, 0, 0)). }
  rewrite E. destruct (cosine_loop a b) as [[d n1] n2]. cbn [swap].
  now rewrite (double_mul_comm (sqrt n2)).
Qed.

(** C8, amended.  On doubles the two calls return the same number, so
    [===] holds between them unless that number is NaN.  The interval
    [[-1, 1]] of the specification is not kept by the rounded value. *)
Theorem cosineSimilarity_symmetric (a b : list number) :
  cosineSimilarity a b = cosineSimilarity b a /\
  (is_nan (cosineSimilarity a b) = false ->
   (cosineSimilarity a b =? cosineSimilarity b a) = true).
Proof.
  split; [apply cosine64_symmetric|].
  intros H. rewrite (cosine64_symmetric b a). now apply double_eqb_refl.
Qed.

Lemma cosineSimilarity_symmetric_witness :
  (cosineSimilarity [1; 2] [3; 4] =? cosineSimilarity [3; 4] [1; 2]) = true.
Proof.
  apply (proj2 (cosineSimilarity_symmetric [1; 2] [3; 4])). reflexivity.
Defined.

(** C8 as the specification states it fails: the similarity of
    [[1, 1, 1]] with itself is [3 / (Math.sqrt(3) * Math.sqrt(3))], and the
    product rounds to [2.9999999999999996]; the quotient is
    [1.0000000000000002], above [1]. *)
Lemma cosineSimilarity_exceeds_one :
  sqrt 3 * sqrt 3 = 0x1.7ffffffffffffp+1 /\
  cosineSimilarity [1; 1; 1] [1; 1; 1] = 0x1.0000000000001p+0 /\
  (1 <? cosineSimilarity [1; 1; 1] [1; 1; 1]) = true /\
  ~ within_unit_interval.
Proof.
  split; [reflexivity|]. split; [reflexivity|]. split; [reflexivity|].
  intros H.
  destruct (H [1; 1; 1] [1; 1; 1] eq_refl ltac:(discriminate)) as [_ H1].
  vm_compute in H1. discriminate H1.
Qed.
End CosineDouble.

(** ** The offline queue *)

Section QueueFacts.
Import OfflineQueueService QueueInv.

Lemma Status_eqb_eq a b : Status_eqb a b = true <-> a = b.
Proof. destruct a, b; cbn; split; congruence. Qed.

Lemma has_status_true s st r :
  has_status s st r = true <-> status (heap s r) = st.
Proof. apply Status_eqb_eq. Qed.

Lemma mem_In r rs : mem r rs = true <-> In r rs.
Proof.
  unfold mem. rewrite existsb_exists. split.
  - intros (x & Hin & Heq). apply Nat.eqb_eq in Heq. now subst.
  - intros Hin. exists r. split; [assumption|apply Nat.eqb_refl].
Qed.

Lemma mem_false r rs : ~ In r rs -> mem r rs = false.
Proof.
  intros H. destruct (mem r rs) eqn:E; [|reflexivity].
  apply mem_In in E. contradiction.
Qed.

Lemma forEach_in rs f h r : In r rs -> forEach rs f h r = f (h r).
Proof. intros H. unfold forEach. apply mem_In in H. now rewrite H. Qed.

Lemma forEach_out rs f h r : ~ In r rs -> forEach rs f h r = h r.
Proof. intros H. unfold forEach. now rewrite mem_false. Qed.

Lemma update_eq h r q : update h r q r = q.
Proof. unfold update. now rewrite Nat.eqb_refl. Qed.

Lemma update_neq h r q r' : r' <> r -> update h r q r' = h r'.
Proof. intros H. unfold update. apply Nat.eqb_neq in H. now rewrite H. Qed.

Lemma replace_nth_app (A : Type) (l1 l2 : list A) x y :
  replace_nth (length l1) y (l1 ++ x :: l2) = l1 ++ y :: l2.
Proof. induction l1 as [|a l1 IH]; cbn; [reflexivity|now rewrite IH]. Qed.

Lemma remove_nth_app (A : Type) (l1 l2 : list A) x :
  remove_nth (length l1) (l1 ++ x :: l2) = l1 ++ l2.
Proof. induction l1 as [|a l1 IH]; cbn; [reflexivity|now rewrite IH]. Qed.

Lemma Inv_init : Inv init.
Proof.
  constructor; cbn; intros; try contradiction; try constructor;
    try reflexivity; try (unfold MAX_RETRIES; lia); try discriminate.
Qed.

(** *** [syncQueue] *)

(** What a call of [syncQueue] does: either nothing, or one new suspended
    pass over exactly the messages that were pending. *)
Lemma syncQueue_cases s :
  let pendingMessages := filter (has_status s pending) (queue s) in
  (syncQueue s = s /\ (isOnline s = false \/ pendingMessages = [])) \/
  (isOnline s = true /\
   exists first rest, pendingMessages = first :: rest /\
     syncQueue s =
     with_send
       (with_passes
          (with_heap s
             (forEach pendingMessages (fun msg => set_status msg syncing)
                (heap s)))
          (passes s ++ [{| current := first; remaining := rest |}]))
       first).
Proof.
  intros pendingMessages. unfold syncQueue. fold pendingMessages.
  destruct (isOnline s); cbn [negb]; [|left; auto].
  destruct pendingMessages as [|first rest] eqn:E; [left; auto|].
  right. split; [reflexivity|]. exists first, rest. split; reflexivity.
Qed.

Lemma Inv_syncQueue s : Inv s -> Inv (syncQueue s).
Proof.
  intros I. destruct (syncQueue_cases s) as [[-> _]|(_ & f & rest & E & ->)];
    [assumption|].
  set (pm := filter (has_status s pending) (queue s)) in *.
  assert (Hpm : forall r, In r pm <->
                          In r (queue s) /\ status (heap s r) = pending).
  { intros r. unfold pm. rewrite filter_In, has_status_true. tauto. }
  assert (Hrefs : all_pass_refs
                    (with_send
                       (with_passes
                          (with_heap s
                             (forEach pm (fun msg => set_status msg syncing)
                                (heap s)))
                          (passes s ++ [{| current := f; remaining := rest |}]))
                       f) = all_pass_refs s ++ pm).
  { unfold all_pass_refs. cbn. rewrite flat_map_app. cbn.
    unfold pass_refs at 2. cbn. rewrite app_nil_r, E. reflexivity. }
  assert (Hdisj : forall r, In r (all_pass_refs s) -> ~ In r pm).
  { intros r Hr Hp. apply Hpm in Hp. apply (inv_syncing I) in Hr.
    destruct Hp as [_ Hp]. congruence. }
  constructor; rewrite ?Hrefs; cbn.
  - intros r Hr. apply in_app_or in Hr. destruct Hr as [Hr|Hr].
    + rewrite forEach_out by auto. now apply (inv_syncing I).
    + rewrite forEach_in by assumption. reflexivity.
  - apply NoDup_app; [apply (inv_nodup_passes I)| |exact Hdisj].
    unfold pm. apply NoDup_filter, (inv_nodup_queue I).
  - intros r Hr. apply in_app_or in Hr. destruct Hr as [Hr|Hr].
    + now apply (inv_alloc_passes I).
    + apply (inv_alloc_queue I). now apply Hpm.
  - apply (inv_nodup_queue I).
  - apply (inv_alloc_queue I).
  - intros r Hr. rewrite forEach_out; [now apply (inv_fresh I)|].
    intros Hp. apply Hpm in Hp. destruct Hp as [Hq _].
    apply (inv_alloc_queue I) in Hq. lia.
  - intros r. unfold forEach. destruct (mem r pm); cbn; apply (inv_retry_le I).
  - intros r. destruct (in_dec Nat.eq_dec r pm) as [Hp|Hp].
    + rewrite forEach_in by assumption. cbn.
      apply Hpm in Hp. destruct Hp as [_ Hp].
      pose proof (inv_failed I r) as Hf. rewrite Hp in Hf.
      split; [discriminate|]. intros H. apply Hf in H. discriminate.
    + rewrite forEach_out by assumption. apply (inv_failed I).
Qed.

(** *** [sendSettled] *)

Lemma sendSettled_none s p o w :
  nth_error (passes s) p = None -> sendSettled s p o w = s.
Proof. intros H. unfold sendSettled. now rewrite H. Qed.

(** The effect of a settled delivery, field by field. *)
Lemma sendSettled_shape s p pass o w :
  nth_error (passes s) p = Some pass ->
  let s' := sendSettled s p o w in
  exists l1 l2,
    passes s = l1 ++ pass :: l2 /\
    all_pass_refs s' =
      flat_map pass_refs l1 ++ remaining pass ++ flat_map pass_refs l2 /\
    heap s' = match o with
              | None => heap s
              | Some e => update (heap s) (current pass)
                            (on_failure (heap s (current pass)) e)
              end /\
    queue s' = match o with
               | None =>
                   filter (fun q => negb (String.eqb (id (heap s q))
                                            (id (heap s (current pass)))))
                     (queue s)
               | Some _ => queue s
               end /\
    next s' = next s /\ isOnline s' = isOnline s.
Proof.
  intros Hp s'. destruct (nth_error_split _ _ Hp) as (l1 & l2 & Hl & Hlen).
  exists l1, l2. split; [assumption|].
  subst s'. unfold sendSettled. rewrite Hp.
  destruct pass as [c rem]. cbn [current remaining].
  unfold all_pass_refs.
  destruct rem as [|nxt rest], o as [e|], w as [d|]; cbn; rewrite Hl, <- Hlen;
    rewrite ?replace_nth_app, ?remove_nth_app, ?flat_map_app; cbn;
    repeat split; reflexivity.
Qed.

Lemma all_pass_refs_split s l1 pass l2 :
  passes s = l1 ++ pass :: l2 ->
  all_pass_refs s =
    flat_map pass_refs l1 ++ current pass :: remaining pass
      ++ flat_map pass_refs l2.
Proof.
  intros H. unfold all_pass_refs. rewrite H, flat_map_app. reflexivity.
Qed.

Lemma on_failure_retryCount q e :
  retryCount (on_failure q e) = S (retryCount q).
Proof. unfold on_failure. destruct (MAX_RETRIES <=? _); reflexivity. Qed.

Lemma on_failure_status q e :
  status (on_failure q e) =
  if MAX_RETRIES <=? S (retryCount q) then failed else pending.
Proof. unfold on_failure. destruct (MAX_RETRIES <=? _); reflexivity. Qed.

Lemma Inv_sendSettled s p o w : Inv s -> Inv (sendSettled s p o w).
Proof.
  intros I. destruct (nth_error (passes s) p) as [pass|] eqn:Hp;
    [|now rewrite sendSettled_none].
  destruct (sendSettled_shape s p o w Hp)
    as (l1 & l2 & Hl & Hrefs & Hheap & Hqueue & Hnext & _).
  pose proof (all_pass_refs_split s _ _ _ Hl) as Hold.
  set (s' := sendSettled s p o w) in *.
  set (A := flat_map pass_refs l1) in *.
  set (B := remaining pass ++ flat_map pass_refs l2) in *.
  assert (Hsub : forall r, In r (all_pass_refs s') -> In r (all_pass_refs s)).
  { intros r. rewrite Hrefs, Hold. fold B. rewrite !in_app_iff. cbn. tauto. }
  assert (Hnd : NoDup (A ++ current pass :: B)).
  { rewrite <- Hold. apply (inv_nodup_passes I). }
  assert (Hcur : ~ In (current pass) (all_pass_refs s')).
  { rewrite Hrefs. fold B. apply NoDup_remove_2. exact Hnd. }
  assert (Hcs : status (heap s (current pass)) = syncing).
  { apply (inv_syncing I). rewrite Hold. apply in_or_app. right. now left. }
  assert (Hca : current pass < next s).
  { apply (inv_alloc_passes I). rewrite Hold. apply in_or_app. right.
    now left. }
  constructor; rewrite ?Hnext.
  - intros r Hr. rewrite Hheap. destruct o as [e|].
    + rewrite update_neq by (intros ->; contradiction).
      apply (inv_syncing I), Hsub, Hr.
    + apply (inv_syncing I), Hsub, Hr.
  - rewrite Hrefs. fold B. eapply NoDup_remove_1. exact Hnd.
  - intros r Hr. apply (inv_alloc_passes I), Hsub, Hr.
  - rewrite Hqueue. destruct o; [|apply NoDup_filter]; apply (inv_nodup_queue I).
  - intros r. rewrite Hqueue. destruct o.
    + apply (inv_alloc_queue I).
    + rewrite filter_In. intros [H _]. now apply (inv_alloc_queue I).
  - intros r Hr. rewrite Hheap. destruct o; [|now apply (inv_fresh I)].
    rewrite update_neq by lia. now apply (inv_fresh I).
  - intros r. rewrite Hheap. destruct o as [e|]; [|apply (inv_retry_le I)].
    destruct (Nat.eq_dec r (current pass)) as [->|Hne].
    + rewrite update_eq, on_failure_retryCount.
      pose proof (inv_retry_le I (current pass)) as Hle.
      pose proof (inv_failed I (current pass)) as Hf.
      rewrite Hcs in Hf.
      assert (retryCount (heap s (current pass)) <> MAX_RETRIES)
        by (intros H; apply Hf in H; discriminate).
      lia.
    + rewrite update_neq by assumption. apply (inv_retry_le I).
  - intros r. rewrite Hheap. destruct o as [e|]; [|apply (inv_failed I)].
    destruct (Nat.eq_dec r (current pass)) as [->|Hne].
    + rewrite update_eq, on_failure_retryCount, on_failure_status.
      pose proof (inv_retry_le I (current pass)) as Hle.
      pose proof (inv_failed I (current pass)) as Hf.
      rewrite Hcs in Hf.
      assert (retryCount (heap s (current pass)) <> MAX_RETRIES)
        by (intros H; apply Hf in H; discriminate).
      destruct (MAX_RETRIES <=? S (retryCount (heap s (current pass)))) eqn:E.
      * apply Nat.leb_le in E. split; [intros _; lia|reflexivity].
      * apply Nat.leb_gt in E. split; [discriminate|lia].
    + rewrite update_neq by assumption. apply (inv_failed I).
Qed.

(** *** The other turns *)

Lemma Inv_queueMessage s sid m now : Inv s -> Inv (queueMessage s sid m now).
Proof.
  intros I. constructor; cbn.
  - intros r Hr. pose proof (inv_alloc_passes I r Hr).
    rewrite update_neq by lia. now apply (inv_syncing I).
  - apply (inv_nodup_passes I).
  - intros r Hr. pose proof (inv_alloc_passes I r Hr). lia.
  - apply NoDup_app; [apply (inv_nodup_queue I)|repeat constructor; auto|].
    intros r Hr [<-|[]]. apply (inv_alloc_queue I) in Hr. lia.
  - intros r Hr. apply in_app_or in Hr. destruct Hr as [Hr|[<-|[]]].
    + apply (inv_alloc_queue I) in Hr. lia.
    + lia.
  - intros r Hr. rewrite update_neq by lia. apply (inv_fresh I). lia.
  - intros r. destruct (Nat.eq_dec r (next s)) as [->|Hne].
    + rewrite update_eq. cbn. unfold MAX_RETRIES. lia.
    + rewrite update_neq by assumption. apply (inv_retry_le I).
  - intros r. destruct (Nat.eq_dec r (next s)) as [->|Hne].
    + rewrite update_eq. cbn. unfold MAX_RETRIES. split; discriminate.
    + rewrite update_neq by assumption. apply (inv_failed I).
Qed.

Lemma Inv_retryFailed s : Inv s -> Inv (retryFailed s).
Proof.
  intros I. unfold retryFailed.
  set (fm := filter (has_status s failed) (queue s)).
  assert (Hfm : forall r, In r fm <->
                          In r (queue s) /\ status (heap s r) = failed).
  { intros r. unfold fm. rewrite filter_In, has_status_true. tauto. }
  constructor; cbn.
  - intros r Hr. rewrite forEach_out; [now apply (inv_syncing I)|].
    intros Hf. apply Hfm in Hf. apply (inv_syncing I) in Hr.
    destruct Hf as [_ Hf]. congruence.
  - apply (inv_nodup_passes I).
  - apply (inv_alloc_passes I).
  - apply (inv_nodup_queue I).
  - apply (inv_alloc_queue I).
  - intros r Hr. rewrite forEach_out; [now apply (inv_fresh I)|].
    intros Hf. apply Hfm in Hf. destruct Hf as [Hq _].
    apply (inv_alloc_queue I) in Hq. lia.
  - intros r. unfold forEach. destruct (mem r fm); cbn.
    + unfold MAX_RETRIES. lia.
    + apply (inv_retry_le I).
  - intros r. unfold forEach. destruct (mem r fm); cbn.
    + unfold MAX_RETRIES. split; discriminate.
    + apply (inv_failed I).
Qed.

Lemma Inv_with_queue s q :
  Inv s -> NoDup q -> (forall r, In r q -> In r (queue s)) ->
  Inv (with_queue s q).
Proof.
  intros I Hnd Hsub. constructor; cbn; try apply I; try assumption.
  intros r Hr. apply (inv_alloc_queue I), Hsub, Hr.
Qed.

Lemma Inv_with_isOnline s b : Inv s -> Inv (with_isOnline s b).
Proof. intros I. constructor; cbn; apply I. Qed.

Lemma Inv_step s e : Inv s -> Inv (step s e).
Proof.
  intros I. destruct e as [sid m now| |p o w| | |mid|c|off]; cbn [step].
  - now apply Inv_queueMessage.
  - now apply Inv_syncQueue.
  - now apply Inv_sendSettled.
  - now apply Inv_retryFailed.
  - apply Inv_with_queue; [assumption|constructor|intros r []].
  - apply Inv_with_queue; [assumption| |].
    + apply NoDup_filter, (inv_nodup_queue I).
    + intros r Hr. apply filter_In in Hr. tauto.
  - unfold networkListener.
    destruct (_ && _); [apply Inv_syncQueue|]; now apply Inv_with_isOnline.
  - unfold setOfflineMode.
    destruct (isOnline _); [apply Inv_syncQueue|]; now apply Inv_with_isOnline.
Qed.

Lemma Inv_run es : forall s, Inv s -> Inv (run s es).
Proof.
  induction es as [|e es IH]; intros s I; cbn; [assumption|].
  apply IH, Inv_step, I.
Qed.

Lemma Inv_reachable s : reachable s -> Inv s.
Proof. intros [es ->]. apply Inv_run, Inv_init. Qed.

(** *** The retry counter counts the rejected deliveries *)

Lemma syncQueue_retryCount s r :
  retryCount (heap (syncQueue s) r) = retryCount (heap s r).
Proof.
  destruct (syncQueue_cases s) as [[-> _]|(_ & f & rest & _ & ->)];
    [reflexivity|].
  cbn. unfold forEach. destruct (mem r _); reflexivity.
Qed.

Lemma step_retryCount s e r :
  Inv s -> is_retry e = false ->
  retryCount (heap (step s e) r) =
  retryCount (heap s r) + (if fails_on r s e then 1 else 0).
Proof.
  intros I Hre. destruct e as [sid m now| |p o w| | |mid|c|off];
    cbn [step fails_on]; try discriminate.
  - cbn. destruct (Nat.eq_dec r (next s)) as [->|Hne].
    + rewrite update_eq, (inv_fresh I) by lia. reflexivity.
    + rewrite update_neq by assumption. lia.
  - rewrite syncQueue_retryCount. lia.
  - destruct (nth_error (passes s) p) as [pass|] eqn:Hp.
    2:{ rewrite sendSettled_none by assumption. destruct o; lia. }
    destruct (sendSettled_shape s p o w Hp) as (_ & _ & _ & _ & -> & _).
    destruct o as [e|]; [|lia].
    destruct (Nat.eqb_spec (current pass) r) as [->|Hne].
    + rewrite update_eq, on_failure_retryCount. lia.
    + rewrite update_neq by congruence. lia.
  - cbn. lia.
  - cbn. lia.
  - unfold networkListener. destruct (_ && _).
    + rewrite syncQueue_retryCount. cbn. lia.
    + cbn. lia.
  - unfold setOfflineMode. destruct (isOnline _).
    + rewrite syncQueue_retryCount. cbn. lia.
    + cbn. lia.
Qed.

Lemma run_retryCount es : forall s r,
  Inv s -> forallb (fun e => negb (is_retry e)) es = true ->
  retryCount (heap (run s es) r) = retryCount (heap s r) + failures r s es.
Proof.
  induction es as [|e es IH]; intros s r I Hes; [cbn; lia|].
  change (run s (e :: es)) with (run (step s e) es). cbn [failures].
  cbn in Hes. apply andb_prop in Hes. destruct Hes as [He Hes].
  apply negb_true_iff in He.
  rewrite IH by (auto using Inv_step). rewrite step_retryCount by assumption.
  lia.
Qed.

(** *** The claims about the queue *)

Import QueueExamples.

(** C1 as the specification states it fails: in this run a pass is
    suspended on message [1] after its delivery of message [0] was
    rejected; a second call of [syncQueue] is not a no-op, it starts a
    second pass next to the first and sends message [0] again. *)
Lemma syncQueue_overlaps :
  let s := run init overlapping in
  passes s = [{| current := 1; remaining := [] |}] /\
  sends s = [1; 0] /\
  passes (syncQueue s) =
    [{| current := 1; remaining := [] |};
     {| current := 0; remaining := [] |}] /\
  sends (syncQueue s) = [0; 1; 0] /\
  ~ sync_is_guarded s.
Proof.
  cbv zeta. repeat split; try reflexivity.
  intros H. assert (Hp : passes (run init overlapping) <> [])
    by (vm_compute; discriminate).
  apply H in Hp. apply (f_equal (fun s => length (passes s))) in Hp.
  vm_compute in Hp. discriminate.
Qed.

(** C1, amended.  There is no in-flight flag.  In every reachable state,
    whatever calls of [syncQueue] are suspended: [syncQueue] is a no-op when
    offline and when no queued message is pending; otherwise it starts one
    more pass, next to the suspended ones, over exactly the queued messages
    that are pending at the call, marks them as syncing and sends the first
    of them.  None of these messages belongs to a suspended pass, so no
    message ever belongs to two passes and no two passes are delivering the
    same message. *)
Theorem syncQueue_reentrancy (es : list Event) :
  let s := run init es in
  let pendingMessages := filter (has_status s pending) (queue s) in
  (isOnline s = false \/ pendingMessages = [] -> syncQueue s = s) /\
  (isOnline s = true -> pendingMessages <> [] ->
   exists pass,
     passes (syncQueue s) = passes s ++ [pass] /\
     pass_refs pass = pendingMessages /\
     sends (syncQueue s) = current pass :: sends s /\
     queue (syncQueue s) = queue s /\
     (forall r, In r pendingMessages ->
        heap (syncQueue s) r = set_status (heap s r) syncing) /\
     (forall r, ~ In r pendingMessages -> heap (syncQueue s) r = heap s r)) /\
  (forall r, In r pendingMessages -> ~ In r (all_pass_refs s)) /\
  NoDup (all_pass_refs s) /\
  NoDup (all_pass_refs (syncQueue s)) /\
  NoDup (map current (passes (syncQueue s))).
Proof.
  intros s pendingMessages.
  assert (I : Inv s) by (apply Inv_run, Inv_init).
  assert (I' : Inv (syncQueue s)) by now apply Inv_syncQueue.
  split; [|split; [|split; [|split; [|split]]]].
  - intros H.
    destruct (syncQueue_cases s) as [[E _]|(Hon & f & rest & E & _)];
      [exact E|].
    fold pendingMessages in E.
    destruct H as [H|H]; [congruence|]. rewrite H in E. discriminate.
  - intros Hon Hne.
    destruct (syncQueue_cases s) as [[_ [H|H]]|(_ & f & rest & E & ->)].
    + congruence.
    + fold pendingMessages in H. contradiction.
    + fold pendingMessages in E |- *.
      exists {| current := f; remaining := rest |}.
      split; [reflexivity|]. split; [now rewrite E|].
      split; [reflexivity|]. split; [reflexivity|].
      cbn [heap with_send with_passes with_heap]. split.
      * intros r Hr. now apply forEach_in.
      * intros r Hr. now apply forEach_out.
  - intros r Hr Hp. apply (inv_syncing I) in Hp.
    apply filter_In in Hr. destruct Hr as [_ Hr].
    apply has_status_true in Hr. congruence.
  - apply (inv_nodup_passes I).
  - apply (inv_nodup_passes I').
  - pose proof (inv_nodup_passes I') as N. revert N.
    unfold all_pass_refs. generalize (passes (syncQueue s)).
    induction l as [|p l IH]; cbn [flat_map map]; intros N; [constructor|].
    apply NoDup_app_remove_l in N as N'.
    constructor; [|now apply IH].
    intros Hin. apply in_map_iff in Hin. destruct Hin as (p' & E & Hp').
    unfold pass_refs at 1 in N. cbn [app] in N.
    apply NoDup_cons_iff in N. destruct N as [N _]. apply N.
    apply in_or_app. right. apply in_flat_map. exists p'.
    split; [assumption|]. unfold pass_refs. rewrite E. now left.
Qed.

(** In the run [overlapping] a pass is suspended on message [1] and
    message [0] is pending again: the call starts a second pass, on
    message [0]. *)
Lemma syncQueue_reentrancy_witness :
  let s := run init overlapping in
  passes s = [{| current := 1; remaining := [] |}] /\
  exists pass,
    passes (syncQueue s) = passes s ++ [pass] /\
    pass_refs pass = [0] /\
    sends (syncQueue s) = current pass :: sends s.
Proof.
  cbv zeta. split; [reflexivity|].
  destruct (proj1 (proj2 (syncQueue_reentrancy overlapping)) eq_refl)
    as (pass & H1 & H2 & H3 & _).
  - vm_compute. discriminate.
  - exists pass. split; [exact H1|]. split; [exact H2|exact H3].
Defined.

(** C2.  Along every run without a user retry, from every reachable state
    and for every message [r]: [retryCount] is the count at the start plus
    the number of rejected deliveries of [r] (so each rejection adds one
    and the count never decreases); [r] is failed exactly when that count
    is [MAX_RETRIES = 3]; a rejection makes [r] failed when it is the third
    and pending otherwise; and a successful delivery removes [r] from the
    queue, out of every pass, without making it failed. *)
Theorem retry_policy (es0 es : list Event) (r : ref) :
  forallb (fun e => negb (is_retry e)) es = true ->
  let s := run init es0 in
  let s' := run s es in
  retryCount (heap s' r) = retryCount (heap s r) + failures r s es /\
  (status (heap s' r) = failed <->
   retryCount (heap s r) + failures r s es = MAX_RETRIES) /\
  (forall p pass e w,
      nth_error (passes s') p = Some pass -> current pass = r ->
      let s'' := sendSettled s' p (Some e) w in
      retryCount (heap s'' r) = S (retryCount (heap s' r)) /\
      status (heap s'' r) =
        if MAX_RETRIES <=? S (retryCount (heap s' r))
        then failed else pending) /\
  (forall p pass w,
      nth_error (passes s') p = Some pass -> current pass = r ->
      let s'' := sendSettled s' p None w in
      ~ In r (queue s'') /\ ~ In r (all_pass_refs s'') /\
      status (heap s'' r) <> failed).
Proof.
  intros Hes s s'.
  assert (I : Inv s) by (apply Inv_run, Inv_init).
  assert (I' : Inv s') by (apply Inv_run, I).
  pose proof (run_retryCount es r I Hes) as Hcount. fold s' in Hcount.
  split; [exact Hcount|]. split; [rewrite <- Hcount; apply (inv_failed I')|].
  split.
  - intros p pass e w Hp <- s''.
    destruct (sendSettled_shape s' p (Some e) w Hp)
      as (_ & _ & _ & _ & Hheap & _).
    subst s''. rewrite Hheap, update_eq.
    split; [apply on_failure_retryCount|apply on_failure_status].
  - intros p pass w Hp <- s''.
    destruct (sendSettled_shape s' p None w Hp)
      as (l1 & l2 & Hl & Hrefs & Hheap & Hqueue & _).
    pose proof (all_pass_refs_split s' _ _ _ Hl) as Hold.
    subst s''. rewrite Hheap, Hqueue, Hrefs. split; [|split].
    + rewrite filter_In, String.eqb_refl. cbn. intros [_ H]. discriminate.
    + apply NoDup_remove_2. rewrite <- Hold. apply (inv_nodup_passes I').
    + rewrite (inv_syncing I'); [discriminate|].
      rewrite Hold. apply in_or_app. right. now left.
Qed.

(** A message that is rejected three times is failed. *)
Lemma retry_policy_witness :
  status (heap (run (run init one_queued) three_rejections) 0) = failed.
Proof.
  apply (proj1 (proj2 (retry_policy one_queued three_rejections 0 eq_refl))).
  reflexivity.
Defined.

(** A message that is rejected twice and then delivered has left the queue,
    and it is failed after no prefix of the run. *)
Example delivered_at_third_never_failed :
  queue (run init delivered_at_third) = [] /\
  retryCount (heap (run init delivered_at_third) 0) = 2 /\
  forallb
    (fun n => negb (has_status (run init (firstn n delivered_at_third))
                      failed 0))
    (seq 0 (S (length delivered_at_third))) = true.
Proof. repeat split; vm_compute; reflexivity. Qed.

(** A message queued while offline is counted as pending; when the network
    comes back it is sent once, and after the delivery nothing is pending. *)
Example offline_then_online :
  let s1 := run init [SetOfflineMode true; QueueMessage "s" msgA 10] in
  let s2 := step s1 (NetworkListener (Some true)) in
  let s3 := step s2 (SendSettled 0 None (Some 20%Z)) in
  getSyncStatus s1 s1
  = Resolved {| lastSync := None; pendingCount := 1; failedCount := 0;
                status_isOnline := false; isSyncing := false |} /\
  sends s2 = [0] /\
  sends s3 = [0] /\
  getSyncStatus s3 s3
  = Resolved {| lastSync := Some 20%Z; pendingCount := 0; failedCount := 0;
                status_isOnline := true; isSyncing := false |}.
Proof. repeat split; vm_compute; reflexivity. Qed.

(** C7 as the specification states it fails: two states with the same
    queue and the same network flag, which differ only in the stored
    [@sync_status] record, have different statuses. *)
Lemma getSyncStatus_reads_storage : ~ status_from_queue_only.
Proof.
  intros H.
  specialize (H init (synced_at 42) eq_refl (fun _ => eq_refl) eq_refl).
  discriminate H.
Qed.

Lemma count_status_filter s st q :
  length (filter (has_status s st) q) = count_status s st q.
Proof.
  induction q as [|r q IH]; cbn; [reflexivity|].
  unfold has_status at 1. destruct (Status_eqb _ _); cbn; now rewrite IH.
Qed.

Lemma count_status_total s q :
  count_status s pending q + count_status s syncing q
  + count_status s failed q = length q.
Proof.
  induction q as [|r q IH]; cbn; [reflexivity|].
  destruct (status (heap s r)); cbn; lia.
Qed.

(** C7, amended.  [getSyncStatus] awaits a read of the stored
    [@sync_status] record: it rejects when the read or the parse fails, and
    otherwise [lastSync] is the stored date ([null] when there is none).
    [pendingCount] and [failedCount] are the numbers of pending and of
    failed messages in the queue when the call starts (state [s]);
    [isOnline] is the cached network flag and [isSyncing] holds exactly
    when some queued message is syncing, both when the read completes
    (state [s']).  Every queued message is counted in exactly one status. *)
Theorem getSyncStatus_spec (s s' : State) :
  (stored_sync_status s' = BadItem -> getSyncStatus s s' = Rejected) /\
  (stored_sync_status s' <> BadItem ->
   exists st, getSyncStatus s s' = Resolved st /\
     lastSync st = match stored_sync_status s' with
                   | Item d => Some d
                   | _ => None
                   end /\
     pendingCount st = count_status s pending (queue s) /\
     failedCount st = count_status s failed (queue s) /\
     status_isOnline st = isOnline s' /\
     (isSyncing st = true <->
      exists r, In r (queue s') /\ status (heap s' r) = syncing)) /\
  count_status s pending (queue s) + count_status s syncing (queue s)
  + count_status s failed (queue s) = length (queue s).
Proof.
  split; [|split; [|apply count_status_total]].
  - intros H. unfold getSyncStatus. now rewrite H.
  - intros H. unfold getSyncStatus.
    destruct (stored_sync_status s') as [|d|]; [| |contradiction].
    all: eexists; split; [reflexivity|]; cbn.
    all: rewrite !count_status_filter; repeat split; try reflexivity.
    all: rewrite existsb_exists.
    all: try (intros (r & Hr & Hs); exists r; split; [assumption|];
              now apply has_status_true).
    all: intros (r & Hr & Hs); exists r; split; [assumption|];
         now apply has_status_true.
Qed.

Lemma getSyncStatus_spec_witness :
  getSyncStatus init (with_stored_sync_status init 42)
  = Resolved {| lastSync := Some 42%Z; pendingCount := 0; failedCount := 0;
                status_isOnline := true; isSyncing := false |}.
Proof.
  destruct (proj1 (proj2 (getSyncStatus_spec
                            init (with_stored_sync_status init 42))))
    as (st & Hst & _); [discriminate|].
  rewrite Hst. cbn in Hst. now inversion Hst.
Defined.
End QueueFacts.


(** ** Arrays and maps *)


Lemma slice_suffix (A : Type) (l : list A) (k : nat) :
  0 < k <= length l ->
  slice l (- Z.of_nat k) None = skipn (length l - k) l.
Proof.
  intros Hk. unfold slice, relative_index.
  destruct (- Z.of_nat k <? 0)%Z eqn:E; [|apply Z.ltb_ge in E; lia].
  rewrite Z.max_l by lia.
  replace (Z.to_nat (Z.of_nat (length l) + - Z.of_nat k))
    with (length l - k) by lia.
  apply firstn_all2. rewrite length_skipn. lia.
Qed.

Section SortFacts.
Variable A : Type.
Variable cmp : A -> A -> R.

Lemma sort_insert_perm x l : Permutation (sort_insert cmp x l) (x :: l).
Proof.
  induction l as [|y l IH]; cbn; [reflexivity|].
  destruct (Rlt_dec 0 (cmp x y)); [|reflexivity].
  rewrite IH. apply perm_swap.
Qed.

Lemma sort_perm l : Permutation (sort cmp l) l.
Proof.
  induction l as [|x l IH]; cbn; [reflexivity|].
  rewrite sort_insert_perm. now constructor.
Qed.

End SortFacts.

Module JsMapFacts.
Section Facts.
Variable V : Type.
Implicit Types m : JsMap.t V.

Lemma set_fresh m k v :
  ~ In k (JsMap.keys m) -> JsMap.set m k v = m ++ [(k, v)].
Proof.
  induction m as [|[k' v'] m IH]; cbn; intros H; [reflexivity|].
  destruct (String.eqb_spec k' k) as [->|Hne]; [tauto|].
  rewrite IH by tauto. reflexivity.
Qed.

Lemma of_entries_acc l : forall m,
  NoDup (JsMap.keys m ++ map fst l) ->
  fold_left (fun m kv => JsMap.set m (fst kv) (snd kv)) l m = m ++ l.
Proof.
  induction l as [|[k v] l IH]; intros m H; cbn.
  - now rewrite app_nil_r.
  - cbn in H. rewrite set_fresh.
    + rewrite IH.
      * now rewrite <- app_assoc.
      * unfold JsMap.keys in *. rewrite map_app. cbn.
        now rewrite <- app_assoc.
    + apply NoDup_remove_2 in H. intros Hin. apply H.
      apply in_or_app. now left.
Qed.

(** Building a map from the entries of a map gives the same entries. *)
Lemma of_entries_wf (l : list (string * V)) :
  NoDup (map fst l) -> JsMap.of_entries l = l.
Proof. intros H. unfold JsMap.of_entries. now rewrite of_entries_acc. Qed.

Lemma wf_skipn m n : JsMap.wf m -> JsMap.wf (skipn n m).
Proof.
  unfold JsMap.wf, JsMap.keys. intros H.
  rewrite <- (firstn_skipn n m), map_app in H.
  now apply NoDup_app_remove_l in H.
Qed.
End Facts.

Lemma distinct_NoDup l : VectorSpec.distinct l = true -> NoDup l.
Proof.
  induction l as [|k l IH]; cbn; intros H; constructor.
  - apply andb_prop in H. destruct H as [H _].
    apply negb_true_iff in H. intros Hin.
    assert (existsb (String.eqb k) l = true); [|congruence].
    apply existsb_exists. exists k. split; [assumption|apply String.eqb_refl].
  - apply IH. apply andb_prop in H. tauto.
Qed.
End JsMapFacts.

(** ** Ranking *)

Section Ranking.
Import VectorDatabase VectorSpec.

Lemma firstn_In (A : Type) (x : A) n : forall l,
  In x (firstn n l) -> In x l.
Proof.
  induction n as [|n IH]; intros [|y l]; cbn; try tauto.
  intros [H|H]; [now left|right; now apply IH].
Qed.





End Ranking.

(** ** The vector database *)

Section VectorFacts.
Import VectorDatabase VectorSpec VectorExamples JsMapFacts.

Variable createEmbedding : nat -> string -> option (list number).
Variable setItem_ok : nat -> bool.

(** *** [saveToStorage] *)

Lemma saveToStorage_cache st :
  embeddingCache (saveToStorage setItem_ok st) =
  if setItem_ok (writes st) then
    if 1000 <? JsMap.size (embeddingCache st) then
      JsMap.of_entries (slice (JsMap.entries (embeddingCache st)) (-500) None)
    else embeddingCache st
  else embeddingCache st.
Proof.
  unfold saveToStorage. destruct (setItem_ok (writes st)); [|reflexivity].
  cbv zeta.
  change (embeddingCache (count_write (with_stored_vector_db st)))
    with (embeddingCache st).
  destruct (1000 <? JsMap.size (embeddingCache st));
    destruct (setItem_ok _); reflexivity.
Qed.

Lemma saveToStorage_documents st :
  documents (saveToStorage setItem_ok st) = documents st.
Proof.
  unfold saveToStorage. destruct (setItem_ok (writes st)); [|reflexivity].
  cbv zeta. destruct (1000 <? _); destruct (setItem_ok _); reflexivity.
Qed.

Lemma saveToStorage_embedCalls st :
  embedCalls (saveToStorage setItem_ok st) = embedCalls st.
Proof.
  unfold saveToStorage. destruct (setItem_ok (writes st)); [|reflexivity].
  cbv zeta. destruct (1000 <? _); destruct (setItem_ok _); reflexivity.
Qed.

Lemma prune_suffix (c : JsMap.t (list number)) :
  JsMap.wf c -> 1000 < JsMap.size c ->
  JsMap.of_entries (slice (JsMap.entries c) (-500) None)
  = skipn (JsMap.size c - 500) c.
Proof.
  intros Hwf Hsize. unfold JsMap.entries, JsMap.size in *.
  change (-500)%Z with (- Z.of_nat 500)%Z.
  rewrite slice_suffix by lia.
  apply of_entries_wf. now apply wf_skipn.
Qed.

(** C6, amended.  At a persistence step whose write of the document
    snapshot succeeds, a cache of more than 1000 entries is cut down to its
    500 most recently inserted entries (the oldest are dropped), a smaller
    cache is kept, and so the cache has at most 1000 entries afterwards.
    When that write fails the step leaves the cache as it is. *)
Theorem saveToStorage_prunes (st : State) :
  JsMap.wf (embeddingCache st) ->
  let st' := saveToStorage setItem_ok st in
  let cache := embeddingCache st in
  (setItem_ok (writes st) = true ->
   (1000 < JsMap.size cache ->
    exists dropped,
      cache = dropped ++ embeddingCache st' /\
      JsMap.size (embeddingCache st') = 500) /\
   (JsMap.size cache <= 1000 -> embeddingCache st' = cache) /\
   JsMap.size (embeddingCache st') <= 1000) /\
  (setItem_ok (writes st) = false -> embeddingCache st' = cache) /\
  JsMap.wf (embeddingCache st').
Proof.
  intros Hwf st' cache. subst st'. rewrite saveToStorage_cache. fold cache.
  destruct (setItem_ok (writes st)).
  2:{ split; [discriminate|]. split; [reflexivity|assumption]. }
  destruct (Nat.ltb_spec 1000 (JsMap.size cache)) as [Hbig|Hsmall].
  - rewrite prune_suffix by assumption.
    assert (Hlen : JsMap.size (skipn (JsMap.size cache - 500) cache) = 500).
    { unfold JsMap.size in *. rewrite length_skipn. lia. }
    split; [|split; [discriminate|now apply wf_skipn]].
    intros _. split; [|split].
    + intros _. exists (firstn (JsMap.size cache - 500) cache).
      split; [now rewrite firstn_skipn|assumption].
    + lia.
    + rewrite Hlen. lia.
  - split; [|split; [discriminate|assumption]].
    intros _. split; [lia|]. split; [reflexivity|assumption].
Qed.

Lemma many_texts_wf : JsMap.wf many_texts.
Proof. apply distinct_NoDup. vm_compute. reflexivity. Qed.

(** *** [initialize] *)

Lemma initialize_initialized st : initialized st = true -> initialize st = st.
Proof. intros H. unfold initialize. now rewrite H. Qed.

Lemma initialize_embedCalls st : embedCalls (initialize st) = embedCalls st.
Proof.
  unfold initialize. destruct (initialized st); [reflexivity|].
  destruct (stored_vector_db st), (stored_embedding_cache st); reflexivity.
Qed.

Lemma initialize_openAIInstance st :
  openAIInstance (initialize st) = openAIInstance st.
Proof.
  unfold initialize. destruct (initialized st); [reflexivity|].
  destruct (stored_vector_db st), (stored_embedding_cache st); reflexivity.
Qed.

(** *** [indexSession] *)

Lemma index_message_unchanged session st message :
  (exists d, JsMap.get (documents st) (docId_of session message) = Some d /\
             doc_content d = msg_content message) ->
  index_message createEmbedding session st message = st.
Proof.
  intros (d & Hget & Hc). unfold index_message. rewrite Hget. cbn.
  rewrite Hc, String.eqb_refl. reflexivity.
Qed.

Lemma index_loop_unchanged session st : forall messages,
  (forall m, In m messages ->
     exists d, JsMap.get (documents st) (docId_of session m) = Some d /\
               doc_content d = msg_content m) ->
  fold_left (index_message createEmbedding session) messages st = st.
Proof.
  induction messages as [|m ms IH]; intros H; [reflexivity|].
  cbn [fold_left]. rewrite index_message_unchanged by (apply H; now left).
  apply IH. intros m' Hm'. apply H. now right.
Qed.

(** C5.  When every message of the session already has a document with
    its id and its text, [indexSession] makes no call to the embedding
    provider and leaves the document map as it is.  (The map is the one
    that [initialize] leaves; on an initialised store, which is the case
    of a re-indexing, that is the map itself.) *)
Theorem indexSession_unchanged (st : State) (session : Session) :
  let st0 := initialize st in
  (forall m, In m (session_messages session) ->
     exists d, JsMap.get (documents st0) (docId_of session m) = Some d /\
               doc_content d = msg_content m) ->
  let st' := fst (indexSession createEmbedding setItem_ok st session) in
  embedCalls st' = embedCalls st /\
  documents st' = documents st0 /\
  (initialized st = true -> documents st' = documents st).
Proof.
  intros st0 H st'.
  assert (E : embedCalls st' = embedCalls st /\ documents st' = documents st0).
  { subst st'. unfold indexSession. fold st0.
    destruct (openAIInstance st0); cbn [negb fst].
    - rewrite saveToStorage_embedCalls, saveToStorage_documents.
      rewrite index_loop_unchanged by assumption.
      split; [apply initialize_embedCalls|reflexivity].
    - split; [apply initialize_embedCalls|reflexivity]. }
  destruct E as [E1 E2]. repeat split; try assumption.
  intros Hi. rewrite E2. subst st0. now rewrite initialize_initialized.
Qed.

(** *** [search] and [findSimilar] *)

Lemma search_cases st query limit :
  let st0 := initialize st in
  search createEmbedding st query limit =
  if JsMap.size (documents st0) =? 0 then (st0, Resolved [])
  else if negb (openAIInstance st0) then (st0, Rejected)
  else match createEmbedding (embedCalls st0) query with
       | None => (count_embedCall st0, Resolved [])
       | Some q =>
           (count_embedCall st0,
            Resolved
              (map to_result
                 (slice (sort by_score (score_all q (documents st0))) 0
                    (Some (default_limit limit 10)))))
       end.
Proof. reflexivity. Qed.

(** C9, amended.  [search] resolves with the empty list when the document
    map (as [initialize] leaves it) is empty, and when the embedding of the
    query fails; it rejects in exactly one case: the map is not empty and
    no OpenAI instance exists, because [getOpenAI()] is called outside the
    [try]. *)
Theorem search_error_handling (st : State) (query : string)
    (limit : option Z) :
  let st0 := initialize st in
  let outcome := snd (search createEmbedding st query limit) in
  (JsMap.size (documents st0) = 0 -> outcome = Resolved []) /\
  (JsMap.size (documents st0) <> 0 -> openAIInstance st0 = true ->
   createEmbedding (embedCalls st0) query = None -> outcome = Resolved []) /\
  (outcome = Rejected <->
   JsMap.size (documents st0) <> 0 /\ openAIInstance st0 = false).
Proof.
  intros st0 outcome. subst outcome. rewrite search_cases. fold st0.
  destruct (Nat.eqb_spec (JsMap.size (documents st0)) 0) as [Hz|Hnz].
  - cbn. repeat split; try tauto; try discriminate.
  - destruct (openAIInstance st0); cbn [negb].
    + destruct (createEmbedding (embedCalls st0) query); cbn;
        repeat split; try tauto; try discriminate.
      all: intros [_ H]; discriminate.
    + cbn. repeat split; try tauto; try discriminate.
Qed.

(** C10, amended.  [search] and [findSimilar] leave the document map and
    the embedding cache as [initialize] leaves them; so on an initialised
    store they change neither (on a store that is not initialised the call
    first loads both maps from storage).  [findSimilar] on a text that is
    not cached calls the provider and does not cache the result. *)
Theorem queries_read_only (st : State) (text : string)
    (exclude : option string) (limit : option Z) :
  let st0 := initialize st in
  let st1 := fst (search createEmbedding st text limit) in
  let st2 := fst (findSimilar createEmbedding st text exclude limit) in
  documents st1 = documents st0 /\
  embeddingCache st1 = embeddingCache st0 /\
  documents st2 = documents st0 /\
  embeddingCache st2 = embeddingCache st0 /\
  (initialized st = true -> st0 = st) /\
  (openAIInstance st0 = true ->
   JsMap.get (embeddingCache st0) text = None ->
   embedCalls st2 = S (embedCalls st0) /\
   JsMap.get (embeddingCache st2) text = None).
Proof.
  intros st0 st1 st2.
  assert (H1 : documents st1 = documents st0 /\
               embeddingCache st1 = embeddingCache st0).
  { subst st1. rewrite search_cases. fold st0.
    destruct (_ =? 0); [now split|].
    destruct (negb _); [now split|].
    destruct (createEmbedding _ _); now split. }
  assert (H2 : documents st2 = documents st0 /\
               embeddingCache st2 = embeddingCache st0).
  { subst st2. unfold findSimilar. fold st0.
    destruct (negb _); [now split|].
    destruct (JsMap.get _ _); [now split|].
    destruct (createEmbedding _ _); now split. }
  destruct H1 as [Hd1 Hc1], H2 as [Hd2 Hc2].
  split; [exact Hd1|]. split; [exact Hc1|].
  split; [exact Hd2|]. split; [exact Hc2|].
  split; [apply initialize_initialized|].
  intros Hai Hmiss. split; [|now rewrite Hc2].
  subst st2. unfold findSimilar. fold st0. rewrite Hai, Hmiss. cbn.
  destruct (createEmbedding _ _); reflexivity.
Qed.

End VectorFacts.

(** ** Ranking by rounded scores *)

Section SortDouble.
Import Floats Binary64.
Local Open Scope float_scope.
Variable A : Type.
Variable cmp : A -> A -> number.



(** Stability: an element only moves past elements that the comparator
    puts strictly before it.  So for a class [keep] of elements that the
    comparator never orders strictly, the sort keeps their order. *)
Variable keep : A -> bool.
Hypothesis keep_ties :
  forall x y, keep x = true -> keep y = true -> (0 <? cmp x y) = false.


End SortDouble.

Section SearchDouble.
Import Floats Binary64.
Local Open Scope float_scope.

Variable createEmbedding : nat -> string -> option (list number).






End SearchDouble.

Section SearchDoubleChecks.
Import Floats Binary64.
Local Open Scope float_scope.


End SearchDoubleChecks.


(** ** The claims about the vector database at concrete inputs *)

Section VectorChecks.
Import VectorDatabase VectorSpec VectorExamples JsMapFacts.



(** The zero vector has similarity [0] with itself, not [1]. *)
Example cosine_zero_self : cosineSimilarity [0%R] [0%R] = 0%R.
Proof.
  rewrite (@cosine_eq [0%R] [0%R] eq_refl).
  destruct (Req_dec_T _ _) as [_|Hne]; [reflexivity|].
  exfalso. apply Hne. unfold norm. cbn.
  replace (0 * 0 + 0)%R with 0%R by lra. rewrite sqrt_0. lra.
Qed.

Lemma indexSession_unchanged_witness :
  embedCalls (fst (indexSession unit_provider (fun _ => true) two_docs chat))
  = 0.
Proof.
  apply (indexSession_unchanged unit_provider (fun _ => true) two_docs chat).
  intros m [<-|[<-|[]]]; eexists; split; reflexivity.
Defined.

Lemma many_texts_size : JsMap.size many_texts = 1001.
Proof.
  unfold JsMap.size, many_texts. now rewrite length_map, length_seq.
Qed.

(** C6 as the specification states it fails: the cache holds 1001 entries
    and the write of the document snapshot is rejected; the step ends with
    1001 entries in the cache. *)
Lemma cache_not_pruned_when_write_fails :
  JsMap.size (embeddingCache (saveToStorage (fun _ => false) crowded)) = 1001
  /\ ~ cache_bounded_after_save.
Proof.
  assert (E : JsMap.size
                (embeddingCache (saveToStorage (fun _ => false) crowded))
              = 1001).
  { rewrite saveToStorage_cache. cbv beta iota. apply many_texts_size. }
  split; [exact E|].
  intros H. specialize (H (fun _ => false) crowded many_texts_wf).
  rewrite E in H. lia.
Qed.

Lemma saveToStorage_prunes_witness :
  JsMap.size (embeddingCache (saveToStorage (fun _ => true) crowded)) = 500.
Proof.
  destruct (saveToStorage_prunes (fun _ => true) crowded many_texts_wf)
    as [H _].
  destruct (H eq_refl) as [Hbig _].
  destruct Hbig as (dropped & _ & Hsize).
  - change (embeddingCache crowded) with many_texts.
    rewrite many_texts_size. lia.
  - exact Hsize.
Defined.

(** C9 as the specification states it fails: one document is loaded and
    no API key is set; [search] rejects. *)
Lemma search_raises_without_openai :
  snd (search unit_provider keyless "hello" None) = Rejected /\
  ~ search_never_raises.
Proof.
  split; [reflexivity|].
  intros H. apply (H unit_provider keyless "hello"%string None). reflexivity.
Qed.

Lemma search_error_handling_witness :
  snd (search unit_provider fresh "hello" None) = Resolved [].
Proof.
  apply (proj1 (search_error_handling unit_provider fresh "hello"%string None)).
  reflexivity.
Defined.

(** C10 as the specification states it fails: on a store that is not yet
    initialised, [search] loads the stored document into the map. *)
Lemma search_loads_the_snapshot :
  documents cold = [] /\
  documents (fst (search unit_provider cold "hello" None))
  = [("s_1"%string, doc_old)] /\
  ~ queries_leave_maps_unchanged.
Proof.
  split; [reflexivity|]. split; [reflexivity|].
  intros H.
  destruct (H unit_provider cold "hello"%string None None) as [Hd _].
  discriminate Hd.
Qed.

Lemma queries_read_only_witness :
  fst (findSimilar unit_provider two_docs "a new text" None None)
  = count_embedCall two_docs /\
  JsMap.get
    (embeddingCache
       (fst (findSimilar unit_provider two_docs "a new text" None None)))
    "a new text" = None.
Proof.
  split; [reflexivity|].
  apply (proj2 (proj2 (proj2 (proj2 (proj2
           (queries_read_only unit_provider two_docs "a new text"%string
                              None None)))))); reflexivity.
Defined.
End VectorChecks.


(** * Further properties of the offline queue *)

Section QueueExtra.
Import OfflineQueueService QueueInv QueueMore QueueExamples.

(** X1.  A call of [syncQueue] made online leaves no queued message
    pending: every message that was pending is now syncing and belongs to a
    suspended pass; the queue itself is not changed by the call. *)
Theorem syncQueue_takes_every_pending (s : State) :
  isOnline s = true ->
  let s' := syncQueue s in
  queue s' = queue s /\
  (forall r, In r (queue s') -> status (heap s' r) <> pending) /\
  (forall r, In r (queue s) -> status (heap s r) = pending ->
     status (heap s' r) = syncing /\ In r (all_pass_refs s')).
Proof.
  intros Hon s'. subst s'.
  destruct (syncQueue_cases s) as [[-> [Hoff|Hnil]]|(_ & f & rest & E & ->)].
  - congruence.
  - split; [reflexivity|].
    assert (Hnone : forall r, In r (queue s) -> status (heap s r) <> pending).
    { intros r Hr Hp.
      assert (Hin : In r (filter (has_status s pending) (queue s)))
        by (apply filter_In; split; [assumption|now apply has_status_true]).
      rewrite Hnil in Hin. contradiction. }
    split; [exact Hnone|]. intros r Hr Hp. now apply Hnone in Hp.
  - set (pm := filter (has_status s pending) (queue s)) in *.
    assert (Hpm : forall r, In r pm <->
                            In r (queue s) /\ status (heap s r) = pending).
    { intros r. unfold pm. rewrite filter_In, has_status_true. tauto. }
    cbn. split; [reflexivity|]. split.
    + intros r Hr. destruct (in_dec Nat.eq_dec r pm) as [Hp|Hp].
      * rewrite forEach_in by assumption. discriminate.
      * rewrite forEach_out by assumption. intros Hs. apply Hp, Hpm. tauto.
    + intros r Hr Hs. assert (Hp : In r pm) by (apply Hpm; tauto).
      rewrite forEach_in by assumption. split; [reflexivity|].
      unfold all_pass_refs. cbn [passes with_send with_passes with_heap].
      rewrite flat_map_app. apply in_or_app. right.
      change (In r ((f :: rest) ++ [])). rewrite app_nil_r, <- E. exact Hp.
Qed.

Lemma syncQueue_takes_every_pending_witness :
  let s := run init [SetOfflineMode true; QueueMessage "s" msgA 10;
                     NetworkListener (Some true);
                     QueueMessage "s" msgB 11] in
  status (heap (syncQueue s) 1) <> pending.
Proof.
  intros s.
  apply (proj1 (proj2 (syncQueue_takes_every_pending s eq_refl))).
  right. left. reflexivity.
Defined.

(** X2.  [retryFailed] turns every failed message of the queue into a
    pending one with [retryCount = 0] and no error text, and touches nothing
    else: afterwards no queued message is failed, the pending ones are the
    former pending and failed ones together, and the syncing ones are the
    same. *)
Theorem retryFailed_resets (s : State) :
  let s' := retryFailed s in
  queue s' = queue s /\
  count_status s' failed (queue s') = 0 /\
  count_status s' pending (queue s') =
    count_status s pending (queue s) + count_status s failed (queue s) /\
  count_status s' syncing (queue s') = count_status s syncing (queue s) /\
  (forall r, In r (queue s) -> status (heap s r) = failed ->
     status (heap s' r) = pending /\ retryCount (heap s' r) = 0 /\
     error (heap s' r) = None) /\
  (forall r, status (heap s r) <> failed -> heap s' r = heap s r).
Proof.
  intros s'. subst s'. unfold retryFailed.
  set (fm := filter (has_status s failed) (queue s)).
  assert (Hfm : forall r, In r fm <->
                          In r (queue s) /\ status (heap s r) = failed).
  { intros r. unfold fm. rewrite filter_In, has_status_true. tauto. }
  assert (Hmem : forall r, In r (queue s) ->
                           mem r fm = Status_eqb (status (heap s r)) failed).
  { intros r Hr. destruct (Status_eqb _ _) eqn:E.
    - apply mem_In, Hfm. split; [assumption|now apply Status_eqb_eq].
    - apply mem_false. intros Hin. apply Hfm in Hin. destruct Hin as [_ Hin].
      apply Status_eqb_eq in Hin. congruence. }
  cbn [queue with_heap heap]. split; [reflexivity|].
  assert (Hcount : forall st q, incl q (queue s) ->
            count_status
              (with_heap s
                 (forEach fm
                    (fun msg =>
                       {| id := id msg; sessionId := sessionId msg;
                          message := message msg; timestamp := timestamp msg;
                          retryCount := 0; status := pending;
                          error := None |}) (heap s))) st q =
            match st with
            | failed => 0
            | pending => count_status s pending q + count_status s failed q
            | syncing => count_status s syncing q
            end).
  { intros st q. induction q as [|r q IH]; intros Hq.
    - destruct st; reflexivity.
    - assert (Hr : In r (queue s)) by (apply Hq; now left).
      assert (Hq' : incl q (queue s)) by (intros x Hx; apply Hq; now right).
      specialize (IH Hq'). cbn [count_status heap with_heap] in IH |- *.
      rewrite IH. unfold forEach. rewrite (Hmem r Hr).
      destruct (status (heap s r)) eqn:Es, st; cbn; rewrite ?Es; cbn; lia. }
  split; [apply (Hcount failed), incl_refl|].
  split; [apply (Hcount pending), incl_refl|].
  split; [apply (Hcount syncing), incl_refl|].
  split.
  - intros r Hr Hs. rewrite forEach_in by (apply Hfm; tauto). cbn. tauto.
  - intros r Hs. apply forEach_out. intros Hin. apply Hfm in Hin. tauto.
Qed.

(** *** The passes after a settled delivery *)

Lemma sendSettled_passes s p pass o w :
  nth_error (passes s) p = Some pass ->
  let s' := sendSettled s p o w in
  exists l1 l2,
    passes s = l1 ++ pass :: l2 /\
    ((remaining pass = [] /\ passes s' = l1 ++ l2 /\ sends s' = sends s) \/
     (exists nxt rest,
        remaining pass = nxt :: rest /\
        passes s' = l1 ++ {| current := nxt; remaining := rest |} :: l2 /\
        sends s' = nxt :: sends s)).
Proof.
  intros Hp s'. destruct (nth_error_split _ _ Hp) as (l1 & l2 & Hl & Hlen).
  exists l1, l2. split; [assumption|].
  subst s'. unfold sendSettled. rewrite Hp.
  destruct pass as [c rem]. cbn [current remaining].
  destruct rem as [|nxt rest].
  - left. split; [reflexivity|].
    destruct o as [e|], w as [d|]; cbn; rewrite Hl, <- Hlen, remove_nth_app;
      split; reflexivity.
  - right. exists nxt, rest. split; [reflexivity|].
    destruct o as [e|]; cbn; rewrite Hl, <- Hlen, replace_nth_app;
      split; reflexivity.
Qed.

Lemma remaining_sub l r :
  In r (flat_map remaining l) -> In r (flat_map pass_refs l).
Proof.
  rewrite !in_flat_map. intros (p & Hp & Hr). exists p.
  split; [assumption|now right].
Qed.

Lemma sorted_snoc l n :
  enqueue_order l -> (forall x, In x l -> x < n) -> enqueue_order (l ++ [n]).
Proof.
  unfold enqueue_order. induction 1 as [|x l Hl IH Hx]; intros Hn; cbn.
  - repeat constructor.
  - constructor.
    + apply IH. intros y Hy. apply Hn. now right.
    + apply Forall_app. split; [assumption|].
      constructor; [apply Hn; now left|constructor].
Qed.

Lemma sorted_filter f l : enqueue_order l -> enqueue_order (filter f l).
Proof.
  unfold enqueue_order. induction 1 as [|x l Hl IH Hx]; cbn; [constructor|].
  destruct (f x); [|assumption]. constructor; [assumption|].
  apply Forall_forall. intros y Hy. apply filter_In in Hy.
  rewrite Forall_forall in Hx. apply Hx. tauto.
Qed.

Lemma OrderInv_init : OrderInv init.
Proof.
  constructor; cbn; try contradiction.
  - constructor.
Qed.

Lemma OrderInv_with_isOnline s b : OrderInv s -> OrderInv (with_isOnline s b).
Proof. intros O. constructor; cbn; apply O. Qed.

Lemma OrderInv_syncQueue s : Inv s -> OrderInv s -> OrderInv (syncQueue s).
Proof.
  intros I O.
  destruct (syncQueue_cases s) as [[-> _]|(_ & f & rest & E & ->)];
    [assumption|].
  set (pm := filter (has_status s pending) (queue s)) in *.
  assert (Hpm : forall r, In r pm <->
                          In r (queue s) /\ status (heap s r) = pending).
  { intros r. unfold pm. rewrite filter_In, has_status_true. tauto. }
  constructor; cbn [queue passes sends heap next with_send with_passes
                      with_heap].
  - apply (ord_queue O).
  - intros p Hp. apply in_app_or in Hp. destruct Hp as [Hp|[<-|[]]].
    + now apply (ord_passes O).
    + unfold pass_refs. cbn. rewrite <- E. apply sorted_filter, (ord_queue O).
  - intros r Hr Hs. unfold all_pass_refs.
    cbn [passes with_send with_passes with_heap]. rewrite flat_map_app.
    apply in_or_app. destruct (in_dec Nat.eq_dec r pm) as [Hp|Hp].
    + right. change (In r ((f :: rest) ++ [])). now rewrite app_nil_r, <- E.
    + left. rewrite forEach_out in Hs by assumption.
      now apply (ord_syncing O).
  - intros r [<-|Hr]; [|now apply (ord_sends O)].
    apply (inv_alloc_queue I). apply Hpm. rewrite E. now left.
Qed.

Lemma OrderInv_sendSettled s p o w :
  Inv s -> OrderInv s -> OrderInv (sendSettled s p o w).
Proof.
  intros I O. destruct (nth_error (passes s) p) as [pass|] eqn:Hp;
    [|now rewrite sendSettled_none].
  destruct (sendSettled_shape s p o w Hp)
    as (l1 & l2 & Hl & Hrefs & Hheap & Hqueue & Hnext & _).
  destruct (sendSettled_passes s p o w Hp) as (l1' & l2' & Hl' & Hcase).
  pose proof (all_pass_refs_split s _ _ _ Hl) as Hold.
  pose proof (inv_nodup_passes I) as Hnd. rewrite Hold in Hnd.
  set (s' := sendSettled s p o w) in *.
  assert (Hpass : In pass (passes s))
    by (rewrite Hl; apply in_or_app; right; now left).
  assert (Hcs : status (heap s (current pass)) = syncing).
  { apply (inv_syncing I). rewrite Hold. apply in_or_app. right. now left. }
  constructor.
  - rewrite Hqueue. destruct o; [|apply sorted_filter]; apply (ord_queue O).
  - intros q Hq. destruct Hcase as [(_ & Hps & _)|(nxt & rest & Hr & Hps & _)];
      rewrite Hps in Hq; apply in_app_or in Hq.
    + apply (ord_passes O). rewrite Hl'. apply in_or_app.
      destruct Hq; [now left|right; now right].
    + destruct Hq as [Hq|[<-|Hq]].
      * apply (ord_passes O). rewrite Hl'. apply in_or_app. now left.
      * pose proof (ord_passes O pass Hpass) as Hs. unfold pass_refs in *.
        rewrite Hr in Hs. cbn. now apply StronglySorted_inv in Hs.
      * apply (ord_passes O). rewrite Hl'. apply in_or_app. right. now right.
  - intros r Hr Hs. rewrite Hrefs.
    assert (Hne : r <> current pass).
    { intros ->. rewrite Hqueue, Hheap in *. destruct o as [e|].
      - rewrite update_eq, on_failure_status in Hs.
        destruct (MAX_RETRIES <=? _); discriminate.
      - apply filter_In in Hr. destruct Hr as [_ Hr].
        rewrite String.eqb_refl in Hr. discriminate. }
    assert (Hq : In r (queue s)).
    { rewrite Hqueue in Hr. destruct o; [assumption|].
      apply filter_In in Hr. tauto. }
    assert (Hs0 : status (heap s r) = syncing).
    { rewrite Hheap in Hs. destruct o; [|assumption].
      now rewrite update_neq in Hs. }
    pose proof (ord_syncing O r Hq Hs0) as Hin. rewrite Hold in Hin.
    apply in_app_or in Hin. apply in_or_app.
    destruct Hin as [Hin|[Hin|Hin]]; [now left|congruence|now right].
  - rewrite Hnext. intros r Hr.
    destruct Hcase as [(_ & _ & Hs)|(nxt & rest & Hrem & _ & Hs)];
      rewrite Hs in Hr; [now apply (ord_sends O)|].
    destruct Hr as [<-|Hr]; [|now apply (ord_sends O)].
    apply (inv_alloc_passes I). rewrite Hold. apply in_or_app. right. right.
    apply in_or_app. left. rewrite Hrem. now left.
Qed.

Lemma OrderInv_step s e : Inv s -> OrderInv s -> OrderInv (step s e).
Proof.
  intros I O. destruct e as [sid m now| |p o w| | |mid|c|off]; cbn [step].
  - constructor; cbn.
    + apply sorted_snoc; [apply (ord_queue O)|apply (inv_alloc_queue I)].
    + apply (ord_passes O).
    + intros r Hr Hs. apply in_app_or in Hr. destruct Hr as [Hr|[<-|[]]].
      * pose proof (inv_alloc_queue I r Hr).
        rewrite update_neq in Hs by lia. now apply (ord_syncing O).
      * rewrite update_eq in Hs. discriminate.
    + intros r Hr. apply (ord_sends O) in Hr. lia.
  - now apply OrderInv_syncQueue.
  - now apply OrderInv_sendSettled.
  - constructor; cbn; try apply O.
    intros r Hr Hs. unfold forEach in Hs. destruct (mem r _); [discriminate|].
    now apply (ord_syncing O).
  - constructor; cbn; try apply O; [constructor|contradiction].
  - constructor; cbn; try apply O.
    + apply sorted_filter, (ord_queue O).
    + intros r Hr Hs. apply filter_In in Hr. apply (ord_syncing O); tauto.
  - unfold networkListener. destruct (_ && _);
      [apply OrderInv_syncQueue; [now apply Inv_with_isOnline|]|];
      now apply OrderInv_with_isOnline.
  - unfold setOfflineMode. destruct (isOnline _);
      [apply OrderInv_syncQueue; [now apply Inv_with_isOnline|]|];
      now apply OrderInv_with_isOnline.
Qed.

Lemma OrderInv_run es : forall s, Inv s -> OrderInv s -> OrderInv (run s es).
Proof.
  induction es as [|e es IH]; intros s I O; [assumption|].
  change (run s (e :: es)) with (run (step s e) es).
  apply IH; [now apply Inv_step|now apply OrderInv_step].
Qed.

(** X3.  Messages are kept and visited in enqueue order: in every
    reachable state the queue lists its messages in the order in which they
    were queued, and every suspended pass holds the message it is delivering
    followed by those it has still to send in that same order. *)
Theorem queue_keeps_enqueue_order (es : list Event) :
  let s := run init es in
  enqueue_order (queue s) /\
  (forall p, In p (passes s) -> enqueue_order (current p :: remaining p)) /\
  (forall sid m now,
     queue (queueMessage s sid m now) = queue s ++ [next s] /\
     forall r, In r (queue s) -> r < next s).
Proof.
  intros s.
  assert (I : Inv s) by (apply Inv_run, Inv_init).
  assert (O : OrderInv s) by (apply OrderInv_run; [apply Inv_init|apply OrderInv_init]).
  split; [apply (ord_queue O)|]. split; [apply (ord_passes O)|].
  intros sid m now. split; [reflexivity|apply (inv_alloc_queue I)].
Qed.

(** *** What one turn can reach *)

Lemma all_pass_refs_app s ps :
  all_pass_refs (with_passes s ps) = flat_map pass_refs ps.
Proof. reflexivity. Qed.

(** A turn sends only messages that are queued or held by a pass, queues
    only the new message, and lets passes hold only messages that were
    queued or already held. *)
Lemma step_footprint s e :
  exists added,
    sends (step s e) = added ++ sends s /\
    (forall r, In r added -> In r (queue s) \/ In r (all_pass_refs s)) /\
    (forall r, In r (queue (step s e)) -> In r (queue s) \/ r = next s) /\
    (forall r, In r (all_pass_refs (step s e)) ->
       In r (all_pass_refs s) \/ In r (queue s)) /\
    next s <= next (step s e).
Proof.
  assert (Hsync : forall s0,
    exists added,
      sends (syncQueue s0) = added ++ sends s0 /\
      (forall r, In r added -> In r (queue s0) \/ In r (all_pass_refs s0)) /\
      (forall r, In r (queue (syncQueue s0)) ->
         In r (queue s0) \/ r = next s0) /\
      (forall r, In r (all_pass_refs (syncQueue s0)) ->
         In r (all_pass_refs s0) \/ In r (queue s0)) /\
      next s0 <= next (syncQueue s0)).
  { intros s0.
    destruct (syncQueue_cases s0) as [[-> _]|(_ & f & rest & E & ->)].
    - exists []. repeat split; auto; contradiction.
    - assert (Hf : forall r, In r (f :: rest) -> In r (queue s0)).
      { intros r Hr. rewrite <- E in Hr. apply filter_In in Hr. tauto. }
      exists [f]. cbn [sends queue next with_send with_passes with_heap].
      split; [reflexivity|]. split.
      { intros r [<-|[]]. left. apply Hf. now left. }
      split; [auto|]. split; [|lia].
      intros r Hr. unfold all_pass_refs in Hr.
      cbn [passes with_send with_passes with_heap] in Hr.
      rewrite flat_map_app in Hr. apply in_app_or in Hr.
      destruct Hr as [Hr|Hr]; [now left|right].
      apply Hf. change (In r ((f :: rest) ++ [])) in Hr.
      now rewrite app_nil_r in Hr. }
  destruct e as [sid m now| |p o w| | |mid|c|off]; cbn [step].
  - exists []. split; [reflexivity|]. split; [intros r []|].
    split; [|split; [intros r Hr; left; exact Hr|cbn; lia]].
    intros r Hr. cbn in Hr. apply in_app_or in Hr.
    destruct Hr as [Hr|[<-|[]]]; auto.
  - apply Hsync.
  - destruct (nth_error (passes s) p) as [pass|] eqn:Hp.
    2:{ rewrite sendSettled_none by assumption. exists [].
        split; [reflexivity|]. split; [intros r []|]. auto. }
    destruct (sendSettled_shape s p o w Hp)
      as (l1 & l2 & Hl & Hrefs & _ & Hqueue & Hnext & _).
    destruct (sendSettled_passes s p o w Hp) as (l1' & l2' & _ & Hcase).
    pose proof (all_pass_refs_split s _ _ _ Hl) as Hold.
    assert (Hsub : forall r, In r (all_pass_refs (sendSettled s p o w)) ->
                             In r (all_pass_refs s)).
    { intros r. rewrite Hrefs, Hold. rewrite !in_app_iff. cbn.
      rewrite in_app_iff. tauto. }
    assert (Hq : forall r, In r (queue (sendSettled s p o w)) ->
                           In r (queue s)).
    { intros r. rewrite Hqueue. destruct o; [auto|].
      rewrite filter_In. tauto. }
    destruct Hcase as [(_ & _ & Hs)|(nxt & rest & Hrem & _ & Hs)].
    + exists []. rewrite Hs, Hnext. split; [reflexivity|].
      split; [intros r []|]. auto.
    + exists [nxt]. rewrite Hs, Hnext. split; [reflexivity|].
      split; [|auto].
      intros r [<-|[]]. right. rewrite Hold. apply in_or_app. right. right.
      apply in_or_app. left. rewrite Hrem. now left.
  - exists []. split; [reflexivity|]. split; [intros r []|].
    split; [intros r Hr; cbn in Hr; tauto|].
    split; [intros r Hr; left; exact Hr|cbn; lia].
  - exists []. split; [reflexivity|]. split; [intros r []|].
    split; [intros r Hr; cbn in Hr; tauto|].
    split; [intros r Hr; left; exact Hr|cbn; lia].
  - exists []. split; [reflexivity|]. split; [intros r []|].
    split; [|split; [intros r Hr; left; exact Hr|cbn; lia]].
    intros r Hr. cbn in Hr. apply filter_In in Hr. tauto.
  - unfold networkListener. destruct (_ && _).
    + apply (Hsync (with_isOnline s _)).
    + exists []. split; [reflexivity|]. split; [intros r []|].
      split; [intros r Hr; cbn in Hr; tauto|].
      split; [intros r Hr; left; exact Hr|cbn; lia].
  - unfold setOfflineMode. destruct (isOnline _).
    + apply (Hsync (with_isOnline s _)).
    + exists []. split; [reflexivity|]. split; [intros r []|].
      split; [intros r Hr; cbn in Hr; tauto|].
      split; [intros r Hr; left; exact Hr|cbn; lia].
Qed.

Lemma gone_stays_gone es : forall s r,
  Inv s ->
  ~ In r (queue s) -> ~ In r (all_pass_refs s) -> r < next s ->
  exists added, sends (run s es) = added ++ sends s /\ ~ In r added.
Proof.
  induction es as [|e es IH]; intros s r I Hq Hp Hn.
  - exists []. split; [reflexivity|auto].
  - change (run s (e :: es)) with (run (step s e) es).
    destruct (step_footprint s e) as (a1 & Hs1 & Ha1 & Hq1 & Hp1 & Hn1).
    destruct (IH (step s e) r) as (a2 & Hs2 & Ha2).
    + now apply Inv_step.
    + intros H. apply Hq1 in H. destruct H; [contradiction|lia].
    + intros H. apply Hp1 in H. tauto.
    + lia.
    + exists (a2 ++ a1). rewrite Hs2, Hs1, app_assoc. split; [reflexivity|].
      intros H. apply in_app_or in H. destruct H as [H|H]; [contradiction|].
      apply Ha1 in H. tauto.
Qed.

(** X5.  A message whose delivery succeeded is never sent again: from any
    reachable state in which a pass is delivering a message, once that
    delivery resolves no later turn of any kind calls [sendMessage] on that
    message. *)
Theorem delivered_is_never_resent (es0 es : list Event) (p : nat)
    (pass : Pass) (w : option Date) :
  let s := run init es0 in
  nth_error (passes s) p = Some pass ->
  let s1 := sendSettled s p None w in
  exists added,
    sends (run s1 es) = added ++ sends s1 /\ ~ In (current pass) added.
Proof.
  intros s Hp s1.
  assert (I : Inv s) by (apply Inv_run, Inv_init).
  destruct (sendSettled_shape s p None w Hp)
    as (l1 & l2 & Hl & Hrefs & _ & Hqueue & Hnext & _).
  pose proof (all_pass_refs_split s _ _ _ Hl) as Hold.
  apply gone_stays_gone.
  - now apply Inv_sendSettled.
  - fold s1 in Hqueue. rewrite Hqueue, filter_In, String.eqb_refl.
    intros [_ H]. discriminate.
  - fold s1 in Hrefs. rewrite Hrefs. apply NoDup_remove_2.
    rewrite <- Hold. apply (inv_nodup_passes I).
  - fold s1 in Hnext. rewrite Hnext. apply (inv_alloc_passes I).
    rewrite Hold. apply in_or_app. right. now left.
Qed.

Lemma delivered_is_never_resent_witness :
  exists added,
    sends (run (sendSettled (run init one_queued) 0 None (Some 20%Z))
               [QueueMessage "s" msgB 11; SyncQueue; RetryFailed; SyncQueue])
    = added ++ sends (sendSettled (run init one_queued) 0 None (Some 20%Z))
    /\ ~ In 0 added.
Proof.
  apply (@delivered_is_never_resent one_queued
           [QueueMessage "s" msgB 11; SyncQueue; RetryFailed; SyncQueue]
           0 {| current := 0; remaining := [] |} (Some 20%Z)).
  reflexivity.
Defined.

(** *** The number of attempts *)

Lemma attempts_fresh s r : OrderInv s -> next s <= r -> attempts s r = 0.
Proof.
  intros O Hr. unfold attempts. apply count_occ_not_In. intros Hin.
  apply (ord_sends O) in Hin. lia.
Qed.

Lemma attempts_cons s r x :
  count_occ Nat.eq_dec (x :: sends s) r =
  (if Nat.eqb x r then 1 else 0) + attempts s r.
Proof.
  unfold attempts. cbn. destruct (Nat.eq_dec x r) as [->|Hne].
  - now rewrite Nat.eqb_refl.
  - apply Nat.eqb_neq in Hne. now rewrite Hne.
Qed.

Lemma AttemptInv_init : AttemptInv init.
Proof. constructor; intros r; cbn; intros; lia. Qed.

Lemma AttemptInv_with_isOnline s b :
  AttemptInv s -> AttemptInv (with_isOnline s b).
Proof. intros A. constructor; intros r; apply A. Qed.

Lemma AttemptInv_syncQueue s :
  Inv s -> AttemptInv s -> AttemptInv (syncQueue s).
Proof.
  intros I A.
  destruct (syncQueue_cases s) as [[-> _]|(_ & f & rest & E & ->)];
    [assumption|].
  set (pm := filter (has_status s pending) (queue s)) in *.
  assert (Hpm : forall r, In r pm <->
                          In r (queue s) /\ status (heap s r) = pending).
  { intros r. unfold pm. rewrite filter_In, has_status_true. tauto. }
  assert (Hnd : NoDup (f :: rest)).
  { rewrite <- E. apply NoDup_filter, (inv_nodup_queue I). }
  assert (Hpend : forall r, In r pm -> attempts s r <= retryCount (heap s r)).
  { intros r Hr. apply (att_waiting A). left. apply Hpm in Hr.
    destruct Hr as [_ Hr]. rewrite Hr. discriminate. }
  assert (Hrc : forall r,
             retryCount (forEach pm (fun msg => set_status msg syncing)
                           (heap s) r) = retryCount (heap s r)).
  { intros r. unfold forEach. destruct (mem r pm); reflexivity. }
  constructor; intros r; unfold attempts, waiting;
    cbn [sends passes heap with_send with_passes with_heap];
    rewrite attempts_cons, Hrc.
  - destruct (Nat.eqb_spec f r) as [<-|Hne].
    + assert (In f pm) by (rewrite E; now left).
      specialize (Hpend f H). lia.
    + pose proof (att_le A r). lia.
  - rewrite flat_map_app. cbn [flat_map remaining]. rewrite app_nil_r.
    intros Hprem. destruct (Nat.eqb_spec f r) as [<-|Hne].
    + exfalso. destruct Hprem as [Hs|Hw].
      * apply Hs. rewrite forEach_in by (rewrite E; now left). reflexivity.
      * apply in_app_or in Hw. destruct Hw as [Hw|Hw].
        -- apply remaining_sub in Hw. apply (inv_syncing I) in Hw.
           assert (Hf : In f pm) by (rewrite E; now left).
           apply Hpm in Hf. destruct Hf as [_ Hf]. congruence.
        -- inversion Hnd. contradiction.
    + cbn [Nat.add]. destruct (in_dec Nat.eq_dec r pm) as [Hp|Hp];
        [now apply Hpend|].
      apply (att_waiting A). destruct Hprem as [Hs|Hw].
      * left. now rewrite forEach_out in Hs.
      * apply in_app_or in Hw. destruct Hw as [Hw|Hw]; [now right|].
        exfalso. apply Hp. rewrite E. now right.
Qed.

Lemma sendSettled_full s p pass o w :
  nth_error (passes s) p = Some pass ->
  let s' := sendSettled s p o w in
  exists l1 l2,
    passes s = l1 ++ pass :: l2 /\
    heap s' = match o with
              | None => heap s
              | Some e => update (heap s) (current pass)
                            (on_failure (heap s (current pass)) e)
              end /\
    ((remaining pass = [] /\ passes s' = l1 ++ l2 /\ sends s' = sends s) \/
     (exists nxt rest,
        remaining pass = nxt :: rest /\
        passes s' = l1 ++ {| current := nxt; remaining := rest |} :: l2 /\
        sends s' = nxt :: sends s)).
Proof.
  intros Hp s'. destruct (nth_error_split _ _ Hp) as (l1 & l2 & Hl & Hlen).
  exists l1, l2. split; [assumption|].
  subst s'. unfold sendSettled. rewrite Hp.
  destruct pass as [c rem]. cbn [current remaining].
  destruct rem as [|nxt rest].
  - split; [destruct o, w; reflexivity|]. left. split; [reflexivity|].
    destruct o as [e|], w as [d|]; cbn; rewrite Hl, <- Hlen, remove_nth_app;
      split; reflexivity.
  - split; [destruct o; reflexivity|]. right. exists nxt, rest.
    split; [reflexivity|].
    destruct o as [e|]; cbn; rewrite Hl, <- Hlen, replace_nth_app;
      split; reflexivity.
Qed.

Lemma AttemptInv_sendSettled s p o w :
  Inv s -> AttemptInv s -> AttemptInv (sendSettled s p o w).
Proof.
  intros I A. destruct (nth_error (passes s) p) as [pass|] eqn:Hp;
    [|now rewrite sendSettled_none].
  destruct (sendSettled_full s p o w Hp) as (l1 & l2 & Hl & Hheap & Hcase).
  pose proof (all_pass_refs_split s _ _ _ Hl) as Hold.
  pose proof (inv_nodup_passes I) as Hnd. rewrite Hold in Hnd.
  set (s' := sendSettled s p o w) in *.
  set (c := current pass) in *.
  assert (Hc_refs : In c (all_pass_refs s)).
  { rewrite Hold. apply in_or_app. right. now left. }
  (* the retry counter after the turn *)
  assert (Hrc : forall r, retryCount (heap s r) <= retryCount (heap s' r)).
  { intros r. rewrite Hheap. destruct o as [e|]; [|lia].
    destruct (Nat.eq_dec r c) as [->|Hne].
    - rewrite update_eq, on_failure_retryCount. lia.
    - rewrite update_neq by assumption. lia. }
  assert (Hother : forall r, r <> c -> heap s' r = heap s r).
  { intros r Hne. rewrite Hheap. destruct o; [|reflexivity].
    now apply update_neq. }
  (* the messages still waiting after the turn *)
  assert (Hwait : forall r, waiting s' r ->
            waiting s r /\ r <> c /\
            (forall nxt rest, remaining pass = nxt :: rest -> r <> nxt)).
  { intros r Hw. unfold waiting in *. rewrite Hl.
    rewrite flat_map_app. cbn [flat_map]. rewrite !in_app_iff.
    assert (Hpos : In r (flat_map remaining l1) \/
                   (exists nxt rest, remaining pass = nxt :: rest /\ In r rest)
                   \/ In r (flat_map remaining l2)).
    { destruct Hcase as [(_ & Hps & _)|(nxt & rest & Hrem & Hps & _)];
        rewrite Hps, flat_map_app in Hw; apply in_app_or in Hw.
      - tauto.
      - destruct Hw as [Hw|Hw]; [tauto|]. cbn in Hw. apply in_app_or in Hw.
        destruct Hw as [Hw|Hw]; [|tauto].
        right. left. exists nxt, rest. tauto. }
    destruct Hpos as [H1|[(nxt & rest & Hrem & H2)|H3]].
    - pose proof (remaining_sub _ _ H1) as H1'. split; [tauto|]. split.
      + intros ->. apply NoDup_remove_2 in Hnd. apply Hnd.
        apply in_or_app. now left.
      + intros n t Hrem ->.
        apply NoDup_remove_1 in Hnd. rewrite Hrem in Hnd.
        apply NoDup_remove_2 in Hnd. apply Hnd. apply in_or_app. now left.
    - split; [rewrite Hrem; right; left; now right|]. split.
      + intros ->. apply NoDup_remove_2 in Hnd. apply Hnd.
        apply in_or_app. right. apply in_or_app. left. rewrite Hrem.
        now right.
      + intros n t Hrem' ->. rewrite Hrem in Hrem'. inversion Hrem'; subst.
        apply NoDup_remove_1 in Hnd. rewrite Hrem in Hnd.
        apply NoDup_remove_2 in Hnd. apply Hnd. apply in_or_app. right.
        apply in_or_app. now left.
    - pose proof (remaining_sub _ _ H3) as H3'. split; [tauto|]. split.
      + intros ->. apply NoDup_remove_2 in Hnd. apply Hnd.
        apply in_or_app. right. apply in_or_app. now right.
      + intros n t Hrem ->.
        apply NoDup_remove_1 in Hnd. rewrite Hrem in Hnd.
        apply NoDup_remove_2 in Hnd. apply Hnd. apply in_or_app. right.
        apply in_or_app. now right. }
  (* the attempts after the turn *)
  assert (Hatt : forall r,
            (attempts s' r = attempts s r /\
             forall nxt rest, remaining pass = nxt :: rest -> r <> nxt) \/
            (attempts s' r = S (attempts s r) /\ waiting s r /\ r <> c /\
             (exists rest, remaining pass = r :: rest))).
  { intros r. destruct Hcase as [(Hrem & _ & Hs)|(nxt & rest & Hrem & _ & Hs)].
    - left. unfold attempts. rewrite Hs. split; [reflexivity|].
      intros n t Hn. congruence.
    - unfold attempts at 1 3. rewrite Hs, attempts_cons.
      destruct (Nat.eqb_spec nxt r) as [<-|Hne].
      + right. split; [reflexivity|]. split.
        * unfold waiting. rewrite Hl, flat_map_app. apply in_or_app. right.
          cbn. apply in_or_app. left. rewrite Hrem. now left.
        * split; [|now exists rest].
          intros Heq. apply NoDup_remove_2 in Hnd. apply Hnd.
          apply in_or_app. right. apply in_or_app. left.
          rewrite Hrem, <- Heq. now left.
      + left. split; [reflexivity|]. intros n t Hn. congruence. }
  constructor; intros r.
  - destruct (Hatt r) as [[-> _]|(-> & Hw & _ & _)].
    + pose proof (att_le A r). specialize (Hrc r). lia.
    + pose proof (att_waiting A r (or_intror Hw)). specialize (Hrc r). lia.
  - intros Hprem. destruct (Hatt r) as [[-> Hnn]|(-> & Hw & Hne & rest & Hrem)].
    + destruct (Nat.eq_dec r c) as [->|Hne].
      * destruct o as [e|].
        -- rewrite Hheap, update_eq, on_failure_retryCount.
           apply (att_le A).
        -- exfalso. destruct Hprem as [Hs|Hw].
           ++ apply Hs. rewrite Hheap. now apply (inv_syncing I).
           ++ apply Hwait in Hw. tauto.
      * rewrite (Hother r Hne). apply (att_waiting A).
        destruct Hprem as [Hs|Hw]; [left; now rewrite <- (Hother r Hne)|].
        right. apply Hwait in Hw. tauto.
    + exfalso. destruct Hprem as [Hs|Hw'].
      * apply Hs. rewrite (Hother r Hne). apply (inv_syncing I).
        now apply remaining_sub.
      * apply Hwait in Hw'. destruct Hw' as (_ & _ & Hn).
        now apply (Hn r rest).
Qed.

Lemma AttemptInv_step s e :
  Inv s -> OrderInv s -> is_retry e = false ->
  AttemptInv s -> AttemptInv (step s e).
Proof.
  intros I O Hre A. destruct e as [sid m now| |p o w| | |mid|c|off];
    cbn [step]; try discriminate.
  - constructor; intros r; unfold attempts, waiting; cbn [sends passes heap queueMessage].
    + destruct (Nat.eq_dec r (next s)) as [->|Hne].
      * fold (attempts s (next s)). rewrite attempts_fresh by auto. lia.
      * rewrite update_neq by assumption. apply (att_le A).
    + destruct (Nat.eq_dec r (next s)) as [->|Hne].
      * intros _. fold (attempts s (next s)).
        rewrite attempts_fresh by auto. lia.
      * rewrite update_neq by assumption. apply (att_waiting A).
  - now apply AttemptInv_syncQueue.
  - now apply AttemptInv_sendSettled.
  - constructor; intros r; apply A.
  - constructor; intros r; apply A.
  - unfold networkListener. destruct (_ && _);
      [apply AttemptInv_syncQueue; [now apply Inv_with_isOnline|]|];
      now apply AttemptInv_with_isOnline.
  - unfold setOfflineMode. destruct (isOnline _);
      [apply AttemptInv_syncQueue; [now apply Inv_with_isOnline|]|];
      now apply AttemptInv_with_isOnline.
Qed.

Lemma AttemptInv_run es : forall s,
  Inv s -> OrderInv s -> AttemptInv s ->
  forallb (fun e => negb (is_retry e)) es = true ->
  AttemptInv (run s es).
Proof.
  induction es as [|e es IH]; intros s I O A Hes; [assumption|].
  change (run s (e :: es)) with (run (step s e) es).
  cbn in Hes. apply andb_prop in Hes. destruct Hes as [He Hes].
  apply negb_true_iff in He.
  apply IH; auto using Inv_step, OrderInv_step, AttemptInv_step.
Qed.

(** X6.  Without a user retry, no message is sent more than
    [MAX_RETRIES = 3] times: along every run from the initial state that has
    no [retryFailed], the number of calls of [sendMessage] on a message is at
    most one more than its [retryCount], and at most three. *)
Theorem at_most_three_attempts (es : list Event) (r : ref) :
  forallb (fun e => negb (is_retry e)) es = true ->
  let s := run init es in
  attempts s r <= S (retryCount (heap s r)) /\
  attempts s r <= MAX_RETRIES.
Proof.
  intros Hes s.
  assert (I : Inv s) by (apply Inv_run, Inv_init).
  assert (A : AttemptInv s)
    by (apply AttemptInv_run;
        auto using Inv_init, OrderInv_init, AttemptInv_init).
  split; [apply (att_le A)|].
  pose proof (att_le A r) as Hle. pose proof (inv_retry_le I r) as Hrc.
  destruct (Nat.eq_dec (retryCount (heap s r)) MAX_RETRIES) as [Heq|Hne];
    [|lia].
  rewrite <- Heq. apply (att_waiting A). left.
  apply (inv_failed I) in Heq. rewrite Heq. discriminate.
Qed.

Lemma at_most_three_attempts_witness :
  attempts (run init (one_queued ++ three_rejections)) 0 <= MAX_RETRIES.
Proof.
  apply (at_most_three_attempts (one_queued ++ three_rejections) 0).
  reflexivity.
Defined.

(** The bound is reached: after three rejections the message has been sent
    three times. *)
Example three_rejections_three_attempts :
  attempts (run init (one_queued ++ three_rejections)) 0 = 3.
Proof. vm_compute. reflexivity. Qed.

(** *** [getQueuedMessages] *)

(** X7.  In a reachable state, a message that has just been queued is the
    last entry of [getQueuedMessages] for its session, after the entries
    that were there; the lists of the other sessions do not change; and no
    listed message is failed. *)
Theorem getQueuedMessages_after_queueMessage (es : list Event)
    (sid sid' : string) (m : Message) (now : Date) :
  let s := run init es in
  getQueuedMessages (queueMessage s sid m now) sid' =
    getQueuedMessages s sid'
    ++ (if String.eqb sid sid' then [new_message sid m now] else []) /\
  (forall q, In q (getQueuedMessages s sid') ->
     sessionId q = sid' /\ status q <> failed).
Proof.
  intros s. assert (I : Inv s) by (apply Inv_run, Inv_init).
  split.
  - unfold getQueuedMessages.
    cbn [queue heap queueMessage]. fold (new_message sid m now).
    rewrite filter_app, map_app. f_equal.
    + assert (Hsame : forall r, In r (queue s) ->
                update (heap s) (next s) (new_message sid m now) r = heap s r).
      { intros r Hr. apply update_neq. apply (inv_alloc_queue I) in Hr. lia. }
      rewrite (filter_ext_in _
                 (fun q => String.eqb (sessionId (heap s q)) sid'
                           && negb (Status_eqb (status (heap s q)) failed))).
      * apply map_ext_in. intros r Hr. apply filter_In in Hr.
        apply Hsame. tauto.
      * intros r Hr. now rewrite Hsame.
    + cbn [filter]. rewrite update_eq. cbn [sessionId status new_message].
      cbn [Status_eqb negb]. rewrite andb_true_r.
      destruct (String.eqb sid sid'); cbn; [now rewrite update_eq|reflexivity].
  - intros q Hq. unfold getQueuedMessages in Hq. apply in_map_iff in Hq.
    destruct Hq as (r & <- & Hr). apply filter_In in Hr.
    destruct Hr as [_ Hr]. apply andb_prop in Hr. destruct Hr as [H1 H2].
    apply String.eqb_eq in H1. split; [assumption|].
    apply negb_true_iff in H2. intros Hs. rewrite Hs in H2. discriminate.
Qed.
End QueueExtra.

(** ** The offline queue after a restart *)

Section QueueStartFacts.
Import OfflineQueueService QueueInv QueueStart.

Lemma StartInv_init : StartInv init [].
Proof. constructor; cbn; intros; contradiction. Qed.

Lemma StartInv_with_isOnline s b orph :
  StartInv s orph -> StartInv (with_isOnline s b) orph.
Proof. intros I. constructor; cbn; apply I. Qed.

Lemma StartInv_with_queue s q orph :
  (forall r, In r q -> In r (queue s)) ->
  StartInv s orph -> StartInv (with_queue s q) orph.
Proof.
  intros Hq I. constructor; cbn [queue heap next sends with_queue].
  - apply (si_alloc_passes I).
  - intros r Hr. apply (si_alloc_queue I). now apply Hq.
  - apply (si_alloc_sends I).
  - intros r Hr. apply (si_syncing I). now apply Hq.
  - apply (si_orphans I).
Qed.

Lemma StartInv_syncQueue s orph :
  StartInv s orph -> StartInv (syncQueue s) orph.
Proof.
  intros I. destruct (syncQueue_cases s) as [[-> _]|(_ & f & rest & E & ->)];
    [assumption|].
  set (pm := filter (has_status s pending) (queue s)) in *.
  assert (Hpm : forall r, In r pm <->
                          In r (queue s) /\ status (heap s r) = pending).
  { intros r. unfold pm. rewrite filter_In, has_status_true. tauto. }
  assert (Hf : In f pm) by (rewrite E; now left).
  assert (Hrefs : all_pass_refs
                    (with_send
                       (with_passes
                          (with_heap s
                             (forEach pm (fun msg => set_status msg syncing)
                                (heap s)))
                          (passes s ++ [{| current := f; remaining := rest |}]))
                       f) = all_pass_refs s ++ pm).
  { unfold all_pass_refs. cbn. rewrite flat_map_app. cbn.
    unfold pass_refs at 2. cbn. rewrite app_nil_r, E. reflexivity. }
  constructor; rewrite ?Hrefs;
    cbn [queue heap next sends with_send with_passes with_heap].
  - intros r Hr. apply in_app_or in Hr. destruct Hr as [Hr|Hr].
    + now apply (si_alloc_passes I).
    + apply (si_alloc_queue I). now apply Hpm.
  - apply (si_alloc_queue I).
  - intros r [<-|Hr]; [|now apply (si_alloc_sends I)].
    apply (si_alloc_queue I). now apply Hpm.
  - intros r Hr Hs. destruct (in_dec Nat.eq_dec r pm) as [Hp|Hp].
    + left. apply in_or_app. now right.
    + rewrite forEach_out in Hs by assumption.
      destruct (si_syncing I r Hr Hs) as [H|H]; [left|now right].
      apply in_or_app. now left.
  - intros r Hr. destruct (si_orphans I r Hr) as (Hs & Hp & Hse & Hn).
    assert (Hnp : ~ In r pm).
    { intros H. apply Hpm in H. destruct H as [_ H]. congruence. }
    rewrite forEach_out by assumption.
    split; [assumption|]. split.
    { intros H. apply in_app_or in H. tauto. }
    split; [|assumption].
    intros [<-|H]; tauto.
Qed.

Lemma StartInv_sendSettled s p o w orph :
  StartInv s orph -> StartInv (sendSettled s p o w) orph.
Proof.
  intros I. destruct (nth_error (passes s) p) as [pass|] eqn:Hp.
  2:{ now rewrite sendSettled_none. }
  destruct (sendSettled_shape s p o w Hp)
    as (l1 & l2 & Hl & Hrefs & Hheap & Hqueue & Hnext & _).
  destruct (sendSettled_passes s p o w Hp) as (l1' & l2' & _ & Hcase).
  pose proof (all_pass_refs_split s _ _ _ Hl) as Hold.
  set (c := current pass) in *.
  assert (Hc : In c (all_pass_refs s)).
  { rewrite Hold. apply in_or_app. right. now left. }
  assert (Hsub : forall r, In r (all_pass_refs (sendSettled s p o w)) ->
                           In r (all_pass_refs s)).
  { intros r. rewrite Hrefs, Hold. rewrite !in_app_iff. cbn.
    rewrite in_app_iff. tauto. }
  assert (Hkeep : forall r, In r (all_pass_refs s) -> r <> c ->
                            In r (all_pass_refs (sendSettled s p o w))).
  { intros r. rewrite Hrefs, Hold. rewrite !in_app_iff. cbn.
    rewrite in_app_iff. intros [H|[H|[H|H]]] Hne; auto. congruence. }
  assert (Hq : forall r, In r (queue (sendSettled s p o w)) ->
                         In r (queue s)).
  { intros r. rewrite Hqueue. destruct o; [auto|].
    rewrite filter_In. tauto. }
  assert (Hsends : forall r, In r (sends (sendSettled s p o w)) ->
                             In r (sends s) \/ In r (all_pass_refs s)).
  { intros r Hr.
    destruct Hcase as [(_ & _ & Hs)|(nxt & rest & Hrem & _ & Hs)];
      rewrite Hs in Hr; [now left|].
    destruct Hr as [<-|Hr]; [right|now left].
    rewrite Hold. apply in_or_app. right. right. apply in_or_app. left.
    rewrite Hrem. now left. }
  constructor; rewrite ?Hnext.
  - intros r Hr. apply (si_alloc_passes I). now apply Hsub.
  - intros r Hr. apply (si_alloc_queue I). now apply Hq.
  - intros r Hr. destruct (Hsends r Hr) as [H|H].
    + now apply (si_alloc_sends I).
    + now apply (si_alloc_passes I).
  - intros r Hr Hs. rewrite Hheap in Hs.
    assert (Hne : r <> c).
    { intros ->. destruct o as [e|].
      - rewrite update_eq, on_failure_status in Hs.
        destruct (MAX_RETRIES <=? _); discriminate.
      - rewrite Hqueue in Hr. apply filter_In in Hr. destruct Hr as [_ Hr].
        rewrite String.eqb_refl in Hr. discriminate. }
    assert (Hs' : status (heap s r) = syncing).
    { destruct o; [now rewrite update_neq in Hs|exact Hs]. }
    destruct (si_syncing I r (Hq r Hr) Hs') as [H|H]; [left|now right].
    now apply Hkeep.
  - intros r Hr. destruct (si_orphans I r Hr) as (Hs & Hpn & Hse & Hn).
    assert (Hne : r <> c) by (intros ->; contradiction).
    split.
    { rewrite Hheap. destruct o; [now rewrite update_neq|exact Hs]. }
    split; [intros H; apply Hpn; now apply Hsub|].
    split; [|assumption].
    intros H. destruct (Hsends r H); contradiction.
Qed.

Lemma StartInv_retryFailed s orph :
  StartInv s orph -> StartInv (retryFailed s) orph.
Proof.
  intros I. unfold retryFailed.
  set (fm := filter (has_status s failed) (queue s)).
  assert (Hfm : forall r, In r fm -> status (heap s r) = failed).
  { intros r Hr. apply filter_In in Hr. now apply has_status_true. }
  constructor; cbn [queue heap next sends with_heap].
  - apply (si_alloc_passes I).
  - apply (si_alloc_queue I).
  - apply (si_alloc_sends I).
  - intros r Hr Hs. destruct (in_dec Nat.eq_dec r fm) as [Hf|Hf].
    + rewrite forEach_in in Hs by assumption. discriminate.
    + rewrite forEach_out in Hs by assumption. now apply (si_syncing I).
  - intros r Hr. destruct (si_orphans I r Hr) as (Hs & Hpn & Hse & Hn).
    rewrite forEach_out; [tauto|].
    intros Hf. apply Hfm in Hf. congruence.
Qed.

Lemma StartInv_queueMessage s sid m now orph :
  StartInv s orph -> StartInv (queueMessage s sid m now) orph.
Proof.
  intros I. constructor; cbn [queue heap next sends queueMessage].
  - intros r Hr. apply (si_alloc_passes I) in Hr. lia.
  - intros r Hr. apply in_app_or in Hr. destruct Hr as [Hr|[<-|[]]]; [|lia].
    apply (si_alloc_queue I) in Hr. lia.
  - intros r Hr. apply (si_alloc_sends I) in Hr. lia.
  - intros r Hr Hs. apply in_app_or in Hr. destruct Hr as [Hr|[<-|[]]].
    + rewrite update_neq in Hs
        by (apply (si_alloc_queue I) in Hr; lia).
      now apply (si_syncing I).
    + rewrite update_eq in Hs. discriminate.
  - intros r Hr. destruct (si_orphans I r Hr) as (Hs & Hpn & Hse & Hn).
    rewrite update_neq by lia. repeat split; try assumption. lia.
Qed.

Lemma StartInv_step s e orph : StartInv s orph -> StartInv (step s e) orph.
Proof.
  intros I. destruct e as [sid m now| |p o w| | |mid|c|off]; cbn [step].
  - now apply StartInv_queueMessage.
  - now apply StartInv_syncQueue.
  - now apply StartInv_sendSettled.
  - now apply StartInv_retryFailed.
  - apply StartInv_with_queue; [intros r []|assumption].
  - apply StartInv_with_queue; [|assumption].
    intros r Hr. apply filter_In in Hr. tauto.
  - unfold networkListener. destruct (_ && _).
    + now apply StartInv_syncQueue, StartInv_with_isOnline.
    + now apply StartInv_with_isOnline.
  - unfold setOfflineMode. destruct (isOnline _).
    + now apply StartInv_syncQueue, StartInv_with_isOnline.
    + now apply StartInv_with_isOnline.
Qed.

Lemma loaded_heap_old h n items r : r < n -> loaded_heap h n items r = h r.
Proof.
  intros H. unfold loaded_heap.
  destruct (Nat.leb_spec n r); [lia|reflexivity].
Qed.

Lemma StartInv_loadQueue s items orph :
  StartInv s orph ->
  StartInv (loadQueue s (Item items))
    (orph ++ loaded_as_syncing s (QueueLoaded (Item items))).
Proof.
  intros I. cbn [loaded_as_syncing turn].
  constructor; cbn [queue heap next sends passes loadQueue].
  - intros r Hr. change (In r (all_pass_refs s)) in Hr.
    apply (si_alloc_passes I) in Hr. lia.
  - intros r Hr. apply in_seq in Hr. lia.
  - intros r Hr. apply (si_alloc_sends I) in Hr. lia.
  - intros r Hr Hs. right. apply in_or_app. right.
    apply filter_In. split; [exact Hr|]. now apply has_status_true.
  - intros r Hr. change (all_pass_refs (loadQueue s (Item items)))
      with (all_pass_refs s).
    apply in_app_or in Hr. destruct Hr as [Hr|Hr].
    + destruct (si_orphans I r Hr) as (Hs & Hpn & Hse & Hn).
      rewrite loaded_heap_old by assumption.
      repeat split; try assumption. lia.
    + apply filter_In in Hr. destruct Hr as [Hq Hs].
      apply has_status_true in Hs. cbn [queue heap loadQueue] in Hq, Hs.
      apply in_seq in Hq.
      split; [exact Hs|]. split.
      { intros H. apply (si_alloc_passes I) in H. lia. }
      split; [|lia].
      intros H. apply (si_alloc_sends I) in H. lia.
Qed.

Lemma StartInv_turn s t orph :
  StartInv s orph -> StartInv (turn s t) (orph ++ loaded_as_syncing s t).
Proof.
  intros I. destruct t as [e|[|items|]|c].
  - cbn [turn loaded_as_syncing]. rewrite app_nil_r.
    now apply StartInv_step.
  - cbn [turn loaded_as_syncing loadQueue]. now rewrite app_nil_r.
  - now apply StartInv_loadQueue.
  - cbn [turn loaded_as_syncing loadQueue]. now rewrite app_nil_r.
  - cbn [turn loaded_as_syncing]. rewrite app_nil_r.
    now apply StartInv_with_isOnline.
Qed.

Lemma StartInv_lifetime ts : forall s orph,
  StartInv s orph -> StartInv (lifetime s ts) (orph ++ orphans s ts).
Proof.
  induction ts as [|t ts IH]; intros s orph I.
  - cbn. now rewrite app_nil_r.
  - change (lifetime s (t :: ts)) with (lifetime (turn s t) ts).
    cbn [orphans]. rewrite app_assoc. now apply IH, StartInv_turn.
Qed.

Lemma orphans_without_load ts : forall s,
  existsb is_load ts = false -> orphans s ts = [].
Proof.
  induction ts as [|t ts IH]; intros s H; [reflexivity|].
  cbn [existsb] in H. apply orb_false_iff in H. destruct H as [Ht H].
  cbn [orphans]. rewrite IH by assumption.
  destruct t as [e|q|c]; try reflexivity. discriminate Ht.
Qed.

(** X4.  Over a lifetime that may load a stored queue: a queued message
    whose status is syncing either belongs to a suspended pass or was loaded
    with that status.  A message loaded as syncing keeps that status, is in
    no pass and is never sent; so [getSyncStatus] can report [isSyncing]
    while no call of [syncQueue] is in progress, and it does so only for
    such a message.  In a lifetime without a load, a syncing message always
    belongs to a suspended pass. *)
Theorem syncing_means_in_a_pass_or_loaded (ts : list Turn) :
  let s := lifetime init ts in
  (forall r, In r (queue s) -> status (heap s r) = syncing ->
     In r (all_pass_refs s) \/ In r (orphans init ts)) /\
  (forall r, In r (orphans init ts) ->
     status (heap s r) = syncing /\ ~ In r (all_pass_refs s) /\
     ~ In r (sends s)) /\
  (forall s0 st, getSyncStatus s0 s = Resolved st -> isSyncing st = true ->
     passes s <> [] \/
     exists r, In r (queue s) /\ In r (orphans init ts)) /\
  (existsb is_load ts = false ->
   forall r, In r (queue s) -> status (heap s r) = syncing ->
     In r (all_pass_refs s)).
Proof.
  intros s.
  assert (I : StartInv s (orphans init ts)).
  { apply (StartInv_lifetime ts StartInv_init). }
  split; [apply (si_syncing I)|]. split.
  { intros r Hr. destruct (si_orphans I r Hr) as (H1 & H2 & H3 & _). tauto. }
  split.
  - intros s0 st Hst Hsync. unfold getSyncStatus in Hst.
    assert (Hex : existsb (has_status s syncing) (queue s) = true).
    { destruct (stored_sync_status s); inversion Hst; subst st; exact Hsync. }
    apply existsb_exists in Hex. destruct Hex as (r & Hr & Hs).
    apply has_status_true in Hs.
    destruct (si_syncing I r Hr Hs) as [H|H].
    + left. intros Hnil. unfold all_pass_refs in H. rewrite Hnil in H.
      contradiction.
    + right. now exists r.
  - intros Hno r Hr Hs. destruct (si_syncing I r Hr Hs) as [H|H];
      [assumption|].
    rewrite orphans_without_load in H by assumption. contradiction.
Qed.

(** After the restart of [restart] the stale message is still queued as
    syncing; it was never sent and no pass holds it. *)
Lemma syncing_means_in_a_pass_or_loaded_witness :
  let s := lifetime init restart in
  status (heap s 0) = syncing /\ ~ In 0 (all_pass_refs s) /\
  ~ In 0 (sends s).
Proof.
  apply (proj1 (proj2 (syncing_means_in_a_pass_or_loaded restart))).
  vm_compute. left. reflexivity.
Defined.

Example restart_reports_syncing :
  let s := lifetime init restart in
  queue s = [0] /\ passes s = [] /\ sends s = [1] /\
  exists st, getSyncStatus s s = Resolved st /\
             isSyncing st = true /\ pendingCount st = 0 /\
             failedCount st = 0.
Proof.
  cbv zeta. split; [reflexivity|]. split; [reflexivity|].
  split; [reflexivity|]. eexists. split; [reflexivity|].
  split; [reflexivity|]. split; reflexivity.
Qed.
End QueueStartFacts.


(** * Further properties of the vector database *)

Module JsMapMore.
Section Facts.
Variable V : Type.
Implicit Types m : JsMap.t V.

Lemma get_set_same m k v : JsMap.get (JsMap.set m k v) k = Some v.
Proof.
  induction m as [|[k' v'] m IH]; cbn.
  - now rewrite String.eqb_refl.
  - destruct (String.eqb_spec k' k) as [->|Hne]; cbn.
    + now rewrite String.eqb_refl.
    + apply String.eqb_neq in Hne. now rewrite Hne.
Qed.

Lemma get_set_other m k v k' :
  k' <> k -> JsMap.get (JsMap.set m k v) k' = JsMap.get m k'.
Proof.
  intros Hne. induction m as [|[k0 v0] m IH]; cbn.
  - apply not_eq_sym, String.eqb_neq in Hne. now rewrite Hne.
  - destruct (String.eqb_spec k0 k) as [->|Hk]; cbn.
    + apply not_eq_sym, String.eqb_neq in Hne. now rewrite Hne.
    + now rewrite IH.
Qed.

Lemma get_none m k : JsMap.get m k = None <-> ~ In k (JsMap.keys m).
Proof.
  induction m as [|[k' v'] m IH]; cbn; [tauto|].
  destruct (String.eqb_spec k' k) as [->|Hne].
  - split; [discriminate|tauto].
  - rewrite IH. tauto.
Qed.

Lemma get_In m k v : JsMap.get m k = Some v -> In (k, v) m.
Proof.
  induction m as [|[k' v'] m IH]; cbn; [discriminate|].
  destruct (String.eqb_spec k' k) as [->|Hne].
  - intros H. inversion H. now left.
  - intros H. right. now apply IH.
Qed.

Lemma In_get m k v : JsMap.wf m -> In (k, v) m -> JsMap.get m k = Some v.
Proof.
  unfold JsMap.wf, JsMap.keys.
  induction m as [|[k' v'] m IH]; cbn; intros Hwf Hin; [contradiction|].
  inversion Hwf as [|x l Hx Hl]; subst.
  destruct Hin as [Heq|Hin].
  - inversion Heq; subst. now rewrite String.eqb_refl.
  - destruct (String.eqb_spec k' k) as [->|Hne]; [|now apply IH].
    exfalso. apply Hx. apply in_map_iff. now exists (k, v).
Qed.

Lemma set_keys m k v :
  JsMap.keys (JsMap.set m k v) =
  if existsb (String.eqb k) (JsMap.keys m) then JsMap.keys m
  else JsMap.keys m ++ [k].
Proof.
  unfold JsMap.keys. induction m as [|[k' v'] m IH]; cbn; [reflexivity|].
  rewrite (String.eqb_sym k k').
  destruct (String.eqb_spec k' k) as [->|Hne]; cbn; [reflexivity|].
  rewrite IH. now destruct (existsb _ _).
Qed.

Lemma set_wf m k v : JsMap.wf m -> JsMap.wf (JsMap.set m k v).
Proof.
  unfold JsMap.wf. intros H. rewrite set_keys.
  destruct (existsb (String.eqb k) (JsMap.keys m)) eqn:E; [assumption|].
  apply NoDup_app; [assumption|repeat constructor; auto|].
  intros x Hx [<-|[]].
  assert (existsb (String.eqb k) (JsMap.keys m) = true); [|congruence].
  apply existsb_exists. exists k. split; [assumption|apply String.eqb_refl].
Qed.

Lemma filter_all (A : Type) (f : A -> bool) (l : list A) :
  (forall x, In x l -> f x = true) -> filter f l = l.
Proof.
  induction l as [|x l IH]; cbn; intros H; [reflexivity|].
  rewrite H by now left. f_equal. apply IH. intros y Hy. apply H. now right.
Qed.

(** On a map, [delete] drops the one entry with the key. *)
Lemma delete_filter m k :
  JsMap.wf m ->
  JsMap.delete m k = filter (fun kv => negb (String.eqb (fst kv) k)) m.
Proof.
  unfold JsMap.wf, JsMap.keys.
  induction m as [|[k' v'] m IH]; cbn; intros Hwf; [reflexivity|].
  inversion Hwf as [|x l Hx Hl]; subst.
  destruct (String.eqb_spec k' k) as [->|Hne]; cbn.
  - symmetry. apply filter_all. intros [k1 v1] Hin. cbn.
    apply negb_true_iff, String.eqb_neq. intros ->. apply Hx.
    apply in_map_iff. now exists (k, v1).
  - f_equal. now apply IH.
Qed.

Lemma filter_wf m f : JsMap.wf m -> JsMap.wf (filter f m).
Proof.
  unfold JsMap.wf, JsMap.keys.
  induction m as [|[k v] m IH]; cbn; intros Hwf; [constructor|].
  inversion Hwf as [|x l Hx Hl]; subst.
  destruct (f (k, v)); cbn; [|now apply IH].
  constructor; [|now apply IH].
  intros Hin. apply Hx. apply in_map_iff in Hin.
  destruct Hin as (kv & Hk & Hin). apply filter_In in Hin.
  apply in_map_iff. exists kv. tauto.
Qed.

Lemma delete_all m : forall ks,
  JsMap.wf m ->
  fold_left (fun m key => JsMap.delete m key) ks m =
  filter (fun kv => negb (existsb (String.eqb (fst kv)) ks)) m.
Proof.
  intros ks. revert m. induction ks as [|k ks IH]; intros m Hwf; cbn.
  - symmetry. now apply filter_all.
  - rewrite delete_filter by assumption.
    rewrite IH by now apply filter_wf.
    induction m as [|[k1 v1] m IHm]; cbn; [reflexivity|].
    unfold JsMap.wf, JsMap.keys in Hwf. cbn in Hwf.
    inversion Hwf as [|x l Hx Hl]; subst.
    destruct (String.eqb k1 k) eqn:E; cbn.
    + now apply IHm.
    + destruct (existsb (String.eqb k1) ks); cbn; [|f_equal]; now apply IHm.
Qed.
End Facts.
End JsMapMore.

Section VectorGeneral.
Import VectorDatabase VectorSpec VectorMore.

Lemma skipn_In (A : Type) (x : A) n : forall l, In x (skipn n l) -> In x l.
Proof.
  induction n as [|n IH]; intros [|y l]; cbn; try tauto.
  intros H. right. now apply IH.
Qed.

Lemma slice_In (A : Type) (x : A) (l : list A) a b :
  In x (slice l a b) -> In x l.
Proof. unfold slice. intros H. apply firstn_In in H. now apply skipn_In in H. Qed.



Lemma initialize_is_initialized st : initialized (initialize st) = true.
Proof.
  unfold initialize. destruct (initialized st) eqn:E; [assumption|].
  destruct (stored_vector_db st), (stored_embedding_cache st); reflexivity.
Qed.

Lemma similar_to_In e text exclude docs p :
  In p (similar_to e text exclude docs) <->
  In (fst p) (JsMap.values docs) /\
  excluded exclude (fst p) = false /\
  String.eqb (doc_content (fst p)) text = false /\
  snd p = cosineSimilarity e (doc_embedding (fst p)) /\
  (7 / 10 < snd p)%R.
Proof.
  unfold similar_to. rewrite in_flat_map. split.
  - intros (d & Hd & Hp).
    destruct (excluded exclude d) eqn:Ex; [contradiction|].
    destruct (String.eqb (doc_content d) text) eqn:Ec; [contradiction|].
    cbn in Hp. destruct (Rlt_dec _ _) as [Hlt|]; [|contradiction].
    destruct Hp as [<-|[]]. cbn. auto.
  - intros (Hd & Ex & Ec & Hs & Hlt). exists (fst p).
    split; [assumption|]. rewrite Ex, Ec. cbn. rewrite <- Hs.
    destruct (Rlt_dec _ _); [|contradiction]. left. now destruct p.
Qed.

End VectorGeneral.

Section VectorExtra.
Import VectorDatabase VectorSpec VectorExamples VectorMore JsMapFacts JsMapMore.

Variable createEmbedding : nat -> string -> option (list number).
Variable setItem_ok : nat -> bool.

Lemma saveToStorage_initialized st :
  initialized (saveToStorage setItem_ok st) = initialized st.
Proof.
  unfold saveToStorage. destruct (setItem_ok (writes st)); [|reflexivity].
  cbv zeta. destruct (1000 <? _); destruct (setItem_ok _); reflexivity.
Qed.

(** Every result of [search] is the projection of a stored document. *)
Lemma search_results_from_docs st query limit rs r :
  snd (search createEmbedding st query limit) = Resolved rs ->
  In r rs ->
  exists d, In d (JsMap.values (documents (initialize st))) /\
            sessionId r = doc_sessionId d /\ messageId r = doc_messageId d /\
            content r = doc_content d.
Proof using createEmbedding.
  rewrite search_cases. cbv zeta.
  destruct (_ =? 0); [intros H; inversion H; subst; contradiction|].
  destruct (negb _); [discriminate|].
  destruct (createEmbedding _ _) as [q|];
    [|intros H; inversion H; subst; contradiction].
  cbn [snd]. intros H Hr. inversion H; subst. clear H.
  apply in_map_iff in Hr. destruct Hr as ([d sc] & <- & Hin).
  apply slice_In in Hin.
  apply (Permutation_in _ (sort_perm by_score _)) in Hin.
  unfold score_all in Hin. apply in_map_iff in Hin.
  destruct Hin as (d' & Heq & Hd). inversion Heq; subst.
  exists d. cbn. auto.
Qed.

(** What [findSimilar] ranks: [None] when it rejects or gives up. *)
Lemma findSimilar_results st text exclude limit rs :
  snd (findSimilar createEmbedding st text exclude limit) = Resolved rs ->
  rs = [] \/
  exists e,
    rs = map to_result
           (slice
              (sort by_score
                 (similar_to e text exclude (documents (initialize st))))
              0 (Some (default_limit limit 5))).
Proof using createEmbedding.
  unfold findSimilar. cbv zeta.
  destruct (negb _); [discriminate|].
  destruct (JsMap.get _ _) as [e|].
  - cbn. intros H. inversion H. right. now exists e.
  - destruct (createEmbedding _ _) as [e|]; cbn; intros H; inversion H.
    + right. now exists e.
    + now left.
Qed.


(** *** [removeSession] *)

Lemma removeSession_documents st sid :
  JsMap.wf (documents (initialize st)) ->
  documents (removeSession setItem_ok st sid) =
  filter (fun kv => negb (String.eqb (doc_sessionId (snd kv)) sid))
    (documents (initialize st)).
Proof.
  intros Hwf. unfold removeSession. cbv zeta.
  rewrite saveToStorage_documents. cbn [documents with_documents].
  rewrite delete_all by assumption. apply filter_ext_in.
  intros [k d] Hin. cbn [fst snd]. f_equal.
  set (m := documents (initialize st)) in *. unfold JsMap.entries.
  destruct (String.eqb (doc_sessionId d) sid) eqn:E.
  - apply existsb_exists. exists k. split; [|apply String.eqb_refl].
    apply in_map_iff. exists (k, d). split; [reflexivity|].
    apply filter_In. now split.
  - destruct (existsb _ _) eqn:Ex; [|reflexivity].
    apply existsb_exists in Ex. destruct Ex as (k' & Hk' & Heq).
    apply String.eqb_eq in Heq. subst k'.
    apply in_map_iff in Hk'. destruct Hk' as ([k1 d1] & Hk1 & Hin1).
    cbn in Hk1. subst k1. apply filter_In in Hin1. destruct Hin1 as [Hin1 Hs].
    cbn in Hs. apply (In_get _ _ Hwf) in Hin, Hin1. congruence.
Qed.

(** X9.  [removeSession] removes exactly the documents of the session: the
    documents of every other session stay, in their order, and afterwards
    neither [search] nor [findSimilar] returns a result of that session. *)
Theorem removeSession_removes (st : State) (sid : string) :
  JsMap.wf (documents (initialize st)) ->
  let st' := removeSession setItem_ok st sid in
  documents st' =
    filter (fun kv => negb (String.eqb (doc_sessionId (snd kv)) sid))
      (documents (initialize st)) /\
  (forall d, In d (JsMap.values (documents st')) -> doc_sessionId d <> sid) /\
  (forall query limit rs,
     snd (search createEmbedding st' query limit) = Resolved rs ->
     forall r, In r rs -> sessionId r <> sid) /\
  (forall text exclude limit rs,
     snd (findSimilar createEmbedding st' text exclude limit) = Resolved rs ->
     forall r, In r rs -> sessionId r <> sid).
Proof.
  intros Hwf st'.
  pose proof (removeSession_documents st sid Hwf) as Hdocs. fold st' in Hdocs.
  assert (Hgone : forall d, In d (JsMap.values (documents st')) ->
                            doc_sessionId d <> sid).
  { intros d Hd. rewrite Hdocs in Hd. unfold JsMap.values in Hd.
    apply in_map_iff in Hd. destruct Hd as ([k d'] & <- & Hin).
    apply filter_In in Hin. destruct Hin as [_ Hs]. cbn in *.
    apply negb_true_iff in Hs. now apply String.eqb_neq. }
  assert (Hinit : initialize st' = st').
  { apply initialize_initialized. subst st'. unfold removeSession.
    rewrite saveToStorage_initialized. apply initialize_is_initialized. }
  split; [exact Hdocs|]. split; [exact Hgone|]. split.
  - intros query limit rs Hrs r Hr.
    destruct (@search_results_from_docs st' query limit rs r Hrs Hr) as (d & Hd & Hsid & _).
    rewrite Hsid.
    rewrite Hinit in Hd. now apply Hgone.
  - intros text exclude limit rs Hrs r Hr.
    apply findSimilar_results in Hrs. destruct Hrs as [->|(e & ->)];
      [contradiction|].
    apply in_map_iff in Hr. destruct Hr as (p & <- & Hp).
    apply slice_In in Hp.
    apply (Permutation_in _ (sort_perm by_score _)) in Hp.
    apply similar_to_In in Hp. destruct Hp as (Hd & _). cbn.
    rewrite Hinit in Hd. now apply Hgone.
Qed.

(** *** [indexSession] *)

Lemma index_message_docs session st m :
  documents (index_message createEmbedding session st m) = documents st \/
  exists e,
    documents (index_message createEmbedding session st m) =
    JsMap.set (documents st) (docId_of session m) (make_doc session m e).
Proof using createEmbedding.
  unfold index_message. cbv zeta.
  destruct (unchanged _ _); [now left|].
  destruct (JsMap.get (embeddingCache st) _) as [e|].
  - right. now exists e.
  - destruct (createEmbedding _ _) as [e|]; [right; now exists e|now left].
Qed.

Lemma index_message_get_other session st m k :
  k <> docId_of session m ->
  JsMap.get (documents (index_message createEmbedding session st m)) k =
  JsMap.get (documents st) k.
Proof using createEmbedding.
  intros Hne. destruct (index_message_docs session st m) as [->|(e & ->)];
    [reflexivity|]. now apply get_set_other.
Qed.

Lemma index_message_keeps session st m k d :
  JsMap.get (documents st) k = Some d ->
  exists d',
    JsMap.get (documents (index_message createEmbedding session st m)) k
    = Some d'.
Proof using createEmbedding.
  intros H. destruct (index_message_docs session st m) as [->|(e & ->)];
    [now exists d|].
  destruct (String.eqb_spec k (docId_of session m)) as [->|Hne].
  - rewrite get_set_same. eauto.
  - rewrite get_set_other by assumption. eauto.
Qed.

Lemma index_message_wf session st m :
  JsMap.wf (documents st) ->
  JsMap.wf (documents (index_message createEmbedding session st m)).
Proof using createEmbedding.
  intros H. destruct (index_message_docs session st m) as [->|(e & ->)];
    [assumption|]. now apply set_wf.
Qed.

Lemma index_message_indexed session st m :
  never_fails createEmbedding ->
  exists d,
    JsMap.get (documents (index_message createEmbedding session st m))
      (docId_of session m) = Some d /\
    doc_content d = msg_content m.
Proof using createEmbedding.
  intros Hnf. unfold index_message. cbv zeta.
  destruct (JsMap.get (documents st) (docId_of session m)) as [d|] eqn:Hget;
    cbn [unchanged].
  - destruct (String.eqb_spec (doc_content d) (msg_content m)) as [Hc|Hc].
    + exists d. split; assumption.
    + destruct (JsMap.get (embeddingCache st) _) as [e|].
      * cbn. rewrite get_set_same. eauto.
      * destruct (createEmbedding _ _) as [e|] eqn:Ece;
          [|now apply Hnf in Ece].
        cbn. rewrite get_set_same. eauto.
  - destruct (JsMap.get (embeddingCache st) _) as [e|].
    + cbn. rewrite get_set_same. eauto.
    + destruct (createEmbedding _ _) as [e|] eqn:Ece;
        [|now apply Hnf in Ece].
      cbn. rewrite get_set_same. eauto.
Qed.

Lemma index_loop_get_other session k : forall ms st,
  ~ In k (map (docId_of session) ms) ->
  JsMap.get
    (documents (fold_left (index_message createEmbedding session) ms st)) k
  = JsMap.get (documents st) k.
Proof using createEmbedding.
  induction ms as [|m ms IH]; intros st Hk; [reflexivity|].
  cbn [fold_left]. rewrite IH by (intros H; apply Hk; now right).
  apply index_message_get_other. intros ->. apply Hk. now left.
Qed.

Lemma index_loop_keeps session k : forall ms st d,
  JsMap.get (documents st) k = Some d ->
  exists d',
    JsMap.get
      (documents (fold_left (index_message createEmbedding session) ms st)) k
    = Some d'.
Proof using createEmbedding.
  induction ms as [|m ms IH]; intros st d H; [now exists d|].
  cbn [fold_left].
  destruct (index_message_keeps session st m k H) as (d' & Hd').
  now apply (IH _ d').
Qed.

Lemma index_loop_wf session : forall ms st,
  JsMap.wf (documents st) ->
  JsMap.wf
    (documents (fold_left (index_message createEmbedding session) ms st)).
Proof using createEmbedding.
  induction ms as [|m ms IH]; intros st H; [assumption|].
  cbn [fold_left]. apply IH. now apply index_message_wf.
Qed.

Lemma index_loop_indexed session : forall ms st,
  never_fails createEmbedding ->
  NoDup (map (docId_of session) ms) ->
  forall m, In m ms ->
    exists d,
      JsMap.get
        (documents (fold_left (index_message createEmbedding session) ms st))
        (docId_of session m) = Some d /\
      doc_content d = msg_content m.
Proof using createEmbedding.
  induction ms as [|m0 ms IH]; intros st Hnf Hnd m Hm; [contradiction|].
  cbn [fold_left]. cbn in Hnd. inversion Hnd as [|x l Hx Hl]; subst.
  destruct Hm as [->|Hm]; [|now apply IH].
  rewrite index_loop_get_other by assumption.
  now apply index_message_indexed.
Qed.

(** X10.  With an OpenAI instance, a provider that does not fail and
    message ids that give distinct document ids, [indexSession] resolves
    and leaves, for every message of the session, a document under its id
    that holds its text.  Indexing the same session again right away calls
    the provider no more and changes no document. *)
Theorem indexSession_indexes_every_message (st : State) (session : Session) :
  openAIInstance (initialize st) = true ->
  never_fails createEmbedding ->
  NoDup (map (docId_of session) (session_messages session)) ->
  let r := indexSession createEmbedding setItem_ok st session in
  let r2 := indexSession createEmbedding setItem_ok (fst r) session in
  snd r = Resolved tt /\
  (forall m, In m (session_messages session) ->
     exists d,
       JsMap.get (documents (fst r)) (docId_of session m) = Some d /\
       doc_content d = msg_content m) /\
  embedCalls (fst r2) = embedCalls (fst r) /\
  documents (fst r2) = documents (fst r).
Proof.
  intros Hai Hnf Hnd r r2.
  assert (Hr : r = (saveToStorage setItem_ok
                      (fold_left (index_message createEmbedding session)
                         (session_messages session) (initialize st)),
                    Resolved tt)).
  { subst r. unfold indexSession. cbv zeta. now rewrite Hai. }
  assert (Hdocs : forall m, In m (session_messages session) ->
     exists d,
       JsMap.get (documents (fst r)) (docId_of session m) = Some d /\
       doc_content d = msg_content m).
  { intros m Hm. rewrite Hr. cbn [fst]. rewrite saveToStorage_documents.
    now apply index_loop_indexed. }
  assert (Hinit : initialize (fst r) = fst r).
  { apply initialize_initialized. rewrite Hr. cbn [fst].
    rewrite saveToStorage_initialized.
    clear. generalize (initialize_is_initialized st).
    generalize (initialize st). generalize (session_messages session).
    induction l as [|m ms IH]; intros s Hs; [assumption|].
    cbn [fold_left]. apply IH. unfold index_message. cbv zeta.
    destruct (unchanged _ _); [assumption|].
    destruct (JsMap.get _ _); [assumption|].
    destruct (createEmbedding _ _); assumption. }
  assert (Hai2 : openAIInstance (fst r) = true).
  { rewrite Hr. cbn [fst]. revert Hai. clear.
    unfold saveToStorage.
    generalize (initialize st). generalize (session_messages session).
    induction l as [|m ms IH]; intros s Hs.
    - cbn [fold_left]. destruct (setItem_ok _); [|assumption]. cbv zeta.
      destruct (1000 <? _); destruct (setItem_ok _); assumption.
    - cbn [fold_left]. apply IH. unfold index_message. cbv zeta.
      destruct (unchanged _ _); [assumption|].
      destruct (JsMap.get _ _); [assumption|].
      destruct (createEmbedding _ _); assumption. }
  split; [now rewrite Hr|]. split; [exact Hdocs|].
  subst r2. unfold indexSession. cbv zeta. rewrite Hinit, Hai2. cbn [negb fst].
  rewrite saveToStorage_embedCalls, saveToStorage_documents.
  rewrite index_loop_unchanged by assumption. split; reflexivity.
Qed.

(** X11.  [indexSession] touches only the documents of the session at
    hand: a document under an id that is not the id of one of its messages
    is exactly as [initialize] left it, no document is ever deleted, and the
    keys of the map stay unique.  This holds whatever the provider does. *)
Theorem indexSession_frame (st : State) (session : Session) :
  let st0 := initialize st in
  let st' := fst (indexSession createEmbedding setItem_ok st session) in
  (forall k, ~ In k (map (docId_of session) (session_messages session)) ->
     JsMap.get (documents st') k = JsMap.get (documents st0) k) /\
  (forall k d, JsMap.get (documents st0) k = Some d ->
     exists d', JsMap.get (documents st') k = Some d') /\
  (JsMap.wf (documents st0) -> JsMap.wf (documents st')).
Proof.
  intros st0 st'. subst st'. unfold indexSession. fold st0. cbv zeta.
  destruct (negb (openAIInstance st0)); cbn [fst].
  - split; [reflexivity|]. split; [eauto|auto].
  - rewrite saveToStorage_documents. split; [|split].
    + intros k Hk. now apply index_loop_get_other.
    + intros k d H. now apply (index_loop_keeps session k _ _ H).
    + apply index_loop_wf.
Qed.

(** *** The embedding cache during [indexSession] *)

Lemma index_message_cache session st m :
  never_fails createEmbedding ->
  exists newkeys,
    JsMap.keys (embeddingCache (index_message createEmbedding session st m))
    = JsMap.keys (embeddingCache st) ++ newkeys /\
    embedCalls (index_message createEmbedding session st m)
    = embedCalls st + length newkeys /\
    incl newkeys [msg_content m] /\
    NoDup newkeys /\
    (forall t, In t newkeys -> ~ In t (JsMap.keys (embeddingCache st))).
Proof using createEmbedding.
  intros Hnf. unfold index_message. cbv zeta.
  destruct (unchanged _ _).
  { exists []. rewrite app_nil_r, Nat.add_0_r.
    repeat split; auto using incl_nil_l. constructor. }
  destruct (JsMap.get (embeddingCache st) (msg_content m)) as [e|] eqn:Hget.
  { exists []. cbn. rewrite app_nil_r, Nat.add_0_r.
    repeat split; auto using incl_nil_l. constructor. }
  destruct (createEmbedding _ _) as [e|] eqn:Ece; [|now apply Hnf in Ece].
  exists [msg_content m]. cbn [embeddingCache embedCalls with_documents
                                with_embeddingCache count_embedCall length].
  apply get_none in Hget. rewrite set_fresh by assumption.
  unfold JsMap.keys in *. rewrite map_app. cbn.
  split; [reflexivity|]. split; [lia|]. split; [apply incl_refl|].
  split; [repeat constructor; auto|].
  intros t [<-|[]]. assumption.
Qed.

Lemma index_loop_cache session : forall ms st,
  never_fails createEmbedding ->
  exists newkeys,
    JsMap.keys
      (embeddingCache (fold_left (index_message createEmbedding session) ms st))
    = JsMap.keys (embeddingCache st) ++ newkeys /\
    embedCalls (fold_left (index_message createEmbedding session) ms st)
    = embedCalls st + length newkeys /\
    incl newkeys (map msg_content ms) /\
    NoDup newkeys /\
    (forall t, In t newkeys -> ~ In t (JsMap.keys (embeddingCache st))).
Proof using createEmbedding.
  induction ms as [|m ms IH]; intros st Hnf.
  - exists []. cbn. rewrite app_nil_r, Nat.add_0_r.
    repeat split; auto using incl_nil_l. constructor.
  - cbn [fold_left].
    destruct (index_message_cache session st m Hnf)
      as (n1 & Hk1 & Hc1 & Hi1 & Hnd1 & Hf1).
    destruct (IH (index_message createEmbedding session st m) Hnf)
      as (n2 & Hk2 & Hc2 & Hi2 & Hnd2 & Hf2).
    exists (n1 ++ n2). rewrite Hk2, Hk1, Hc2, Hc1, length_app, app_assoc.
    split; [reflexivity|]. split; [lia|]. split; [|split].
    + intros t Ht. apply in_app_or in Ht. destruct Ht as [Ht|Ht].
      * apply Hi1 in Ht. destruct Ht as [<-|[]]. now left.
      * right. now apply Hi2.
    + apply NoDup_app; [assumption|assumption|].
      intros t Ht1 Ht2. apply Hf2 in Ht2. apply Ht2.
      rewrite Hk1. apply in_or_app. now right.
    + intros t Ht. apply in_app_or in Ht. destruct Ht as [Ht|Ht];
        [now apply Hf1|].
      intros Hin. apply Hf2 in Ht. apply Ht. rewrite Hk1.
      apply in_or_app. now left.
Qed.

(** X12.  With a provider that does not fail, [indexSession] calls it at
    most once for each distinct message text of the session, and never for
    a text that is already in the cache: a text that occurs in several
    messages is embedded once. *)
Theorem indexSession_embeds_each_text_once (st : State) (session : Session) :
  never_fails createEmbedding ->
  let st0 := initialize st in
  let st' := fst (indexSession createEmbedding setItem_ok st session) in
  exists embedded,
    embedCalls st' = embedCalls st + length embedded /\
    NoDup embedded /\
    incl embedded (texts_of session) /\
    (forall t, In t embedded -> JsMap.get (embeddingCache st0) t = None) /\
    length embedded <= length (nodup string_dec (texts_of session)).
Proof.
  intros Hnf st0 st'. subst st'. unfold indexSession. fold st0. cbv zeta.
  destruct (negb (openAIInstance st0)); cbn [fst].
  - exists []. subst st0. rewrite initialize_embedCalls, Nat.add_0_r.
    repeat split; auto using incl_nil_l; try constructor; try contradiction.
    cbn. lia.
  - destruct (index_loop_cache session (session_messages session) st0 Hnf)
      as (nk & _ & Hc & Hi & Hnd & Hf).
    exists nk. rewrite saveToStorage_embedCalls, Hc.
    subst st0. rewrite initialize_embedCalls.
    split; [reflexivity|]. split; [assumption|]. split; [exact Hi|].
    split; [intros t Ht; apply get_none; now apply Hf|].
    apply NoDup_incl_length; [assumption|]. now apply nodup_incl.
Qed.

(** *** [clear] *)

(** X13.  [clear] empties both maps even when it rejects, and it resolves
    exactly when both keys could be removed.  On a store that was
    initialised, or whenever the stored documents could be removed, a
    [search] that follows finds nothing and does not call the provider. *)
Theorem clear_empties (st : State) (removed1 removed2 : bool)
    (query : string) (limit : option Z) :
  let c := clear st removed1 removed2 in
  documents (fst c) = [] /\
  embeddingCache (fst c) = [] /\
  (snd c = Resolved tt <-> removed1 = true /\ removed2 = true) /\
  (initialized st = true \/ removed1 = true ->
   snd (search createEmbedding (fst c) query limit) = Resolved [] /\
   embedCalls (fst (search createEmbedding (fst c) query limit))
   = embedCalls st).
Proof using createEmbedding.
  intros c. subst c. unfold clear.
  destruct removed1, removed2; cbn [fst snd].
  all: split; [reflexivity|]; split; [reflexivity|]; split;
    [split; [intros H; try discriminate H; auto|intros [? ?]; congruence]|].
  all: intros Hcond; rewrite search_cases; cbv zeta.
  all: unfold initialize; cbn [initialized stored_vector_db
                               stored_embedding_cache].
  all: destruct (initialized st);
    [cbn; split; reflexivity|].
  all: try (destruct Hcond; discriminate).
  all: destruct (stored_embedding_cache st); cbn; split; reflexivity.
Qed.
End VectorExtra.

(** *** [getSuggestions] *)

Section SuggestionFacts.
Import VectorDatabase VectorMore.

Variable toLowerCase : string -> string.
Variable split_whitespace : string -> list string.
Variable code_units : string -> list nat.

Lemma set_add_In x set w : In w (set_add x set) -> In w set \/ w = x.
Proof.
  unfold set_add. destruct (existsb _ _); [auto|].
  intros H. apply in_app_or in H. destruct H as [H|[<-|[]]]; auto.
Qed.

Lemma set_add_NoDup x set : NoDup set -> NoDup (set_add x set).
Proof.
  intros H. unfold set_add. destruct (existsb _ _) eqn:E; [assumption|].
  apply NoDup_app; [assumption|repeat constructor; auto|].
  intros y Hy [<-|[]].
  assert (existsb (String.eqb x) set = true); [|congruence].
  apply existsb_exists. exists x. split; [assumption|apply String.eqb_refl].
Qed.

Lemma set_add_length x set : length (set_add x set) <= S (length set).
Proof.
  unfold set_add. destruct (existsb _ _); [lia|].
  rewrite length_app. cbn. lia.
Qed.

Lemma scan_words_In q limit (P : string -> Prop) : forall ws set,
  (forall w, In w set -> P w) ->
  (forall w, In w ws -> startsWith code_units w q = true ->
             3 < js_length code_units w -> P w) ->
  forall w, In w (scan_words code_units q limit ws set) -> P w.
Proof.
  induction ws as [|x ws IH]; intros set Hset Hws w; cbn [scan_words];
    [apply Hset|].
  destruct (startsWith code_units x q && (3 <? js_length code_units x)) eqn:E.
  - apply andb_prop in E. destruct E as [E1 E2]. apply Nat.ltb_lt in E2.
    assert (Hadd : forall w, In w (set_add x set) -> P w).
    { intros w0 H0. apply set_add_In in H0. destruct H0 as [H0| ->];
        [now apply Hset|]. apply Hws; auto. now left. }
    destruct (limit <=? _)%Z; [apply Hadd|].
    apply IH; [exact Hadd|]. intros w0 H0. apply Hws. now right.
  - apply IH; [exact Hset|]. intros w0 H0. apply Hws. now right.
Qed.

Lemma scan_words_NoDup q limit : forall ws set,
  NoDup set -> NoDup (scan_words code_units q limit ws set).
Proof.
  induction ws as [|x ws IH]; intros set H; cbn [scan_words]; [assumption|].
  destruct (_ && _); [|now apply IH].
  destruct (limit <=? _)%Z; [|apply IH]; now apply set_add_NoDup.
Qed.

Lemma scan_words_length q limit : forall ws set,
  length set < Z.to_nat (Z.max limit 1) ->
  length (scan_words code_units q limit ws set) <= Z.to_nat (Z.max limit 1).
Proof.
  induction ws as [|x ws IH]; intros set H; cbn [scan_words]; [lia|].
  destruct (_ && _); [|now apply IH].
  pose proof (set_add_length x set) as Hl.
  destruct (Z.leb_spec limit (Z.of_nat (length (set_add x set)))) as [Hb|Hb];
    [lia|].
  apply IH. lia.
Qed.

Lemma scan_docs_In q limit (P : string -> Prop) : forall docs set,
  (forall w, In w set -> P w) ->
  (forall d w, In d docs ->
     In w (split_whitespace (toLowerCase (doc_content d))) ->
     startsWith code_units w q = true -> 3 < js_length code_units w -> P w) ->
  forall w,
    In w (scan_docs toLowerCase split_whitespace code_units q limit docs set) -> P w.
Proof.
  induction docs as [|d docs IH]; intros set Hset Hd w; cbn [scan_docs];
    [apply Hset|].
  assert (Hw : forall w,
             In w (scan_words code_units q limit
                     (split_whitespace (toLowerCase (doc_content d))) set) ->
             P w).
  { apply scan_words_In; [exact Hset|].
    intros w0 H0. apply (Hd d); auto. now left. }
  destruct (limit <=? _)%Z; [apply Hw|].
  apply IH; [exact Hw|]. intros d0 w0 H0. apply Hd. now right.
Qed.

Lemma scan_docs_NoDup q limit : forall docs set,
  NoDup set ->
  NoDup (scan_docs toLowerCase split_whitespace code_units q limit docs set).
Proof.
  induction docs as [|d docs IH]; intros set H; cbn [scan_docs];
    [assumption|].
  destruct (limit <=? _)%Z; [|apply IH]; now apply scan_words_NoDup.
Qed.

Lemma scan_docs_length q limit : forall docs set,
  length set < Z.to_nat (Z.max limit 1) ->
  length (scan_docs toLowerCase split_whitespace code_units q limit docs set)
  <= Z.to_nat (Z.max limit 1).
Proof.
  induction docs as [|d docs IH]; intros set H; cbn [scan_docs]; [lia|].
  pose proof (scan_words_length q limit
                (split_whitespace (toLowerCase (doc_content d))) set H) as Hl.
  destruct (Z.leb_spec limit
              (Z.of_nat
                 (length
                    (scan_words code_units q limit
                       (split_whitespace (toLowerCase (doc_content d)))
                       set)))) as [Hb|Hb]; [assumption|].
  apply IH. lia.
Qed.

(** X14.  [getSuggestions] returns nothing for the empty query and for a
    query of fewer than two UTF-16 code units.  Otherwise every suggestion
    is a word of more than three code units of the lower-cased text of some
    stored document that starts with the lower-cased query; no suggestion
    occurs twice; and there are at most [limit] of them, or at most one
    when [limit < 1].  The call changes nothing beyond what [initialize]
    does. *)
Theorem getSuggestions_spec (st : State) (partialQuery : string)
    (limit : option Z) :
  let r :=
    getSuggestions toLowerCase split_whitespace code_units st partialQuery
      limit in
  (partialQuery = ""%string \/ js_length code_units partialQuery < 2 ->
   snd r = []) /\
  NoDup (snd r) /\
  (forall w, In w (snd r) ->
     startsWith code_units w (toLowerCase partialQuery) = true /\
     3 < js_length code_units w /\
     exists d, In d (JsMap.values (documents (initialize st))) /\
               In w (split_whitespace (toLowerCase (doc_content d)))) /\
  length (snd r) <= Z.to_nat (Z.max (default_limit limit 5) 1) /\
  fst r = initialize st.
Proof.
  intros r. subst r. unfold getSuggestions. cbv zeta.
  destruct (String.eqb partialQuery "" || _) eqn:E; cbn [fst snd].
  - split; [reflexivity|]. split; [constructor|]. split; [intros w []|].
    split; [cbn; lia|reflexivity].
  - apply orb_false_iff in E. destruct E as [E1 E2].
    apply String.eqb_neq in E1. apply Nat.ltb_ge in E2.
    split; [intros [H|H]; [contradiction|lia]|].
    split; [apply scan_docs_NoDup; constructor|].
    split; [|split; [|reflexivity]].
    + apply scan_docs_In; [intros w []|]. intros d w Hd Hw Hp Hl. eauto.
    + apply scan_docs_length. cbn. lia.
Qed.
End SuggestionFacts.


(** * Properties of the embedding provider *)

Section EmbeddingFacts.
Import OpenAIService VectorDatabase VectorSpec.

Variable words_of : string -> list (list nat).










End EmbeddingFacts.

Section EmbeddingChecks.
Import OpenAIService VectorDatabase VectorExamples.

End EmbeddingChecks.


(** * Properties of the session store and of the start-up indexing *)

Section StorageFacts.
Import StorageService.

Lemma assign_lookup id session : forall sessions i,
  session_id session = id ->
  findIndex id sessions = Some i ->
  lookup id (assign i session sessions) = Some session.
Proof.
  unfold lookup.
  induction sessions as [|s ss IH]; intros i Hid Hi; cbn in *; [discriminate|].
  destruct (String.eqb_spec (session_id s) id) as [Hs|Hs].
  - inversion Hi; subst i. cbn. rewrite Hid. now rewrite String.eqb_refl.
  - destruct (findIndex id ss) as [j|]; [|discriminate].
    inversion Hi; subst i. cbn.
    apply String.eqb_neq in Hs. rewrite Hs. now apply (IH j).
Qed.

Lemma assign_lookup_other id session other : forall sessions i,
  session_id session = id -> other <> id ->
  findIndex id sessions = Some i ->
  lookup other (assign i session sessions) = lookup other sessions.
Proof.
  unfold lookup.
  induction sessions as [|s ss IH]; intros i Hid Hne Hi; cbn in *;
    [discriminate|].
  destruct (String.eqb_spec (session_id s) id) as [Hs|Hs].
  - inversion Hi; subst i. cbn. rewrite Hid, Hs.
    apply not_eq_sym, String.eqb_neq in Hne. now rewrite Hne.
  - destruct (findIndex id ss) as [j|]; [|discriminate].
    inversion Hi; subst i. cbn.
    destruct (String.eqb (session_id s) other); [reflexivity|].
    now apply (IH j).
Qed.

Lemma assign_ids id session : forall sessions i,
  session_id session = id ->
  findIndex id sessions = Some i ->
  map session_id (assign i session sessions) = map session_id sessions.
Proof.
  induction sessions as [|s ss IH]; intros i Hid Hi; cbn in *; [discriminate|].
  destruct (String.eqb_spec (session_id s) id) as [Hs|Hs].
  - inversion Hi; subst i. cbn. congruence.
  - destruct (findIndex id ss) as [j|]; [|discriminate].
    inversion Hi; subst i. cbn. f_equal. now apply (IH j).
Qed.

Lemma findIndex_none id sessions :
  findIndex id sessions = None -> ~ In id (map session_id sessions).
Proof.
  induction sessions as [|s ss IH]; cbn; [tauto|].
  destruct (String.eqb_spec (session_id s) id) as [Hs|Hs]; [discriminate|].
  destruct (findIndex id ss); [discriminate|]. intros _ [H|H]; [auto|].
  now apply IH.
Qed.

(** X17.  After a [saveSession] whose write succeeds, the store holds the
    session under its id and every other id leads to the session it led to
    before; the session takes the place of the stored one with its id or,
    when there is none, goes to the front, so ids that were unique stay
    unique.  When the write fails the store is as before.  A store that
    cannot be read is replaced by one that holds just the session. *)
Theorem saveSession_then_lookup (store : Store) (session : Session)
    (written : bool) :
  let store' := saveSession store session written in
  (written = true ->
   lookup (session_id session) (getSessions store') = Some session /\
   (forall other, other <> session_id session ->
      lookup other (getSessions store') = lookup other (getSessions store)) /\
   (NoDup (map session_id (getSessions store)) ->
    NoDup (map session_id (getSessions store'))) /\
   (In (session_id session) (map session_id (getSessions store)) ->
    map session_id (getSessions store') = map session_id (getSessions store)) /\
   (~ In (session_id session) (map session_id (getSessions store)) ->
    getSessions store' = session :: getSessions store) /\
   (store = BadItem -> store' = Item [session])) /\
  (written = false -> store' = store).
Proof.
  intros store'. subst store'. unfold saveSession. cbv zeta.
  destruct written; [|split; [discriminate|reflexivity]].
  split; [|discriminate]. intros _. cbn [getSessions].
  destruct (findIndex (session_id session) (getSessions store)) as [i|] eqn:Hi.
  - split; [now apply (@assign_lookup (session_id session))|].
    split; [intros other Hne;
            now apply (@assign_lookup_other (session_id session))|].
    pose proof (@assign_ids (session_id session) session _ i eq_refl Hi)
      as Hids.
    split; [now rewrite Hids|].
    split; [intros _; exact Hids|].
    split.
    + intros Hn. destruct (getSessions store) as [|s ss] eqn:E;
        [discriminate|].
      exfalso. clear -Hi Hn. revert i Hi.
      induction (s :: ss) as [|a l IH]; intros i Hi; cbn in *; [discriminate|].
      destruct (String.eqb_spec (session_id a) (session_id session)) as [H|H].
      * apply Hn. now left.
      * destruct (findIndex _ l) as [j|]; [|discriminate].
        apply (IH (fun H0 => Hn (or_intror H0)) j eq_refl).
    + intros ->. discriminate.
  - pose proof (findIndex_none _ _ Hi) as Hn.
    split; [unfold lookup; cbn; now rewrite String.eqb_refl|].
    split.
    { intros other Hne. unfold lookup. cbn.
      apply not_eq_sym, String.eqb_neq in Hne. now rewrite Hne. }
    split; [intros Hnd; cbn; now constructor|].
    split; [intros H; contradiction|].
    split; [reflexivity|]. intros ->. reflexivity.
Qed.

(** X18.  After a [deleteSession] whose write succeeds no stored session
    has the id, and every other id leads to the session it led to before;
    the sessions that stay keep their order.  When the write fails the
    store is as before. *)
Theorem deleteSession_then_lookup (store : Store) (sessionId : string)
    (written : bool) :
  let store' := deleteSession store sessionId written in
  (written = true ->
   lookup sessionId (getSessions store') = None /\
   ~ In sessionId (map session_id (getSessions store')) /\
   (forall other, other <> sessionId ->
      lookup other (getSessions store') = lookup other (getSessions store)) /\
   getSessions store' =
     filter (fun s => negb (String.eqb (session_id s) sessionId))
       (getSessions store)) /\
  (written = false -> store' = store).
Proof.
  intros store'. subst store'. unfold deleteSession. cbv zeta.
  destruct written; [|split; [discriminate|reflexivity]].
  split; [|discriminate]. intros _. cbn [getSessions].
  generalize (getSessions store). intros l.
  split; [|split; [|split; [|reflexivity]]].
  - unfold lookup. induction l as [|s ss IH]; cbn; [reflexivity|].
    destruct (String.eqb (session_id s) sessionId) eqn:E; cbn;
      [assumption|]. now rewrite E.
  - intros Hin. apply in_map_iff in Hin. destruct Hin as (s & Hs & Hin).
    apply filter_In in Hin. destruct Hin as [_ Hin].
    apply negb_true_iff, String.eqb_neq in Hin. contradiction.
  - intros other Hne. unfold lookup.
    induction l as [|s ss IH]; cbn; [reflexivity|].
    destruct (String.eqb_spec (session_id s) sessionId) as [Hs|Hs]; cbn.
    + destruct (String.eqb_spec (session_id s) other) as [Ho|Ho];
        [congruence|assumption].
    + destruct (String.eqb (session_id s) other); [reflexivity|assumption].
Qed.
End StorageFacts.

Section LoadingFacts.
Import VectorDatabase VectorMore Loading JsMapMore.

Variable createEmbedding : nat -> string -> option (list number).
Variable setItem_ok : nat -> bool.

Lemma index_message_flags session st m :
  openAIInstance (index_message createEmbedding session st m)
  = openAIInstance st /\
  initialized (index_message createEmbedding session st m) = initialized st.
Proof using createEmbedding.
  unfold index_message. cbv zeta.
  destruct (unchanged _ _); [now split|].
  destruct (JsMap.get _ _); [now split|].
  destruct (createEmbedding _ _); now split.
Qed.

Lemma index_loop_flags session : forall ms st,
  openAIInstance (fold_left (index_message createEmbedding session) ms st)
  = openAIInstance st /\
  initialized (fold_left (index_message createEmbedding session) ms st)
  = initialized st.
Proof using createEmbedding.
  induction ms as [|m ms IH]; intros st; [now split|].
  cbn [fold_left]. destruct (IH (index_message createEmbedding session st m))
    as [-> ->]. apply index_message_flags.
Qed.

Lemma saveToStorage_flags st :
  openAIInstance (saveToStorage setItem_ok st) = openAIInstance st /\
  initialized (saveToStorage setItem_ok st) = initialized st.
Proof.
  unfold saveToStorage. destruct (setItem_ok (writes st)); [|now split].
  cbv zeta. destruct (1000 <? _); destruct (setItem_ok _); now split.
Qed.

(** [indexSession] on an initialised store. *)
Lemma indexSession_ready st session :
  initialized st = true ->
  let r := indexSession createEmbedding setItem_ok st session in
  initialized (fst r) = true /\
  openAIInstance (fst r) = openAIInstance st /\
  (openAIInstance st = true ->
   r = (saveToStorage setItem_ok
          (fold_left (index_message createEmbedding session)
             (session_messages session) st), Resolved tt)) /\
  (openAIInstance st = false -> r = (st, Rejected)).
Proof.
  intros Hi r. subst r. unfold indexSession. cbv zeta.
  rewrite (initialize_initialized _ Hi).
  destruct (openAIInstance st) eqn:Hai; cbn [negb fst].
  - destruct (saveToStorage_flags
                (fold_left (index_message createEmbedding session)
                   (session_messages session) st)) as [-> ->].
    destruct (index_loop_flags session (session_messages session) st)
      as [-> ->].
    repeat split; auto. discriminate.
  - repeat split; auto. discriminate.
Qed.

Lemma NoDup_app_disjoint (A : Type) (a : A) : forall l1 l2,
  NoDup (l1 ++ l2) -> In a l1 -> ~ In a l2.
Proof.
  induction l1 as [|x l1 IH]; intros l2 Hnd Hin; [contradiction|].
  cbn in Hnd. inversion Hnd as [|y l Hx Hl]; subst.
  destruct Hin as [->|Hin]; [|now apply IH].
  intros H. apply Hx. apply in_or_app. now right.
Qed.

Lemma index_each_get_other k : forall sessions st,
  initialized st = true ->
  ~ In k (all_docIds sessions) ->
  JsMap.get
    (documents (fst (index_each createEmbedding setItem_ok sessions st))) k
  = JsMap.get (documents st) k.
Proof.
  induction sessions as [|s ss IH]; intros st Hi Hk; [reflexivity|].
  cbn [index_each].
  destruct (indexSession_ready st s Hi) as (Hi1 & Hai1 & Hyes & Hno).
  unfold all_docIds in Hk. cbn [flat_map] in Hk.
  destruct (openAIInstance st) eqn:Hai.
  - rewrite (Hyes eq_refl) in *. cbn [fst] in *.
    rewrite IH; [|assumption|].
    + rewrite saveToStorage_documents. apply index_loop_get_other.
      intros H. apply Hk. apply in_or_app. now left.
    + intros H. apply Hk. apply in_or_app. now right.
  - rewrite (Hno eq_refl). reflexivity.
Qed.

(** X19.  At start-up, with an OpenAI instance, a provider that does not
    fail and document ids that are distinct over all stored sessions,
    [loadSessions] resolves and every message of every stored session has a
    document that holds its text.  Without an OpenAI instance and with at
    least one stored session it rejects at the first session and indexes
    nothing. *)
Theorem loadSessions_indexes_everything (store : StorageService.Store)
    (st : State) :
  let r := loadSessions createEmbedding setItem_ok store st in
  let sessions := StorageService.getSessions store in
  (openAIInstance st = true ->
   never_fails createEmbedding ->
   NoDup (all_docIds sessions) ->
   snd r = Resolved tt /\
   forall s m, In s sessions -> In m (session_messages s) ->
     exists d,
       JsMap.get (documents (fst r)) (docId_of s m) = Some d /\
       doc_content d = msg_content m) /\
  (openAIInstance st = false -> sessions <> [] ->
   snd r = Rejected /\ documents (fst r) = documents (initialize st)).
Proof.
  intros r sessions. subst r. unfold loadSessions. fold sessions. cbv zeta.
  pose proof (initialize_is_initialized st) as Hi.
  pose proof (initialize_openAIInstance st) as Ho.
  revert Hi Ho. generalize (initialize st) as st0. intros st0 Hi Ho.
  rewrite <- Ho. clear Ho. split.
  - intros Hai Hnf. revert st0 Hi Hai.
    induction sessions as [|s ss IH]; intros st0 Hi Hai Hnd.
    + split; [reflexivity|]. intros s m [].
    + cbn [index_each].
      destruct (indexSession_ready st0 s Hi) as (Hi1 & Hai1 & Hyes & _).
      rewrite (Hyes Hai) in *. cbn [fst] in *.
      set (st1 := saveToStorage setItem_ok _) in *.
      unfold all_docIds in Hnd. cbn [flat_map] in Hnd.
      assert (Hnd1 : NoDup (map (docId_of s) (session_messages s)))
        by (now apply NoDup_app_remove_r in Hnd).
      assert (Hnd2 : NoDup (all_docIds ss))
        by (now apply NoDup_app_remove_l in Hnd).
      destruct (IH st1 Hi1 (eq_trans Hai1 Hai) Hnd2) as [Hres Hdocs].
      split; [exact Hres|].
      intros s' m [<-|Hs'] Hm; [|now apply Hdocs].
      rewrite index_each_get_other; [|assumption|].
      * subst st1. rewrite saveToStorage_documents.
        now apply index_loop_indexed.
      * eapply NoDup_app_disjoint; [exact Hnd|].
        apply in_map_iff. now exists m.
  - intros Hai Hne. destruct sessions as [|s ss]; [contradiction|].
    cbn [index_each].
    destruct (indexSession_ready st0 s Hi) as (_ & _ & _ & Hno).
    rewrite (Hno Hai). now split.
Qed.
End LoadingFacts.


(** * The further properties at concrete inputs *)

Section ExtraChecks.
Import VectorDatabase VectorSpec VectorExamples VectorMore JsMapFacts.
Import OpenAIService StorageService Loading.

Lemma unit_provider_never_fails : never_fails unit_provider.
Proof. intros n text. discriminate. Qed.

Lemma two_docs_wf : JsMap.wf (documents (initialize two_docs)).
Proof. apply distinct_NoDup. vm_compute. reflexivity. Qed.

Lemma chat_ids_distinct :
  NoDup (map (docId_of chat) (session_messages chat)).
Proof. apply distinct_NoDup. vm_compute. reflexivity. Qed.



Lemma removeSession_removes_witness :
  documents (removeSession (fun _ => true) two_docs "s") = [].
Proof.
  exact (proj1 (@removeSession_removes unit_provider (fun _ => true)
                  two_docs "s"%string two_docs_wf)).
Defined.

Lemma indexSession_indexes_every_message_witness :
  snd (indexSession unit_provider (fun _ => true) fresh chat) = Resolved tt.
Proof.
  apply (@indexSession_indexes_every_message unit_provider (fun _ => true)
           fresh chat).
  - reflexivity.
  - exact unit_provider_never_fails.
  - exact chat_ids_distinct.
Defined.

Lemma indexSession_embeds_each_text_once_witness :
  exists embedded : list string,
    embedCalls (fst (indexSession unit_provider (fun _ => true) fresh chat))
    = embedCalls fresh + length embedded /\
    length embedded <= 2.
Proof.
  destruct (@indexSession_embeds_each_text_once unit_provider (fun _ => true)
              fresh chat unit_provider_never_fails)
    as (e & H1 & _ & _ & _ & H5).
  exists e. split; [exact H1|exact H5].
Defined.

Lemma indexSession_frame_witness :
  JsMap.get
    (documents (fst (indexSession unit_provider (fun _ => true) two_docs chat)))
    "t_9"
  = JsMap.get (documents two_docs) "t_9".
Proof.
  apply (proj1 (@indexSession_frame unit_provider (fun _ => true)
                  two_docs chat)).
  intros [H|[H|[]]]; discriminate H.
Defined.

Lemma clear_empties_witness :
  snd (search unit_provider (fst (clear two_docs true true)) "hello" None)
  = Resolved [].
Proof.
  apply (proj2 (proj2 (proj2 (@clear_empties unit_provider two_docs true true
                                "hello"%string None)))).
  left. reflexivity.
Defined.

(** A query of one letter that takes two bytes in UTF-8. *)
Lemma getSuggestions_spec_witness :
  snd (getSuggestions (fun s => s) (fun s => [s]) example_units two_docs sha
         None) = [].
Proof.
  apply (proj1 (@getSuggestions_spec (fun s => s) (fun s => [s])
                  example_units two_docs sha None)).
  right. cbn. lia.
Defined.


Lemma saveSession_then_lookup_witness :
  lookup "s" (getSessions (saveSession NoItem chat true)) = Some chat.
Proof.
  apply (proj1 (saveSession_then_lookup NoItem chat true)). reflexivity.
Defined.

Lemma deleteSession_then_lookup_witness :
  lookup "s" (getSessions (deleteSession (Item [chat]) "s" true)) = None.
Proof.
  apply (proj1 (deleteSession_then_lookup (Item [chat]) "s"%string true)).
  reflexivity.
Defined.

Lemma chat_all_docIds_distinct : NoDup (all_docIds [chat]).
Proof. apply distinct_NoDup. vm_compute. reflexivity. Qed.

Lemma loadSessions_indexes_everything_witness :
  snd (loadSessions unit_provider (fun _ => true) (Item [chat]) fresh)
  = Resolved tt.
Proof.
  apply (proj1 (@loadSessions_indexes_everything unit_provider (fun _ => true)
                  (Item [chat]) fresh)).
  - reflexivity.
  - exact unit_provider_never_fails.
  - exact chat_all_docIds_distinct.
Defined.
End ExtraChecks.

